(** * Delhi Metro route finder: a shallow embedding of [metro_graph.py]

    The development follows the class [MetroGraph]: the network built by
    [_initialize_metro_network], name resolution, the two searches
    ([find_shortest_path], [find_route_least_changes]), the line-change
    analyser, [find_all_routes], [calculate_fare], the station lists
    ([get_all_stations], [get_popular_stations], [search_stations],
    [get_interchange_stations]) and [get_route_summary]; and the fall-back
    fare [_calculate_fare_locally] of [dmrc_api.py].

    Modelling conventions.
    - A Python [str] is a [string] whose characters are read as code points
      below 256.
    - A [dict] that is only looked up is a [gmap]; a [dict] that is iterated
      ([self.lines], the inner adjacency dicts) keeps Python's insertion
      order as an association list.  A [set] / [frozenset] is a [gset].
    - A binary64 distance is an exact rational ([Q]), kept in lowest terms;
      every weight of the table is a one-decimal literal.  The special
      values are separate constructors of [float].
    - A [heapq] queue is the bag of its tuples; [heappop] removes a least
      tuple for Python's tuple order. *)

From Stdlib Require Import QArith Qround String Ascii ZArith Lia Lqa.
From stdpp Require Import gmap mapset strings list fin_maps.

Open Scope string_scope.
Open Scope list_scope.

(** ** Python values *)

Module Py.

(** *** Strings: [str.strip] and [str.lower] *)

(** [str.isspace] on one code point below 256. *)
Definition isspace (c : ascii) : bool :=
  let n := N_of_ascii c in
  ((9 <=? n) && (n <=? 13) || (28 <=? n) && (n <=? 32) || (n =? 133) || (n =? 160))%N.

(** Lower-casing of one code point below 256: [A-Z] and the Latin-1 capitals
    (U+00C0..U+00DE without the multiplication sign) move up by 32. *)
Definition lower_char (c : ascii) : ascii :=
  let n := N_of_ascii c in
  if ((65 <=? n) && (n <=? 90) || (192 <=? n) && (n <=? 222) && negb (n =? 215))%N
  then ascii_of_N (n + 32) else c.

Fixpoint lstrip (s : string) : string :=
  match s with
  | String c s' => if isspace c then lstrip s' else s
  | EmptyString => EmptyString
  end.

Definition reverse (s : string) : string :=
  string_of_list_ascii (List.rev (list_ascii_of_string s)).

Definition rstrip (s : string) : string := reverse (lstrip (reverse s)).

Definition strip (s : string) : string := rstrip (lstrip s).

Fixpoint lower (s : string) : string :=
  match s with
  | String c s' => String (lower_char c) (lower s')
  | EmptyString => EmptyString
  end.

(** *** Floats *)

Inductive float : Type :=
| Finite (q : Q)
| PosInf
| NegInf
| NaN.

(** [a <= b], [a < b] and [a == b] on floats; every comparison with NaN is
    false. *)
Definition float_leb (a b : float) : bool :=
  match a, b with
  | NaN, _ | _, NaN => false
  | NegInf, _ => true
  | _, PosInf => true
  | Finite x, Finite y => Qle_bool x y
  | _, _ => false
  end.

Definition Qlt_bool (x y : Q) : bool := negb (Qle_bool y x).

Definition float_ltb (a b : float) : bool :=
  match a, b with
  | NaN, _ | _, NaN => false
  | PosInf, _ => false
  | _, NegInf => false
  | Finite x, Finite y => Qlt_bool x y
  | _, _ => true
  end.

Definition float_eqb (a b : float) : bool :=
  match a, b with
  | Finite x, Finite y => Qeq_bool x y
  | PosInf, PosInf | NegInf, NegInf => true
  | _, _ => false
  end.

(** [a + b] on finite floats, exact and in lowest terms. *)
Definition fadd (a b : Q) : Q := Qred (a + b)%Q.

(** Round-half-even of a rational to an integer. *)
Definition round_half_even (q : Q) : Z :=
  let f := Qfloor q in
  match (q - inject_Z f ?= 1 # 2)%Q with
  | Lt => f
  | Gt => (f + 1)%Z
  | Eq => if Z.even f then f else (f + 1)%Z
  end.

(** [round(x, 2)]: the nearest multiple of 1/100, ties to even; infinities and
    NaN are returned as they are. *)
Definition round2 (x : float) : float :=
  match x with
  | Finite q => Finite (Qred (inject_Z (round_half_even (q * 100)%Q) / 100)%Q)
  | _ => x
  end.

(** [int(x)] on a finite float: truncation towards zero. *)
Definition int (q : Q) : Z := (Qnum q ÷ Z.pos (Qden q))%Z.

(** *** Insertion-ordered dictionaries *)

Section Dict.
Context {V : Type}.

Fixpoint dict_get (k : string) (d : list (string * V)) : option V :=
  match d with
  | [] => None
  | (k', v) :: d' => if String.eqb k k' then Some v else dict_get k d'
  end.

(** [d[k] = v]: overwrite in place, or append a new key. *)
Fixpoint dict_set (k : string) (v : V) (d : list (string * V)) : list (string * V) :=
  match d with
  | [] => [(k, v)]
  | (k', v') :: d' =>
      if String.eqb k k' then (k, v) :: d' else (k', v') :: dict_set k v d'
  end.

Definition dict_mem (k : string) (d : list (string * V)) : bool :=
  match dict_get k d with Some _ => true | None => false end.
End Dict.

(** *** Sets *)

(** [s.add(x)] *)
Definition set_add (x : string) (X : gset string) : gset string :=
  Mapset (<[x := ()]> (mapset_car X)).

(** *** [heapq] *)

Section Heap.
Context {A : Type} (ltb : A → A → bool).

Definition heappush (h : list A) (x : A) : list A := x :: h.

(** The least tuple and the remaining bag. *)
Fixpoint heappop (h : list A) : option (A * list A) :=
  match h with
  | [] => None
  | x :: h' =>
      match heappop h' with
      | None => Some (x, [])
      | Some (m, r) => if ltb m x then Some (m, x :: r) else Some (x, h')
      end
  end.
End Heap.

(** *** Exceptions and the outcome of a call *)

Inductive exn : Type :=
| KeyError (key : string).

Inductive outcome (A : Type) : Type :=
| Returns (a : A)
| Raises (e : exn)
| Diverges.
Arguments Returns {A} a.
Arguments Raises {A} e.
Arguments Diverges {A}.

#[global] Instance outcome_bind : MBind outcome := λ A B k o,
  match o with
  | Returns a => k a
  | Raises e => Raises e
  | Diverges => Diverges
  end.

(** [d[k]] on a looked-up dictionary: the value, or [KeyError]. *)
Definition getitem {V : Type} (d : gmap string V) (k : string) : outcome V :=
  match d !! k with
  | Some v => Returns v
  | None => Raises (KeyError k)
  end.

(** [try: body except Exception as e: handler]. *)
Definition try_except {A : Type} (body : outcome A) (handler : exn → outcome A)
  : outcome A :=
  match body with
  | Raises e => handler e
  | o => o
  end.

(** [for x in l: body], threading the mutated locals. *)
Fixpoint for_in {A S : Type} (l : list A) (body : S → A → outcome S) (s : S)
  : outcome S :=
  match l with
  | [] => Returns s
  | x :: l' => s' ← body s x; for_in l' body s'
  end.

(** One pass through the body of a [while] loop either goes round again with
    the new locals, or leaves the loop ([break], a false test, [return]). *)
Inductive ctl (S R : Type) : Type :=
| Continue (s : S)
| Break (r : R).
Arguments Continue {S R} s.
Arguments Break {S R} r.

Section While.
Context {S R : Type} (body : S → outcome (ctl S R)).

(** At most [fuel] passes, the count written in binary. *)
Fixpoint iterate (fuel : positive) (c : outcome (ctl S R)) : outcome (ctl S R) :=
  match c with
  | Returns (Continue s) =>
      match fuel with
      | xH => body s
      | xO p => iterate p (iterate p c)
      | xI p => iterate p (iterate p (body s))
      end
  | _ => c
  end.

(** The loop is cut off after [fuel] passes; a loop still running then is
    reported as [Diverges]. *)
Definition while (fuel : positive) (s : S) : outcome R :=
  match iterate fuel (Returns (Continue s)) with
  | Returns (Break r) => Returns r
  | Returns (Continue _) => Diverges
  | Raises e => Raises e
  | Diverges => Diverges
  end.
End While.

(** *** [sorted] and [list.sort] *)

(** A stable sort for the strict order [ltb]: an element is put before the
    first one of the sorted rest that is not below it. *)
Section Sort.
Context {A : Type} (ltb : A → A → bool).

Fixpoint insert_sorted (x : A) (l : list A) : list A :=
  match l with
  | [] => [x]
  | y :: l' => if ltb y x then y :: insert_sorted x l' else x :: l
  end.

Definition sorted (l : list A) : list A := foldr insert_sorted [] l.
End Sort.

(** Python's [<] on the pairs [(bool, str)]: [False < True], then the
    strings. *)
Definition lt_bool_str (a b : bool * string) : bool :=
  if Bool.eqb a.1 b.1 then String.ltb a.2 b.2 else negb a.1 && b.1.

(** *** [str.startswith] and the substring test [q in s] *)

Definition startswith (s q : string) : bool := String.prefix q s.

Fixpoint str_contains (q s : string) : bool :=
  String.prefix q s
  || match s with
     | String _ s' => str_contains q s'
     | EmptyString => false
     end.

End Py.
Import Py.

(** ** The static table *)

Open Scope Q_scope.

Definition yellow_line : list (string * string * Q) :=
  [ ("Samaypur Badli", "Rohini Sector 18,19", 1.3)
  ; ("Rohini Sector 18,19", "Haiderpur Badli Mor", 1.2)
  ; ("Haiderpur Badli Mor", "Jahangirpuri", 1.4)
  ; ("Jahangirpuri", "Adarsh Nagar", 1.3)
  ; ("Adarsh Nagar", "Azadpur", 1.5)
  ; ("Azadpur", "Model Town", 1.4)
  ; ("Model Town", "GTB Nagar", 1.4)
  ; ("GTB Nagar", "Vishwa Vidyalaya", 0.8)
  ; ("Vishwa Vidyalaya", "Vidhan Sabha", 1.0)
  ; ("Vidhan Sabha", "Civil Lines", 1.3)
  ; ("Civil Lines", "Kashmere Gate", 1.1)
  ; ("Kashmere Gate", "Chandni Chowk", 1.1)
  ; ("Chandni Chowk", "Chawri Bazar", 1.0)
  ; ("Chawri Bazar", "New Delhi", 0.8)
  ; ("New Delhi", "Rajiv Chowk", 1.1)
  ; ("Rajiv Chowk", "Patel Chowk", 1.3)
  ; ("Patel Chowk", "Central Secretariat", 0.9)
  ; ("Central Secretariat", "Udyog Bhawan", 0.3)
  ; ("Udyog Bhawan", "Lok Kalyan Marg", 1.6)
  ; ("Lok Kalyan Marg", "Jor Bagh", 1.2)
  ; ("Jor Bagh", "INA", 1.3)
  ; ("INA", "AIIMS", 0.8)
  ; ("AIIMS", "Green Park", 1.0)
  ; ("Green Park", "Hauz Khas", 1.8)
  ; ("Hauz Khas", "Malviya Nagar", 1.7)
  ; ("Malviya Nagar", "Saket", 0.9)
  ; ("Saket", "Qutab Minar", 1.7)
  ; ("Qutab Minar", "Chhatarpur", 1.5)
  ; ("Chhatarpur", "Sultanpur", 1.5)
  ; ("Sultanpur", "Ghitorni", 1.3)
  ; ("Ghitorni", "Arjan Garh", 2.7)
  ; ("Arjan Garh", "Guru Dronacharya", 2.3)
  ; ("Guru Dronacharya", "Sikanderpur", 1.0)
  ; ("Sikanderpur", "MG Road", 1.2)
  ; ("MG Road", "IFFCO Chowk", 1.1)
  ; ("IFFCO Chowk", "Huda City Centre", 1.5)
  ].

Definition blue_line : list (string * string * Q) :=
  [ ("Dwarka Sector 21", "Dwarka Sector 8", 2.6)
  ; ("Dwarka Sector 8", "Dwarka Sector 9", 1.7)
  ; ("Dwarka Sector 9", "Dwarka Sector 10", 1.0)
  ; ("Dwarka Sector 10", "Dwarka Sector 11", 1.2)
  ; ("Dwarka Sector 11", "Dwarka Sector 12", 1.0)
  ; ("Dwarka Sector 12", "Dwarka Sector 13", 1.1)
  ; ("Dwarka Sector 13", "Dwarka Sector 14", 1.1)
  ; ("Dwarka Sector 14", "Dwarka", 1.0)
  ; ("Dwarka", "Dwarka Mor", 1.2)
  ; ("Dwarka Mor", "Nawada", 1.7)
  ; ("Nawada", "Uttam Nagar West", 1.0)
  ; ("Uttam Nagar West", "Uttam Nagar East", 0.9)
  ; ("Uttam Nagar East", "Janakpuri West", 1.0)
  ; ("Janakpuri West", "Janakpuri East", 1.1)
  ; ("Janakpuri East", "Tilak Nagar", 1.1)
  ; ("Tilak Nagar", "Subhash Nagar", 1.3)
  ; ("Subhash Nagar", "Tagore Garden", 1.0)
  ; ("Tagore Garden", "Rajouri Garden", 1.2)
  ; ("Rajouri Garden", "Ramesh Nagar", 1.2)
  ; ("Ramesh Nagar", "Moti Nagar", 1.2)
  ; ("Moti Nagar", "Kirti Nagar", 1.1)
  ; ("Kirti Nagar", "Shadipur", 0.7)
  ; ("Shadipur", "Patel Nagar", 1.3)
  ; ("Patel Nagar", "Rajendra Place", 1.1)
  ; ("Rajendra Place", "Karol Bagh", 1.1)
  ; ("Karol Bagh", "Jhandewalan", 1.2)
  ; ("Jhandewalan", "Ramakrishna Ashram Marg", 0.8)
  ; ("Ramakrishna Ashram Marg", "Rajiv Chowk", 1.1)
  ; ("Rajiv Chowk", "Barakhamba Road", 0.7)
  ; ("Barakhamba Road", "Mandi House", 1.0)
  ; ("Mandi House", "Supreme Court", 0.9)
  ; ("Supreme Court", "Indraprastha", 1.1)
  ; ("Indraprastha", "Yamuna Bank", 1.8)
  ; ("Yamuna Bank", "Akshardham", 1.3)
  ; ("Akshardham", "Mayur Vihar Phase 1", 1.8)
  ; ("Mayur Vihar Phase 1", "Mayur Vihar Extension", 1.2)
  ; ("Mayur Vihar Extension", "New Ashok Nagar", 1.0)
  ; ("New Ashok Nagar", "Noida Sector 15", 1.7)
  ; ("Noida Sector 15", "Noida Sector 16", 1.1)
  ; ("Noida Sector 16", "Noida Sector 18", 1.5)
  ; ("Noida Sector 18", "Botanical Garden", 1.6)
  ; ("Botanical Garden", "Golf Course", 1.2)
  ; ("Golf Course", "Noida City Centre", 1.3)
  ; ("Noida City Centre", "Noida Sector 62", 1.6)
  ; ("Noida Sector 62", "Noida Electronic City", 1.5)
  ].

Definition blue_line_branch : list (string * string * Q) :=
  [ ("Yamuna Bank", "Laxmi Nagar", 1.3)
  ; ("Laxmi Nagar", "Nirman Vihar", 1.1)
  ; ("Nirman Vihar", "Preet Vihar", 1.0)
  ; ("Preet Vihar", "Karkardooma", 1.2)
  ; ("Karkardooma", "Anand Vihar ISBT", 1.1)
  ; ("Anand Vihar ISBT", "Kaushambi", 0.8)
  ; ("Kaushambi", "Vaishali", 1.6)
  ].

Definition red_line : list (string * string * Q) :=
  [ ("Rithala", "Rohini West", 1.5)
  ; ("Rohini West", "Rohini East", 1.2)
  ; ("Rohini East", "Pitampura", 1.1)
  ; ("Pitampura", "Kohat Enclave", 1.1)
  ; ("Kohat Enclave", "Netaji Subhash Place", 0.9)
  ; ("Netaji Subhash Place", "Keshav Puram", 1.2)
  ; ("Keshav Puram", "Kanhaiya Nagar", 0.8)
  ; ("Kanhaiya Nagar", "Inderlok", 1.2)
  ; ("Inderlok", "Shastri Nagar", 1.2)
  ; ("Shastri Nagar", "Pratap Nagar", 1.7)
  ; ("Pratap Nagar", "Pulbangash", 0.8)
  ; ("Pulbangash", "Tis Hazari", 0.9)
  ; ("Tis Hazari", "Kashmere Gate", 1.1)
  ; ("Kashmere Gate", "Shastri Park", 2.2)
  ; ("Shastri Park", "Seelampur", 1.6)
  ; ("Seelampur", "Welcome", 1.1)
  ; ("Welcome", "Shahdara", 1.3)
  ; ("Shahdara", "Mansarovar Park", 1.1)
  ; ("Mansarovar Park", "Jhilmil", 1.1)
  ; ("Jhilmil", "Dilshad Garden", 1.3)
  ; ("Dilshad Garden", "Shaheed Nagar", 1.1)
  ; ("Shaheed Nagar", "Raj Bagh", 1.2)
  ; ("Raj Bagh", "Rajendra Nagar", 1.1)
  ; ("Rajendra Nagar", "Shyam Park", 1.0)
  ; ("Shyam Park", "Mohan Nagar", 1.3)
  ; ("Mohan Nagar", "Arthala", 1.0)
  ; ("Arthala", "Hindon River", 0.9)
  ; ("Hindon River", "Shaheed Sthal", 1.4)
  ].

Definition green_line : list (string * string * Q) :=
  [ ("Inderlok", "Ashok Park Main", 1.4)
  ; ("Ashok Park Main", "Punjabi Bagh", 1.3)
  ; ("Punjabi Bagh", "Shivaji Park", 1.6)
  ; ("Shivaji Park", "Madipur", 1.1)
  ; ("Madipur", "Paschim Vihar East", 1.2)
  ; ("Paschim Vihar East", "Paschim Vihar West", 1.0)
  ; ("Paschim Vihar West", "Peera Garhi", 1.7)
  ; ("Peera Garhi", "Udyog Nagar", 0.8)
  ; ("Udyog Nagar", "Surajmal Stadium", 1.2)
  ; ("Surajmal Stadium", "Nangloi", 1.1)
  ; ("Nangloi", "Nangloi Railway Station", 0.9)
  ; ("Nangloi Railway Station", "Rajdhani Park", 1.1)
  ; ("Rajdhani Park", "Mundka", 1.4)
  ; ("Mundka", "Mundka Industrial Area", 1.2)
  ; ("Mundka Industrial Area", "Ghevra", 1.3)
  ; ("Ghevra", "Tikri Kalan", 1.1)
  ; ("Tikri Kalan", "Tikri Border", 1.0)
  ; ("Tikri Border", "Pandit Shree Ram Sharma", 1.2)
  ; ("Pandit Shree Ram Sharma", "Bahadurgarh City", 1.3)
  ; ("Bahadurgarh City", "Brigadier Hoshiar Singh", 1.5)
  ].

Definition green_line_branch : list (string * string * Q) :=
  [ ("Ashok Park Main", "Satguru Ram Singh Marg", 1.1)
  ; ("Satguru Ram Singh Marg", "Kirti Nagar", 1.0)
  ].

Definition violet_line : list (string * string * Q) :=
  [ ("Kashmere Gate", "Lal Quila", 1.5)
  ; ("Lal Quila", "Jama Masjid", 0.8)
  ; ("Jama Masjid", "Delhi Gate", 1.4)
  ; ("Delhi Gate", "ITO", 1.3)
  ; ("ITO", "Mandi House", 0.8)
  ; ("Mandi House", "Janpath", 1.0)
  ; ("Janpath", "Central Secretariat", 1.1)
  ; ("Central Secretariat", "Khan Market", 2.1)
  ; ("Khan Market", "JLN Stadium", 1.4)
  ; ("JLN Stadium", "Jangpura", 0.9)
  ; ("Jangpura", "Lajpat Nagar", 1.5)
  ; ("Lajpat Nagar", "Moolchand", 1.0)
  ; ("Moolchand", "Kailash Colony", 1.3)
  ; ("Kailash Colony", "Nehru Place", 1.0)
  ; ("Nehru Place", "Kalkaji Mandir", 1.2)
  ; ("Kalkaji Mandir", "Govind Puri", 0.9)
  ; ("Govind Puri", "Harkesh Nagar", 1.2)
  ; ("Harkesh Nagar", "Jasola Apollo", 0.9)
  ; ("Jasola Apollo", "Sarita Vihar", 1.5)
  ; ("Sarita Vihar", "Mohan Estate", 1.4)
  ; ("Mohan Estate", "Tughlakabad", 1.3)
  ; ("Tughlakabad", "Badarpur", 1.7)
  ; ("Badarpur", "Sarai", 1.9)
  ; ("Sarai", "NHPC Chowk", 1.3)
  ; ("NHPC Chowk", "Mewala Maharajpur", 1.2)
  ; ("Mewala Maharajpur", "Sector 28", 1.1)
  ; ("Sector 28", "Badkal Mor", 1.6)
  ; ("Badkal Mor", "Faridabad Old", 1.7)
  ; ("Faridabad Old", "Neelam Chowk Ajronda", 1.4)
  ; ("Neelam Chowk Ajronda", "Bata Chowk", 1.4)
  ; ("Bata Chowk", "Escorts Mujesar", 1.6)
  ; ("Escorts Mujesar", "Raja Nahar Singh", 1.5)
  ].

Definition magenta_line : list (string * string * Q) :=
  [ ("Janakpuri West", "Dabri Mor", 1.2)
  ; ("Dabri Mor", "Dashrath Puri", 1.1)
  ; ("Dashrath Puri", "Palam", 1.3)
  ; ("Palam", "Sadar Bazaar Cantonment", 1.4)
  ; ("Sadar Bazaar Cantonment", "Terminal 1 IGI Airport", 1.7)
  ; ("Terminal 1 IGI Airport", "Shankar Vihar", 1.5)
  ; ("Shankar Vihar", "Vasant Vihar", 1.3)
  ; ("Vasant Vihar", "Munirka", 1.0)
  ; ("Munirka", "R.K Puram", 1.2)
  ; ("R.K Puram", "IIT Delhi", 1.1)
  ; ("IIT Delhi", "Hauz Khas", 1.0)
  ; ("Hauz Khas", "Panchsheel Park", 1.3)
  ; ("Panchsheel Park", "Chirag Delhi", 1.2)
  ; ("Chirag Delhi", "Greater Kailash", 1.1)
  ; ("Greater Kailash", "Nehru Enclave", 1.0)
  ; ("Nehru Enclave", "Kalkaji Mandir", 1.2)
  ; ("Kalkaji Mandir", "Okhla NSIC", 1.3)
  ; ("Okhla NSIC", "Sukhdev Vihar", 1.0)
  ; ("Sukhdev Vihar", "Jamia Millia Islamia", 1.1)
  ; ("Jamia Millia Islamia", "Okhla Vihar", 1.2)
  ; ("Okhla Vihar", "Jasola Vihar Shaheen Bagh", 1.0)
  ; ("Jasola Vihar Shaheen Bagh", "Kalindi Kunj", 1.4)
  ; ("Kalindi Kunj", "Okhla Bird Sanctuary", 1.2)
  ; ("Okhla Bird Sanctuary", "Botanical Garden", 1.3)
  ].

Definition pink_line : list (string * string * Q) :=
  [ ("Majlis Park", "Azadpur", 1.5)
  ; ("Azadpur", "Shalimar Bagh", 1.2)
  ; ("Shalimar Bagh", "Netaji Subhash Place", 1.3)
  ; ("Netaji Subhash Place", "Shakurpur", 1.1)
  ; ("Shakurpur", "Punjabi Bagh West", 1.4)
  ; ("Punjabi Bagh West", "ESI Hospital", 1.2)
  ; ("ESI Hospital", "Rajouri Garden", 1.1)
  ; ("Rajouri Garden", "Maya Puri", 1.5)
  ; ("Maya Puri", "Naraina Vihar", 1.0)
  ; ("Naraina Vihar", "Delhi Cantt", 1.3)
  ; ("Delhi Cantt", "Durgabai Deshmukh South Campus", 1.4)
  ; ("Durgabai Deshmukh South Campus", "Sir Vishweshwaraiah Moti Bagh", 1.2)
  ; ("Sir Vishweshwaraiah Moti Bagh", "Bhikaji Cama Place", 1.1)
  ; ("Bhikaji Cama Place", "Sarojini Nagar", 1.0)
  ; ("Sarojini Nagar", "INA", 1.3)
  ; ("INA", "South Extension", 1.2)
  ; ("South Extension", "Lajpat Nagar", 1.1)
  ; ("Lajpat Nagar", "Vinobapuri", 1.0)
  ; ("Vinobapuri", "Ashram", 1.2)
  ; ("Ashram", "Hazrat Nizamuddin", 1.3)
  ; ("Hazrat Nizamuddin", "Mayur Vihar Phase 1", 1.8)
  ; ("Mayur Vihar Phase 1", "Mayur Vihar Pocket 1", 1.0)
  ; ("Mayur Vihar Pocket 1", "Trilokpuri Sanjay Lake", 1.2)
  ; ("Trilokpuri Sanjay Lake", "East Vinod Nagar", 1.1)
  ; ("East Vinod Nagar", "IP Extension", 1.0)
  ; ("IP Extension", "Anand Vihar ISBT", 1.3)
  ; ("Anand Vihar ISBT", "Karkardooma", 1.2)
  ; ("Karkardooma", "Karkardooma Court", 1.1)
  ; ("Karkardooma Court", "Krishna Nagar", 1.0)
  ; ("Krishna Nagar", "East Azad Nagar", 1.1)
  ; ("East Azad Nagar", "Welcome", 1.2)
  ; ("Welcome", "Jaffrabad", 1.0)
  ; ("Jaffrabad", "Maujpur", 1.1)
  ; ("Maujpur", "Gokulpuri", 1.2)
  ; ("Gokulpuri", "Johri Enclave", 1.1)
  ; ("Johri Enclave", "Shiv Vihar", 1.3)
  ].

Definition grey_line : list (string * string * Q) :=
  [ ("Dwarka", "Nangli", 1.3)
  ; ("Nangli", "Najafgarh", 1.2)
  ; ("Najafgarh", "Dhansa Bus Stand", 1.1)
  ].

Close Scope Q_scope.

(** ** The class [MetroGraph] *)

Definition edge : Type := string * string * Q.

Record MetroGraph : Type := {
  graph : gmap string (list (string * Q));
  stations : gset string;
  station_lines : gmap string (list string);
  lines : list (string * list string)
}.

(** *** [_initialize_metro_network] *)

(** The line tables in the order of [all_lines] and of the [self.lines]
    literal. *)
Definition line_tables : list (string * list edge) :=
  [ ("Yellow", yellow_line); ("Blue", blue_line); ("Blue Branch", blue_line_branch)
  ; ("Red", red_line); ("Green", green_line); ("Green Branch", green_line_branch)
  ; ("Violet", violet_line); ("Magenta", magenta_line); ("Pink", pink_line)
  ; ("Grey", grey_line) ].

(** [[station for station1, station2, _ in line for station in [station1, station2]]] *)
Definition line_stations (line : list edge) : list string :=
  flat_map (λ e : edge, let '(station1, station2, _) := e in [station1; station2]) line.

(** One pass of the loop [for station1, station2, distance in all_lines]. *)
Definition add_connection (st : gset string * gmap string (list (string * Q))) (e : edge)
  : gset string * gmap string (list (string * Q)) :=
  let '(stations, graph) := st in
  let '(station1, station2, distance) := e in
  let stations := set_add station1 stations in
  let stations := set_add station2 stations in
  let graph := match graph !! station1 with None => <[station1 := []]> graph | Some _ => graph end in
  let graph := match graph !! station2 with None => <[station2 := []]> graph | Some _ => graph end in
  let graph := alter (dict_set station2 distance) station1 graph in
  let graph := alter (dict_set station1 distance) station2 graph in
  (stations, graph).

(** One pass of the inner loop [for station in stations] of the line map. *)
Definition add_station_line (line_name : string) (station_lines : gmap string (list string))
    (station : string) : gmap string (list string) :=
  let station_lines :=
    match station_lines !! station with
    | None => <[station := []]> station_lines
    | Some _ => station_lines
    end in
  alter (λ ls : list string,
           if bool_decide (line_name ∈ ls) then ls else ls ++ [line_name])
        station station_lines.

Definition initialize_metro_network (tables : list (string * list edge)) : MetroGraph :=
  let all_lines := flat_map snd tables in
  let lines :=
    foldl (λ d t, dict_set (fst t) (line_stations (snd t)) d) [] tables in
  let '(stations, graph) := foldl add_connection (∅, ∅) all_lines in
  let station_lines :=
    foldl (λ sl l, foldl (add_station_line (fst l)) sl (snd l)) ∅ lines in
  {| graph := graph; stations := stations;
     station_lines := station_lines; lines := lines |}.

(** The network of the program. *)
Definition metro : MetroGraph := initialize_metro_network line_tables.

(** *** Name resolution *)

Definition normalize_station_name (name : string) : string := lower (strip name).

(** [{normalize(s): s for s in self.stations}]; the iteration order of the set
    only matters when two stations share a normalised name. *)
Definition get_station_mapping (g : MetroGraph) : gmap string string :=
  foldl (λ m s, <[normalize_station_name s := s]> m) ∅ (elements (stations g)).

(** [frozenset(self.station_lines.get(station, []))] *)
Definition lines_at (g : MetroGraph) (station : string) : gset string :=
  list_to_set (default [] (station_lines g !! station)).

(** *** [_identify_line_changes] *)

Record line_change : Type := {
  lc_station : string;
  from_lines : gset string;
  to_lines : gset string;
  position : nat
}.

Definition is_empty (X : gset string) : bool := bool_decide (X = ∅).

(** One pass of [for i, station in enumerate(path)] for [i > 0]; the locals
    are [line_changes], [current_lines] and the index [i]. *)
Definition line_change_step (g : MetroGraph)
    (st : list line_change * gset string * nat) (station : string)
  : list line_change * gset string * nat :=
  let '(line_changes, current_lines, i) := st in
  let station_lines := lines_at g station in
  let common_lines := current_lines ∩ station_lines in
  if is_empty common_lines && negb (is_empty current_lines) && negb (is_empty station_lines)
  then (line_changes ++ [ {| lc_station := station; from_lines := current_lines;
                             to_lines := station_lines; position := i |} ],
        station_lines, S i)
  else if negb (is_empty common_lines)
  then (line_changes, common_lines, S i)
  else (line_changes, current_lines, S i).

Definition identify_line_changes (g : MetroGraph) (path : list string)
  : list line_change :=
  match path with
  | [] => []
  | first :: rest => (foldl (line_change_step g) ([], lines_at g first, 1) rest).1.1
  end.

(** *** Results *)

Definition route : Type := list string * float * list line_change.

(** [[], 0, []] *)
Definition no_route : route := ([], Finite 0, []).

(** *** [find_shortest_path] *)

Record dijkstra : Type := {
  distances : gmap string float;
  previous : gmap string (option string);
  pq : list (Q * string);
  visited : gset string
}.

(** Python's [<] on the tuples [(distance, station)]. *)
Definition lt_dist_station (a b : Q * string) : bool :=
  if Qeq_bool a.1 b.1 then String.ltb a.2 b.2 else Qlt_bool a.1 b.1.

(** One pass of [for neighbor, edge_distance in self.graph[current].items()]. *)
Definition relax (current : string) (current_dist : Q) (st : dijkstra)
    (item : string * Q) : outcome dijkstra :=
  let '(neighbor, edge_distance) := item in
  if bool_decide (neighbor ∈ visited st) then Returns st
  else
    let new_distance := fadd current_dist edge_distance in
    old ← getitem (distances st) neighbor;
    if float_ltb (Finite new_distance) old
    then Returns {| distances := <[neighbor := Finite new_distance]> (distances st);
                    previous := <[neighbor := Some current]> (previous st);
                    pq := heappush (pq st) (new_distance, neighbor);
                    visited := visited st |}
    else Returns st.

(** One pass of [while pq]. *)
Definition dijkstra_pass (g : MetroGraph) (end_ : string) (st : dijkstra)
  : outcome (ctl dijkstra dijkstra) :=
  match heappop lt_dist_station (pq st) with
  | None => Returns (Break st)
  | Some ((current_dist, current), rest) =>
      let st := {| distances := distances st; previous := previous st;
                   pq := rest; visited := visited st |} in
      if bool_decide (current ∈ visited st) then Returns (Continue st)
      else
        let st := {| distances := distances st; previous := previous st;
                     pq := pq st; visited := set_add current (visited st) |} in
        if String.eqb current end_ then Returns (Break st)
        else
          best ← getitem (distances st) current;
          if float_ltb best (Finite current_dist) then Returns (Continue st)
          else
            neighbors ← getitem (graph g) current;
            st ← for_in neighbors (relax current current_dist) st;
            Returns (Continue st)
  end.

(** One pass of [while current] in the path reconstruction; [current] is a
    station or [None], and both [None] and the empty string are false. *)
Definition backtrack_pass (previous : gmap string (option string))
    (st : list string * option string)
  : outcome (ctl (list string * option string) (list string)) :=
  let '(path, current) := st in
  match current with
  | None => Returns (Break path)
  | Some c =>
      if String.eqb c "" then Returns (Break path)
      else
        prev ← getitem previous c;
        Returns (Continue (path ++ [c], prev))
  end.

(** Every pass of [while pq] pops one tuple, and a station pushes its
    neighbours at most once. *)
Definition dijkstra_fuel (g : MetroGraph) : positive :=
  Pos.of_succ_nat
    (S (sum_list_with (λ kv : string * list (string * Q), S (length kv.2))
          (map_to_list (graph g)))).

(** The predecessor chain visits a station at most once. *)
Definition backtrack_fuel (g : MetroGraph) : positive :=
  Pos.of_succ_nat (S (S (size (stations g)))).

(** The locals before the loop: all stations at infinity except the source,
    no predecessor, the source queued. *)
Definition dijkstra_init (g : MetroGraph) (start : string) : dijkstra :=
  {| distances := <[start := Finite 0]> (gset_to_gmap PosInf (stations g));
     previous := gset_to_gmap None (stations g);
     pq := [(0%Q, start)];
     visited := ∅ |}.

(** The body of the [try] block. *)
Definition shortest_path_body (g : MetroGraph) (start end_ : string) : outcome route :=
  let station_map := get_station_mapping g in
  let start_norm := normalize_station_name start in
  let end_norm := normalize_station_name end_ in
  match station_map !! start_norm with
  | None => Returns no_route
  | Some start =>
  match station_map !! end_norm with
  | None => Returns no_route
  | Some end_ =>
      if negb (bool_decide (start ∈ dom (graph g)))
         || negb (bool_decide (end_ ∈ dom (graph g)))
      then Returns no_route
      else
        final ← while (dijkstra_pass g end_) (dijkstra_fuel g)
                  (dijkstra_init g start);
        reached ← getitem (distances final) end_;
        if float_eqb reached PosInf then Returns no_route
        else
          path ← while (backtrack_pass (previous final)) (backtrack_fuel g)
                   ([], Some end_);
          let path := rev path in
          let line_changes := identify_line_changes g path in
          let total_distance := round2 reached in
          Returns (path, total_distance, line_changes)
  end
  end.

Definition find_shortest_path (g : MetroGraph) (start end_ : string) : outcome route :=
  if String.eqb start "" || String.eqb end_ "" then Returns no_route
  else try_except (shortest_path_body g start end_) (λ _, Returns no_route).

(** *** [find_route_least_changes] *)

(** A queue entry [(changes, dist, current, path, current_lines)]. *)
Definition entry : Type := nat * Q * string * list string * gset string.

(** Python's [<] on lists of strings. *)
Fixpoint list_ltb (p q : list string) : bool :=
  match p, q with
  | [], [] => false
  | [], _ :: _ => true
  | _ :: _, [] => false
  | x :: p', y :: q' => if String.eqb x y then list_ltb p' q' else String.ltb x y
  end.

(** Python's [<] on the entries: the first component that differs decides;
    frozensets are ordered by proper inclusion. *)
Definition lt_entry (a b : entry) : bool :=
  let '(changes1, dist1, current1, path1, lines1) := a in
  let '(changes2, dist2, current2, path2, lines2) := b in
  if negb (changes1 =? changes2)%nat then (changes1 <? changes2)%nat
  else if negb (Qeq_bool dist1 dist2) then Qlt_bool dist1 dist2
  else if negb (String.eqb current1 current2) then String.ltb current1 current2
  else if negb (bool_decide (path1 = path2)) then list_ltb path1 path2
  else bool_decide (lines1 ⊂ lines2).

Record least_changes : Type := {
  lc_pq : list entry;
  lc_visited : gmap (string * gset string) nat
}.

(** One pass of [for neighbor, edge_dist in self.graph[current].items()]. *)
Definition extend (g : MetroGraph) (e : entry) (queue : list entry)
    (item : string * Q) : outcome (list entry) :=
  let '(changes, dist, current, path, current_lines) := e in
  let '(neighbor, edge_dist) := item in
  if bool_decide (neighbor ∈ path) then Returns queue
  else
    let neighbor_lines := lines_at g neighbor in
    let common_lines := current_lines ∩ neighbor_lines in
    let '(new_changes, new_lines) :=
      if negb (is_empty common_lines) then (changes, common_lines)
      else (S changes, neighbor_lines) in
    let new_path := path ++ [neighbor] in
    let new_dist := fadd dist edge_dist in
    Returns (heappush queue (new_changes, new_dist, neighbor, new_path, new_lines)).

(** One pass of [while pq]; the loop is left by the [return] at the goal or
    by the empty queue. *)
Definition least_changes_pass (g : MetroGraph) (end_ : string) (st : least_changes)
  : outcome (ctl least_changes route) :=
  match heappop lt_entry (lc_pq st) with
  | None => Returns (Break no_route)
  | Some ((changes, dist, current, path, current_lines) as e, rest) =>
      if String.eqb current end_
      then Returns (Break (path, round2 (Finite dist), identify_line_changes g path))
      else
        let state_key := (current, current_lines) in
        match lc_visited st !! state_key with
        | Some seen =>
            if (seen <=? changes)%nat
            then Returns (Continue {| lc_pq := rest; lc_visited := lc_visited st |})
            else
              neighbors ← getitem (graph g) current;
              queue ← for_in neighbors (extend g e) rest;
              Returns (Continue {| lc_pq := queue;
                                   lc_visited := <[state_key := changes]> (lc_visited st) |})
        | None =>
            neighbors ← getitem (graph g) current;
            queue ← for_in neighbors (extend g e) rest;
            Returns (Continue {| lc_pq := queue;
                                 lc_visited := <[state_key := changes]> (lc_visited st) |})
        end
  end.

(** The stations named by the adjacency mapping, as keys or as neighbours. *)
Definition nodes (g : MetroGraph) : gset string :=
  foldr set_add ∅ (flat_map (λ kv : string * list (string * Q), kv.1 :: kv.2.*1)
                     (map_to_list (graph g))).

Definition max_degree (g : MetroGraph) : nat :=
  max_list_with (λ kv : string * list (string * Q), length kv.2) (map_to_list (graph g)).

(** Every queued path is simple, so a pass replaces one path by at most
    [max_degree] longer ones, and no path is longer than the node count. *)
Definition least_changes_fuel (g : MetroGraph) : positive :=
  (Pos.of_succ_nat (S (max_degree g)) ^ Pos.of_succ_nat (size (nodes g)))%positive.

(** The body of the [try] block. *)
Definition least_changes_body (g : MetroGraph) (start end_ : string) : outcome route :=
  let station_map := get_station_mapping g in
  let start_norm := normalize_station_name start in
  let end_norm := normalize_station_name end_ in
  match station_map !! start_norm, station_map !! end_norm with
  | Some start, Some end_ =>
      while (least_changes_pass g end_) (least_changes_fuel g)
        {| lc_pq := [(0, 0%Q, start, [start], lines_at g start)];
           lc_visited := ∅ |}
  | _, _ => Returns no_route
  end.

Definition find_route_least_changes (g : MetroGraph) (start end_ : string)
  : outcome route :=
  if String.eqb start "" || String.eqb end_ "" then Returns no_route
  else try_except (least_changes_body g start end_) (λ _, Returns no_route).

(** *** [find_all_routes] *)

Inductive route_type : Type := shortest | least_changes_route | direct.

Record RouteResult : Type := {
  path : list string;
  distance : float;
  line_changes : list line_change;
  rtype : route_type
}.

Definition find_all_routes (g : MetroGraph) (start end_ : string)
  : outcome (list RouteResult) :=
  let routes := [] in
  r1 ← find_shortest_path g start end_;
  let '(path1, dist1, changes1) := r1 in
  let routes :=
    if bool_decide (path1 ≠ [])
    then routes ++ [ {| path := path1; distance := dist1;
                        line_changes := changes1; rtype := shortest |} ]
    else routes in
  r2 ← find_route_least_changes g start end_;
  let '(path2, dist2, changes2) := r2 in
  let routes :=
    if bool_decide (path2 ≠ [])
    then if bool_decide (path2 ≠ path1)
         then routes ++ [ {| path := path2; distance := dist2;
                             line_changes := changes2; rtype := least_changes_route |} ]
         else routes
    else routes in
  Returns routes.


(** *** [calculate_fare] *)

Record fare : Type := {
  token_fare : Z;
  smart_card_fare : Z;
  savings : Z;
  recommended_fare : Z
}.

Open Scope Z_scope.

Definition calculate_fare (distance : float) (use_smart_card : bool) : fare :=
  let token_fare : Z :=
    if float_leb distance (Finite 2) then 10
    else if float_leb distance (Finite 5) then 20
    else if float_leb distance (Finite 12) then 30
    else if float_leb distance (Finite 21) then 40
    else if float_leb distance (Finite 32) then 50
    else 60 in
  let smart_card_fare : Z := int (inject_Z token_fare * 0.9)%Q in
  let savings : Z := token_fare - smart_card_fare in
  {| token_fare := token_fare;
     smart_card_fare := smart_card_fare;
     savings := savings;
     recommended_fare := if use_smart_card then smart_card_fare else token_fare |}.

Close Scope Z_scope.

(** *** The station lists *)

Definition POPULAR_STATIONS : list string :=
  [ "Rajiv Chowk"; "New Delhi"; "Kashmere Gate"; "Central Secretariat";
    "Hauz Khas"; "Huda City Centre"; "AIIMS"; "INA"; "Dwarka Sector 21";
    "Noida City Centre"; "Botanical Garden"; "Mandi House"; "Lajpat Nagar" ].

(** [sorted(list(self.stations))] *)
Definition get_all_stations (g : MetroGraph) : list string :=
  sorted String.ltb (elements (stations g)).

(** [[s for s in self.POPULAR_STATIONS if s in self.stations]] *)
Definition get_popular_stations (g : MetroGraph) : list string :=
  List.filter (λ s : string, bool_decide (s ∈ stations g)) POPULAR_STATIONS.

(** The sort key [(not s.lower().startswith(query_lower), s)]. *)
Definition search_key (query_lower s : string) : bool * string :=
  (negb (startswith (lower s) query_lower), s).

(** [search_stations], with [order] the order in which the set
    [self.stations] yields its members. *)
Definition search_stations_in (order : list string) (query : string) : list string :=
  if String.eqb query "" || (String.length query <? 2)%nat then []
  else
    let query_lower := lower query in
    let matches :=
      List.filter (λ s : string, str_contains query_lower (lower s)) order in
    let matches :=
      sorted (λ a b : string,
                lt_bool_str (search_key query_lower a) (search_key query_lower b))
             matches in
    take 10 matches.

Definition search_stations (g : MetroGraph) (query : string) : list string :=
  search_stations_in (elements (stations g)) query.

(** [sorted([s for s, lines in self.station_lines.items() if len(lines) > 1])] *)
Definition get_interchange_stations (g : MetroGraph) : list string :=
  sorted String.ltb
    (List.map fst
       (List.filter (λ kv : string * list string, (1 <? length kv.2)%nat)
          (map_to_list (station_lines g)))).

(** *** [get_route_summary] *)

Record route_summary : Type := {
  rs_start : string;
  rs_end : string;
  stations_count : nat;
  distance_km : float;
  estimated_time_min : Z;
  line_changes_count : nat;
  rs_fare : fare
}.

(** The dictionary with the single key [error], or the summary. *)
Inductive summary_result : Type :=
| SummaryError (message : string)
| Summary (s : route_summary).

Definition get_route_summary (path : list string) (distance : float)
    (line_changes : list line_change) : summary_result :=
  match path with
  | [] => SummaryError "No route available"
  | first :: _ =>
      let travel_time : Q :=
        (inject_Z (Z.of_nat (length path)) * 2.5
         + inject_Z (Z.of_nat (length line_changes)) * 3)%Q in
      let fare_info := calculate_fare distance false in
      Summary {| rs_start := first;
                 rs_end := List.last path first;
                 stations_count := length path;
                 distance_km := distance;
                 estimated_time_min := round_half_even travel_time;
                 line_changes_count := length line_changes;
                 rs_fare := fare_info |}
  end.

(** *** [DMRCApi._calculate_fare_locally] in [dmrc_api.py] *)

Definition calculate_fare_locally (distance : float) : Z :=
  if float_leb distance (Finite 2) then 10
  else if float_leb distance (Finite 5) then 20
  else if float_leb distance (Finite 12) then 30
  else if float_leb distance (Finite 21) then 40
  else if float_leb distance (Finite 32) then 50
  else 60.

(** ** Notions used by the statements *)

Open Scope nat_scope.

(** [passes n c]: [n] passes of a loop body, counted in unary. *)
Fixpoint passes {S R : Type} (body : S → outcome (ctl S R)) (n : nat)
    (c : outcome (ctl S R)) : outcome (ctl S R) :=
  match n with
  | O => c
  | Datatypes.S n' =>
      match c with
      | Returns (Continue s) => passes body n' (body s)
      | _ => c
      end
  end.

(** [a <= b] on floats, as a proposition. *)
Definition float_le (a b : float) : Prop :=
  match a, b with
  | Finite x, Finite y => (x <= y)%Q
  | NegInf, (Finite _ | PosInf | NegInf) => True
  | (Finite _ | PosInf), PosInf => True
  | _, _ => False
  end.

(** The raw name [raw] resolves to the station [s]. *)
Definition resolves (g : MetroGraph) (raw s : string) : Prop :=
  get_station_mapping g !! normalize_station_name raw = Some s.

(** [b] is a key of [graph[a]]. *)
Definition adjacent (g : MetroGraph) (a b : string) : Prop :=
  ∃ nb w, graph g !! a = Some nb ∧ (b, w) ∈ nb.

(** Every two consecutive stations of [p] are adjacent. *)
Fixpoint continuous (g : MetroGraph) (p : list string) : Prop :=
  match p with
  | a :: q => match q with b :: _ => adjacent g a b | [] => True end ∧ continuous g q
  | [] => True
  end.

(** [p] leads from [a] to [b] along edges of the network. *)
Definition walk (g : MetroGraph) (a b : string) (p : list string) : Prop :=
  head p = Some a ∧ last p = Some b ∧ continuous g p.

Definition raises {A : Type} (o : outcome A) : Prop := ∃ e, o = Raises e.

(** [graph[a][b]], when both keys are present. *)
Definition weight (gr : gmap string (list (string * Q))) (a b : string) : option Q :=
  gr !! a ≫= dict_get b.

(** The table entry [e] joins [a] and [b], in either orientation. *)
Definition joins (e : edge) (a b : string) : bool :=
  let '(s1, s2, _) := e in
  String.eqb s1 a && String.eqb s2 b || String.eqb s1 b && String.eqb s2 a.

(** The distance of the last entry of the table that joins [a] and [b]. *)
Fixpoint last_distance (table : list edge) (a b : string) : option Q :=
  match table with
  | [] => None
  | e :: table' =>
      match last_distance table' a b with
      | Some d => Some d
      | None => if joins e a b then Some e.2 else None
      end
  end.

(** The entries of all line tables, as [all_lines]. *)
Definition all_lines (tables : list (string * list edge)) : list edge :=
  flat_map snd tables.

(** Whether the empty string is a station name, and whether some station
    normalises to the empty string. *)
Definition names_empty_station (g : MetroGraph) : bool :=
  bool_decide ("" ∈ stations g).

Definition resolves_empty_name (g : MetroGraph) : bool :=
  bool_decide (is_Some (get_station_mapping g !! "")).

(** Some walk of the network leads from [a] to [b]. *)
Definition connected (g : MetroGraph) (a b : string) : Prop := ∃ p, walk g a b p.

(** Following the predecessor links from [cur] stays inside [vis] and ends
    after at most [n] links. *)
Inductive chain (prev : gmap string (option string)) (vis : gset string)
  : nat → option string → Prop :=
| chain_none n : chain prev vis n None
| chain_stop n c : c ∈ vis → c = "" ∨ prev !! c = None → chain prev vis n (Some c)
| chain_step n c p :
    c ∈ vis → c ≠ "" → prev !! c = Some p → chain prev vis n p →
    chain prev vis (S n) (Some c).

(** What the shortest-path loop keeps true on any network. *)
Record dijkstra_safe (g : MetroGraph) (start : string) (st : dijkstra) : Prop := {
  safe_values : ∀ v x, distances st !! v = Some x → x = PosInf ∨ ∃ d, x = Finite d;
  safe_reach : ∀ v d, distances st !! v = Some (Finite d) → connected g start v;
  safe_pq : ∀ d v, (d, v) ∈ pq st → ∃ d', distances st !! v = Some (Finite d');
  safe_visited : ∀ v, v ∈ visited st → ∃ d', distances st !! v = Some (Finite d');
  safe_dom : dom (distances st) = {[start]} ∪ stations g;
  safe_prev : ∀ v u, previous st !! v = Some (Some u) → adjacent g u v ∧ u ∈ visited st;
  safe_chain : ∀ v, v ∈ visited st →
               chain (previous st) (visited st) (size (visited st)) (Some v);
  safe_prev_dom : ∀ v, v ∈ stations g → is_Some (previous st !! v)
}.

(** The work left to the shortest-path loop: the queued tuples, and one more
    than its degree for every key of the adjacency mapping not yet visited. *)
Definition unvisited_weight (g : MetroGraph) (vis : gset string) : nat :=
  sum_list_with (λ kv : string * list (string * Q),
                   if bool_decide (kv.1 ∈ vis) then 0 else S (length kv.2))
    (map_to_list (graph g)).

Definition dijkstra_measure (g : MetroGraph) (st : dijkstra) : nat :=
  length (pq st) + unvisited_weight g (visited st).

(** The tuple pushed for the neighbour [item] when the entry [e] is expanded. *)
Definition advance (g : MetroGraph) (e : entry) (item : string * Q) : entry :=
  let '(changes, dist, current, path, current_lines) := e in
  let '(neighbor, edge_dist) := item in
  let neighbor_lines := lines_at g neighbor in
  let common_lines := current_lines ∩ neighbor_lines in
  let '(new_changes, new_lines) :=
    if negb (is_empty common_lines) then (changes, common_lines)
    else (S changes, neighbor_lines) in
  (new_changes, fadd dist edge_dist, neighbor, path ++ [neighbor], new_lines).

Definition entry_station (e : entry) : string :=
  let '(_, _, current, _, _) := e in current.

Definition entry_path (e : entry) : list string :=
  let '(_, _, _, path, _) := e in path.

(** The path of a queued entry is a simple walk from the source to the
    entry's station. *)
Definition entry_ok (g : MetroGraph) (start : string) (e : entry) : Prop :=
  walk g start (entry_station e) (entry_path e) ∧ NoDup (entry_path e).

(** The path of a queued entry is simple and stays among the nodes. *)
Definition entry_bounded (g : MetroGraph) (e : entry) : Prop :=
  NoDup (entry_path e) ∧ ∀ x, x ∈ entry_path e → x ∈ nodes g.

(** The work left to the least-changes loop: a queued path that can still
    grow by [k] stations weighs [(max_degree + 2) ^ k]. *)
Definition least_changes_measure (g : MetroGraph) (queue : list entry) : nat :=
  sum_list_with
    (λ e, S (S (max_degree g)) ^ (size (nodes g) - length (entry_path e))) queue.

(** [X] contains every neighbour of each of its members. *)
Definition closed_under (g : MetroGraph) (X : gset string) : bool :=
  forallb (λ kv : string * list (string * Q),
             implb (bool_decide (kv.1 ∈ X))
                   (forallb (λ item : string * Q, bool_decide (item.1 ∈ X)) kv.2))
    (map_to_list (graph g)).

(** A network of two lines that do not meet. *)
Definition two_islands : MetroGraph :=
  initialize_metro_network
    [ ("Red", [("A", "B", 1.0%Q)]); ("Blue", [("C", "D", 2.0%Q)]) ].

(** [graph[a]] has the item [(b, w)]. *)
Definition edge_of (g : MetroGraph) (a b : string) (w : Q) : Prop :=
  ∃ nb, graph g !! a = Some nb ∧ (b, w) ∈ nb.

(** Some walk from [a] to [b] has total weight [w] (up to equality of
    rationals). *)
Inductive weighted_walk (g : MetroGraph) (a : string) : string → Q → Prop :=
| ww_refl w : (w == 0)%Q → weighted_walk g a a w
| ww_step b c w w' w'' :
    weighted_walk g a b w → edge_of g b c w' → (w'' == w + w')%Q →
    weighted_walk g a c w''.

(** What the shortest-path search relies on: no negative weight, every edge
    stored in both directions, and the keys of the adjacency mapping are the
    stations. *)
Record well_formed (g : MetroGraph) : Prop := {
  wf_nonneg : ∀ a b w, edge_of g a b w → (0 <= w)%Q;
  wf_sym : ∀ a b w, edge_of g a b w → edge_of g b a w;
  wf_stations : dom (graph g) = stations g
}.



#[global] Instance Q_eq_dec : EqDecision Q.
Proof. solve_decision. Defined.



(** *** The cost of a path, as the least-changes search counts it *)

Definition entry_changes (e : entry) : nat :=
  let '(changes, _, _, _, _) := e in changes.

Definition entry_dist (e : entry) : Q :=
  let '(_, dist, _, _, _) := e in dist.

Definition entry_lines (e : entry) : gset string :=
  let '(_, _, _, _, current_lines) := e in current_lines.

(** Riding on to [nb] with the lines [L] active: the new change count and
    the new active lines. *)
Definition ride (g : MetroGraph) (c : nat) (L : gset string) (nb : string)
  : nat * gset string :=
  if negb (is_empty (L ∩ lines_at g nb)) then (c, L ∩ lines_at g nb)
  else (S c, lines_at g nb).

(** [graph[a][b]], or 0 when there is no such edge. *)
Definition hop_weight (g : MetroGraph) (a b : string) : Q :=
  default 0%Q (weight (graph g) a b).

Definition cost_step (g : MetroGraph) (st : nat * Q * string * gset string)
    (nb : string) : nat * Q * string * gset string :=
  let '(c, d, cur, L) := st in
  let '(c', L') := ride g c L nb in
  (c', fadd d (hop_weight g cur nb), nb, L').

(** Change count, distance, last station and active lines after riding
    along [p]. *)
Definition path_cost (g : MetroGraph) (p : list string)
  : nat * Q * string * gset string :=
  match p with
  | [] => (0, 0%Q, "", ∅)
  | a :: rest => foldl (cost_step g) (0, 0%Q, a, lines_at g a) rest
  end.

(** The sum of the edge weights along [p]. *)
Fixpoint total_distance (g : MetroGraph) (p : list string) : Q :=
  match p with
  | a :: q =>
      match q with
      | b :: _ => (hop_weight g a b + total_distance g q)%Q
      | [] => 0%Q
      end
  | [] => 0%Q
  end.



(** *** What the least-changes loop keeps true *)








(** The entry records the cost of its own path. *)
Definition entry_consistent (g : MetroGraph) (e : entry) : Prop :=
  path_cost g (entry_path e)
  = (entry_changes e, entry_dist e, entry_station e, entry_lines e).

(** Every inner dictionary of the adjacency mapping has distinct keys. *)
Definition keys_distinct (g : MetroGraph) : Prop :=
  ∀ k nb, graph g !! k = Some nb → NoDup nb.*1.




(** The line tables carry distinct names. *)
Definition distinct_names (tables : list (string * list edge)) : bool :=
  bool_decide (NoDup tables.*1).

(** [s] is an end of some entry of [table]. *)
Definition on_table (table : list edge) (s : string) : Prop :=
  ∃ a b d, (a, b, d) ∈ table ∧ (s = a ∨ s = b).

(** [strict_order ltb]: [ltb] decides a strict total order. *)
Record strict_order {A : Type} (ltb : A → A → bool) : Prop := {
  so_irrefl : ∀ a, ltb a a = false;
  so_trans : ∀ a b c, ltb a b = true → ltb b c = true → ltb a c = true;
  so_total : ∀ a b, ltb a b = false → ltb b a = false → a = b
}.

(** [ascending ltb l]: each element is below all later ones. *)
Fixpoint ascending {A : Type} (ltb : A → A → bool) (l : list A) : Prop :=
  match l with
  | [] => True
  | x :: l' => (∀ y, y ∈ l' → ltb x y = true) ∧ ascending ltb l'
  end.

(** No two stations share a normalised name. *)
Definition distinct_normalized (g : MetroGraph) : bool :=
  bool_decide (NoDup (normalize_station_name <$> elements (stations g))).


(** * Properties *)

(** ** Loops *)

Section LoopFacts.
Context {S R : Type} (body : S → outcome (ctl S R)).

Lemma passes_stop n (c : outcome (ctl S R)) :
  (∀ s, c ≠ Returns (Continue s)) → passes body n c = c.
Proof.
  intros Hc. destruct n as [|n]; [done|]. simpl.
  destruct c as [[s|r]| |]; try done. by destruct (Hc s).
Qed.

Lemma passes_add n m c :
  passes body (n + m) c = passes body m (passes body n c).
Proof.
  revert c. induction n as [|n IH]; intros c; [done|]. simpl.
  destruct c as [[s|r]| |]; try (symmetry; apply passes_stop; congruence).
  apply IH.
Qed.

Lemma iterate_passes fuel c :
  iterate body fuel c = passes body (Pos.to_nat fuel) c.
Proof.
  revert c. induction fuel as [p IH|p IH|]; intros c.
  - rewrite Pos2Nat.inj_xI. simpl.
    destruct c as [[s|r]| |]; try done.
    rewrite !IH. rewrite <- passes_add. f_equal. lia.
  - rewrite Pos2Nat.inj_xO. simpl.
    destruct c as [[s|r]| |];
      try (symmetry; apply passes_stop; congruence).
    rewrite !IH. rewrite <- passes_add. f_equal. lia.
  - simpl. by destruct c as [[s|r]| |].
Qed.

(** A loop that has left after [n] passes has left after any larger
    number of passes, with the same result. *)
Lemma passes_break_mono n m s r :
  passes body n (Returns (Continue s)) = Returns (Break r) →
  n ≤ m →
  passes body m (Returns (Continue s)) = Returns (Break r).
Proof.
  intros Hn Hle. replace m with (n + (m - n)) by lia.
  rewrite passes_add, Hn. by apply passes_stop.
Qed.

Lemma passes_raise_mono n m s e :
  passes body n (Returns (Continue s)) = Raises e →
  n ≤ m →
  passes body m (Returns (Continue s)) = Raises e.
Proof.
  intros Hn Hle. replace m with (n + (m - n)) by lia.
  rewrite passes_add, Hn. by apply passes_stop.
Qed.

Lemma while_break fuel n s r :
  passes body n (Returns (Continue s)) = Returns (Break r) →
  n ≤ Pos.to_nat fuel →
  while body fuel s = Returns r.
Proof.
  intros Hn Hle. unfold while. rewrite iterate_passes.
  by rewrite (passes_break_mono _ _ _ _ Hn Hle).
Qed.

Lemma while_raise fuel n s e :
  passes body n (Returns (Continue s)) = Raises e →
  n ≤ Pos.to_nat fuel →
  while body fuel s = Raises e.
Proof.
  intros Hn Hle. unfold while. rewrite iterate_passes.
  by rewrite (passes_raise_mono _ _ _ _ Hn Hle).
Qed.
End LoopFacts.

(** ** Fares *)

Lemma float_leb_le a b : float_leb a b = true ↔ float_le a b.
Proof.
  destruct a as [x| | |], b as [y| | |]; simpl; try tauto; try (split; [done|tauto]);
    try (split; [discriminate|tauto]).
  apply Qle_bool_iff.
Qed.

Lemma float_leb_nle a b : float_leb a b = false ↔ ¬ float_le a b.
Proof.
  rewrite <- float_leb_le. destruct (float_leb a b); split; congruence.
Qed.

(** C4: for every distance, finite or not, the token fare follows the slab
    table with inclusive upper bounds 2, 5, 12, 21 and 32 (10, 20, 30, 40, 50,
    and 60 for everything else), the smart-card fare is the floor of nine
    tenths of the token fare, the savings are their difference, and the
    recommended fare is chosen by the flag. *)
Theorem calculate_fare_slabs (d : float) (use_smart_card : bool) :
  let f := calculate_fare d use_smart_card in
  (float_le d (Finite 2) ∧ token_fare f = 10%Z
   ∨ ¬ float_le d (Finite 2) ∧ float_le d (Finite 5) ∧ token_fare f = 20%Z
   ∨ ¬ float_le d (Finite 5) ∧ float_le d (Finite 12) ∧ token_fare f = 30%Z
   ∨ ¬ float_le d (Finite 12) ∧ float_le d (Finite 21) ∧ token_fare f = 40%Z
   ∨ ¬ float_le d (Finite 21) ∧ float_le d (Finite 32) ∧ token_fare f = 50%Z
   ∨ ¬ float_le d (Finite 32) ∧ token_fare f = 60%Z)
  ∧ smart_card_fare f = Qfloor (inject_Z (token_fare f) * (9 # 10))
  ∧ savings f = (token_fare f - smart_card_fare f)%Z
  ∧ recommended_fare f = (if use_smart_card then smart_card_fare f else token_fare f).
Proof.
  unfold calculate_fare.
  destruct (float_leb d (Finite 2)) eqn:H2;
    [apply float_leb_le in H2 | apply float_leb_nle in H2].
  { simpl. repeat split; auto. }
  destruct (float_leb d (Finite 5)) eqn:H5;
    [apply float_leb_le in H5 | apply float_leb_nle in H5].
  { simpl. repeat split; auto. }
  destruct (float_leb d (Finite 12)) eqn:H12;
    [apply float_leb_le in H12 | apply float_leb_nle in H12].
  { simpl. repeat split; auto 6. }
  destruct (float_leb d (Finite 21)) eqn:H21;
    [apply float_leb_le in H21 | apply float_leb_nle in H21].
  { simpl. repeat split; auto 7. }
  destruct (float_leb d (Finite 32)) eqn:H32;
    [apply float_leb_le in H32 | apply float_leb_nle in H32].
  { simpl. repeat split; auto 8. }
  simpl. repeat split; auto 8.
Qed.

(** ** The network built by [_initialize_metro_network] *)

Lemma elem_of_set_add (x y : string) (X : gset string) :
  y ∈ set_add x X ↔ y = x ∨ y ∈ X.
Proof.
  unfold set_add. destruct X as [m].
  unfold elem_of, gset_elem_of, mapset_elem_of. simpl.
  destruct (decide (x = y)) as [->|Hne].
  - rewrite lookup_insert_eq. naive_solver.
  - rewrite lookup_insert_ne by done. naive_solver.
Qed.

Lemma set_add_union (x : string) (X : gset string) : set_add x X = {[x]} ∪ X.
Proof. apply set_eq. intros y. rewrite elem_of_set_add. set_solver. Qed.

Section DictFacts.
Context {V : Type}.
Implicit Types d : list (string * V).

Lemma dict_get_set k k' v d :
  dict_get k (dict_set k' v d) = if String.eqb k k' then Some v else dict_get k d.
Proof.
  induction d as [|[k0 v0] d IH]; simpl.
  - by destruct (String.eqb k k').
  - destruct (String.eqb k' k0) eqn:E0; simpl.
    + apply String.eqb_eq in E0 as ->.
      by destruct (String.eqb k k0).
    + destruct (String.eqb k k0) eqn:E1; [|done].
      apply String.eqb_eq in E1 as ->.
      destruct (String.eqb k0 k') eqn:E2; [|done].
      apply String.eqb_eq in E2 as ->. by rewrite String.eqb_refl in E0.
Qed.

Lemma dict_get_Some_elem k v d : dict_get k d = Some v → (k, v) ∈ d.
Proof.
  induction d as [|[k0 v0] d IH]; simpl; [done|].
  destruct (String.eqb k k0) eqn:E.
  - apply String.eqb_eq in E as ->. intros [= ->]. left.
  - intros H. right. auto.
Qed.

Lemma elem_dict_get k v d : (k, v) ∈ d → is_Some (dict_get k d).
Proof.
  induction d as [|[k0 v0] d IH]; simpl.
  - by intros ?%elem_of_nil.
  - intros [[= -> ->]|H]%elem_of_cons.
    + by rewrite String.eqb_refl.
    + destruct (String.eqb k k0); eauto.
Qed.
End DictFacts.

Lemma weight_ensure gr s a b :
  weight (match gr !! s with None => <[s := []]> gr | Some _ => gr end) a b
  = weight gr a b.
Proof.
  unfold weight. destruct (gr !! s) eqn:Hs; [done|].
  destruct (decide (a = s)) as [->|Hne].
  - by rewrite lookup_insert_eq, Hs.
  - by rewrite lookup_insert_ne.
Qed.

Lemma weight_alter gr s k d a b :
  is_Some (gr !! s) →
  weight (alter (dict_set k d) s gr) a b
  = if String.eqb a s && String.eqb b k then Some d else weight gr a b.
Proof.
  intros [nb Hs]. unfold weight.
  destruct (String.eqb a s) eqn:Ea; simpl.
  - apply String.eqb_eq in Ea as ->.
    rewrite lookup_alter_eq, Hs. simpl. apply dict_get_set.
  - apply String.eqb_neq in Ea. by rewrite lookup_alter_ne.
Qed.

Lemma add_connection_weight sts gr s1 s2 d a b :
  weight (add_connection (sts, gr) (s1, s2, d)).2 a b
  = if joins (s1, s2, d) a b then Some d else weight gr a b.
Proof.
  unfold add_connection. cbn [snd joins].
  set (g1 := match gr !! s1 with None => _ | Some _ => gr end).
  set (g2 := match g1 !! s2 with None => _ | Some _ => g1 end).
  assert (H1 : is_Some (g1 !! s1)).
  { subst g1. destruct (gr !! s1) eqn:E; [by rewrite E|by rewrite lookup_insert_eq]. }
  assert (H2 : is_Some (g2 !! s2)).
  { subst g2. destruct (g1 !! s2) eqn:E; [by rewrite E|by rewrite lookup_insert_eq]. }
  assert (H12 : is_Some (g2 !! s1)).
  { subst g2. destruct (g1 !! s2) eqn:E; [done|].
    destruct (decide (s2 = s1)) as [->|?];
      [by rewrite lookup_insert_eq | by rewrite lookup_insert_ne]. }
  rewrite weight_alter.
  2:{ destruct (decide (s2 = s1)) as [->|?].
      - rewrite lookup_alter_eq. destruct H12 as [? ->]. by eexists.
      - by rewrite lookup_alter_ne. }
  rewrite weight_alter by done.
  subst g2. rewrite weight_ensure. subst g1. rewrite weight_ensure.
  rewrite (String.eqb_sym a s1), (String.eqb_sym b s2),
          (String.eqb_sym a s2), (String.eqb_sym b s1).
  destruct (String.eqb s1 a), (String.eqb s2 b), (String.eqb s2 a), (String.eqb s1 b);
    done.
Qed.

Lemma add_connection_stations sts gr s1 s2 d x :
  x ∈ (add_connection (sts, gr) (s1, s2, d)).1 ↔ x = s1 ∨ x = s2 ∨ x ∈ sts.
Proof. cbn. rewrite !elem_of_set_add. tauto. Qed.

Lemma add_connection_dom sts gr s1 s2 d x :
  x ∈ dom (add_connection (sts, gr) (s1, s2, d)).2 ↔ x = s1 ∨ x = s2 ∨ x ∈ dom gr.
Proof.
  cbn. rewrite !dom_alter_L.
  destruct (gr !! s1) eqn:E1.
  - destruct (gr !! s2) eqn:E2.
    + apply (elem_of_dom_2 gr) in E1, E2. set_solver.
    + apply (elem_of_dom_2 gr) in E1. rewrite dom_insert_L. set_solver.
  - destruct (decide (s1 = s2)) as [->|Hne].
    + rewrite lookup_insert_eq. rewrite dom_insert_L. set_solver.
    + rewrite lookup_insert_ne by done.
      destruct (gr !! s2) eqn:E2.
      * apply (elem_of_dom_2 gr) in E2. rewrite dom_insert_L. set_solver.
      * rewrite !dom_insert_L. set_solver.
Qed.

Lemma last_distance_app t1 t2 a b :
  last_distance (t1 ++ t2) a b
  = match last_distance t2 a b with Some d => Some d | None => last_distance t1 a b end.
Proof.
  induction t1 as [|e t1 IH]; simpl.
  - by destruct (last_distance t2 a b).
  - rewrite IH. by destruct (last_distance t2 a b).
Qed.

Lemma build_weight table st a b :
  weight (foldl add_connection st table).2 a b
  = match last_distance table a b with
    | Some d => Some d
    | None => weight st.2 a b
    end.
Proof.
  revert st. induction table as [|[[s1 s2] d] table IH]; intros [sts gr]; [done|].
  cbn [foldl last_distance].
  destruct (add_connection (sts, gr) (s1, s2, d)) as [sts' gr'] eqn:E.
  rewrite IH. destruct (last_distance table a b); [done|].
  cbn [snd]. replace gr' with (add_connection (sts, gr) (s1, s2, d)).2 by by rewrite E.
  rewrite add_connection_weight. by destruct (joins _ _ _).
Qed.

Lemma build_stations table st x :
  x ∈ (foldl add_connection st table).1
  ↔ x ∈ st.1 ∨ ∃ s1 s2 d, (s1, s2, d) ∈ table ∧ (x = s1 ∨ x = s2).
Proof.
  revert st. induction table as [|[[s1 s2] d] table IH]; intros [sts gr].
  - cbn. split; [auto|]. intros [?|(?&?&?&[]%elem_of_nil&_)]; done.
  - cbn [foldl].
    destruct (add_connection (sts, gr) (s1, s2, d)) as [sts' gr'] eqn:E.
    rewrite IH. cbn [fst].
    replace sts' with (add_connection (sts, gr) (s1, s2, d)).1 by by rewrite E.
    rewrite add_connection_stations. split.
    + intros [[->|[->|?]]|(a&b&w&Hin&Hx)]; eauto 8 using list_elem_of_here.
      right. exists a, b, w. split; [by right|done].
    + intros [?|(a&b&w&[[= -> -> ->]|Hin]%elem_of_cons&Hx)]; [tauto| |].
      * left. tauto.
      * right. eauto.
Qed.

Lemma build_dom table st x :
  x ∈ dom (foldl add_connection st table).2
  ↔ x ∈ dom st.2 ∨ ∃ s1 s2 d, (s1, s2, d) ∈ table ∧ (x = s1 ∨ x = s2).
Proof.
  revert st. induction table as [|[[s1 s2] d] table IH]; intros [sts gr].
  - cbn. split; [auto|]. intros [?|(?&?&?&[]%elem_of_nil&_)]; done.
  - cbn [foldl].
    destruct (add_connection (sts, gr) (s1, s2, d)) as [sts' gr'] eqn:E.
    rewrite IH. cbn [snd].
    replace gr' with (add_connection (sts, gr) (s1, s2, d)).2 by by rewrite E.
    rewrite add_connection_dom. split.
    + intros [[->|[->|?]]|(a&b&w&Hin&Hx)]; eauto 8 using list_elem_of_here.
      right. exists a, b, w. split; [by right|done].
    + intros [?|(a&b&w&[[= -> -> ->]|Hin]%elem_of_cons&Hx)]; [tauto| |].
      * left. tauto.
      * right. eauto.
Qed.

Lemma initialize_graph tables :
  graph (initialize_metro_network tables)
  = (foldl add_connection (∅, ∅) (all_lines tables)).2.
Proof.
  unfold initialize_metro_network, all_lines.
  by destruct (foldl add_connection (∅, ∅) (flat_map snd tables)).
Qed.

Lemma initialize_stations tables :
  stations (initialize_metro_network tables)
  = (foldl add_connection (∅, ∅) (all_lines tables)).1.
Proof.
  unfold initialize_metro_network, all_lines.
  by destruct (foldl add_connection (∅, ∅) (flat_map snd tables)).
Qed.

Lemma joins_sym e a b : joins e a b = joins e b a.
Proof. destruct e as [[s1 s2] d]. simpl. apply orb_comm. Qed.

Lemma last_distance_sym table a b : last_distance table a b = last_distance table b a.
Proof.
  induction table as [|e table IH]; simpl; [done|].
  by rewrite IH, joins_sym.
Qed.

Lemma last_distance_joined table s1 s2 d :
  (s1, s2, d) ∈ table → is_Some (last_distance table s1 s2).
Proof.
  induction table as [|e table IH]; simpl.
  - by intros ?%elem_of_nil.
  - intros [<-|Hin]%elem_of_cons.
    + destruct (last_distance table s1 s2); [eauto|].
      simpl. rewrite !String.eqb_refl. simpl. eauto.
    + destruct (IH Hin) as [d' ->]. eauto.
Qed.

(** The adjacency mapping holds, for every pair of names, the distance of the
    last table entry that joins them. *)
Lemma initialize_weight tables a b :
  weight (graph (initialize_metro_network tables)) a b
  = last_distance (all_lines tables) a b.
Proof.
  rewrite initialize_graph, build_weight. cbn [snd].
  destruct (last_distance _ a b); [done|].
  unfold weight. by rewrite lookup_empty.
Qed.

Lemma initialize_dom_stations tables :
  dom (graph (initialize_metro_network tables))
  = stations (initialize_metro_network tables).
Proof.
  apply set_eq. intros x.
  rewrite initialize_graph, initialize_stations, build_dom, build_stations.
  cbn. set_solver.
Qed.

Lemma last_distance_Some table a b d :
  last_distance table a b = Some d →
  ∃ s1 s2, (s1, s2, d) ∈ table ∧ joins (s1, s2, d) a b = true.
Proof.
  induction table as [|[[s1 s2] w] table IH]; simpl; [done|].
  destruct (last_distance table a b) as [d'|] eqn:E.
  - intros [= ->]. destruct (IH eq_refl) as (x&y&Hin&Hj).
    exists x, y. split; [by right|done].
  - destruct (_ || _) eqn:Hj; [|done]. intros [= ->].
    exists s1, s2. split; [left|done].
Qed.

(** C6, as stated, fails on the network of the program: the Blue Branch entry
    for Karkardooma and Anand Vihar ISBT carries 1.1, the Pink entry for the
    same two stations carries 1.2, and the adjacency mapping keeps the later
    one. *)
Lemma overwritten_connection :
  ¬ (∀ A B d, (A, B, d) ∈ all_lines line_tables →
       ∃ d', weight (graph metro) A B = Some d'
             ∧ weight (graph metro) B A = Some d'
             ∧ (d' == d)%Q).
Proof.
  intros H.
  destruct (H "Karkardooma" "Anand Vihar ISBT" 1.1%Q) as (d' & Hab & _ & Hd).
  - apply list_elem_of_lookup. by exists 85.
  - vm_compute in Hab. injection Hab as <-. vm_compute in Hd. discriminate.
Qed.

(** C6, amended: for every entry (A, B, d) of the static table, the adjacency
    mapping stores one and the same weight from A to B and from B to A, namely
    the distance of the last table entry that joins A and B (which is d when
    every entry joining them carries d), and A and B are both in the station
    set and keys of the adjacency mapping. *)
Theorem connection_stored_both_ways tables A B d :
  (A, B, d) ∈ all_lines tables →
  ∃ d', last_distance (all_lines tables) A B = Some d'
        ∧ weight (graph (initialize_metro_network tables)) A B = Some d'
        ∧ weight (graph (initialize_metro_network tables)) B A = Some d'
        ∧ ((∀ s1 s2 w, (s1, s2, w) ∈ all_lines tables →
              joins (s1, s2, w) A B = true → w = d) → d' = d)
        ∧ A ∈ stations (initialize_metro_network tables)
        ∧ B ∈ stations (initialize_metro_network tables)
        ∧ A ∈ dom (graph (initialize_metro_network tables))
        ∧ B ∈ dom (graph (initialize_metro_network tables)).
Proof.
  intros Hin.
  destruct (last_distance_joined _ _ _ _ Hin) as [d' Hd'].
  exists d'. split; [done|].
  rewrite !initialize_weight, (last_distance_sym _ B A), Hd'.
  split; [done|]. split; [done|]. split.
  { intros Hall. destruct (last_distance_Some _ _ _ _ Hd') as (s1&s2&Hs&Hj).
    eauto. }
  rewrite initialize_dom_stations, initialize_stations.
  rewrite !build_stations. naive_solver.
Qed.

Lemma connection_stored_both_ways_witness :
  ∃ d', last_distance (all_lines line_tables) "Rajiv Chowk" "Patel Chowk" = Some d'
        ∧ weight (graph (initialize_metro_network line_tables)) "Rajiv Chowk" "Patel Chowk"
          = Some d'
        ∧ weight (graph (initialize_metro_network line_tables)) "Patel Chowk" "Rajiv Chowk"
          = Some d'
        ∧ ((∀ s1 s2 w, (s1, s2, w) ∈ all_lines line_tables →
              joins (s1, s2, w) "Rajiv Chowk" "Patel Chowk" = true → w = 1.3%Q)
           → d' = 1.3%Q)
        ∧ "Rajiv Chowk" ∈ stations (initialize_metro_network line_tables)
        ∧ "Patel Chowk" ∈ stations (initialize_metro_network line_tables)
        ∧ "Rajiv Chowk" ∈ dom (graph (initialize_metro_network line_tables))
        ∧ "Patel Chowk" ∈ dom (graph (initialize_metro_network line_tables)).
Proof.
  apply (connection_stored_both_ways line_tables "Rajiv Chowk" "Patel Chowk" 1.3%Q).
  apply list_elem_of_lookup. exists 15. reflexivity.
Defined.

(** ** Name resolution *)

Lemma station_mapping_fold (l : list string) (m : gmap string string) k s :
  foldl (λ m s, <[normalize_station_name s := s]> m) m l !! k = Some s →
  (s ∈ l ∧ normalize_station_name s = k) ∨ m !! k = Some s.
Proof.
  revert m. induction l as [|x l IH]; intros m; cbn [foldl]; [auto|].
  intros [[Hin Hk]|Hm]%IH.
  - left. split; [by right|done].
  - destruct (decide (normalize_station_name x = k)) as [<-|Hne].
    + rewrite lookup_insert_eq in Hm. injection Hm as ->. left. split; [left|done].
    + rewrite lookup_insert_ne in Hm by done. by right.
Qed.

(** A raw name only ever resolves to a station of the network whose
    normalised name it shares. *)
Lemma resolves_station g raw s :
  resolves g raw s →
  s ∈ stations g ∧ normalize_station_name s = normalize_station_name raw.
Proof.
  unfold resolves, get_station_mapping.
  intros [[Hin Hk]|Hm]%station_mapping_fold.
  - split; [|done]. by apply elem_of_elements.
  - by rewrite lookup_empty in Hm.
Qed.

Lemma metro_no_empty_station : names_empty_station metro = false.
Proof. by vm_compute. Qed.

Lemma metro_resolves_no_empty : resolves_empty_name metro = false.
Proof. by vm_compute. Qed.

Lemma resolves_nonempty g raw s :
  names_empty_station g = false → resolves_empty_name g = false →
  resolves g raw s → raw ≠ "" ∧ s ≠ "".
Proof.
  unfold names_empty_station, resolves_empty_name.
  intros Hn%bool_decide_eq_false Hr%bool_decide_eq_false H. split.
  - intros ->. apply Hr. exists s. exact H.
  - intros ->. by apply resolves_station in H as [H _].
Qed.

Lemma eqb_empty_false (s : string) : s ≠ "" → String.eqb s "" = false.
Proof. intros H. by apply String.eqb_neq. Qed.

(** ** Unknown stations *)

(** C1, as stated, fails: the searches return the empty result for an
    unknown name; nothing is raised. *)
Lemma unknown_station_nothing_raised :
  ¬ (∀ start end_,
       get_station_mapping metro !! normalize_station_name start = None
       ∨ get_station_mapping metro !! normalize_station_name end_ = None →
       raises (find_shortest_path metro start end_)
       ∧ raises (find_route_least_changes metro start end_)).
Proof.
  intros H. destruct (H "Fake Station" "Rajiv Chowk") as [[e He] _].
  - left. by vm_compute.
  - vm_compute in He. discriminate.
Qed.

(** C1, amended: when at least one of the two raw names does not resolve
    (after trimming and lower-casing) to a station of the network, both
    searches return the empty result [([], 0, [])] as a normal value. *)
Theorem unknown_station_no_route g start end_ :
  get_station_mapping g !! normalize_station_name start = None
  ∨ get_station_mapping g !! normalize_station_name end_ = None →
  find_shortest_path g start end_ = Returns no_route
  ∧ find_route_least_changes g start end_ = Returns no_route.
Proof.
  intros H. unfold find_shortest_path, find_route_least_changes,
    shortest_path_body, least_changes_body.
  destruct (String.eqb start "" || String.eqb end_ ""); [done|].
  destruct H as [-> | H].
  - done.
  - rewrite H. by destruct (get_station_mapping g !! normalize_station_name start).
Qed.

Lemma unknown_station_no_route_witness :
  find_shortest_path metro "Fake Station" "Rajiv Chowk" = Returns no_route
  ∧ find_route_least_changes metro "Fake Station" "Rajiv Chowk" = Returns no_route.
Proof.
  apply (unknown_station_no_route metro "Fake Station" "Rajiv Chowk").
  left. vm_compute. reflexivity.
Defined.

(** ** Self-routes *)

Lemma round2_zero : round2 (Finite 0) = Finite 0.
Proof. reflexivity. Qed.

Lemma shortest_path_self g raw_s raw_e A :
  raw_s ≠ "" → raw_e ≠ "" → A ≠ "" →
  resolves g raw_s A → resolves g raw_e A →
  A ∈ dom (graph g) →
  find_shortest_path g raw_s raw_e = Returns ([A], Finite 0, []).
Proof.
  intros Hs He HA Rs Re Hdom. unfold find_shortest_path, shortest_path_body.
  rewrite (eqb_empty_false _ Hs), (eqb_empty_false _ He). cbn [orb].
  unfold resolves in Rs, Re. rewrite Rs, Re.
  rewrite (bool_decide_eq_true_2 _ Hdom). cbn [negb orb try_except].
  assert (HA' : A ∈ stations g) by (by apply (resolves_station g raw_s)).
  rewrite (while_break (dijkstra_pass g A) _ 1 _ 
             {| distances := distances (dijkstra_init g A);
                previous := previous (dijkstra_init g A);
                pq := []; visited := set_add A ∅ |}).
  2:{ cbn. rewrite bool_decide_eq_false_2 by set_solver.
      by rewrite String.eqb_refl. }
  2:{ lia. }
  cbn. unfold getitem. rewrite lookup_insert_eq. cbn.
  rewrite (while_break (backtrack_pass _) _ 2 _ [A]).
  - done.
  - cbn. rewrite (eqb_empty_false _ HA). unfold getitem.
    rewrite lookup_gset_to_gmap, option_guard_True by done. reflexivity.
  - unfold backtrack_fuel. lia.
Qed.

Lemma least_changes_self g raw_s raw_e A :
  raw_s ≠ "" → raw_e ≠ "" →
  resolves g raw_s A → resolves g raw_e A →
  find_route_least_changes g raw_s raw_e = Returns ([A], Finite 0, []).
Proof.
  intros Hs He Rs Re. unfold find_route_least_changes, least_changes_body.
  rewrite (eqb_empty_false _ Hs), (eqb_empty_false _ He). cbn [orb].
  unfold resolves in Rs, Re. rewrite Rs, Re. cbn [try_except].
  rewrite (while_break (least_changes_pass g A) _ 1 _ ([A], Finite 0, [])).
  - done.
  - cbn. by rewrite String.eqb_refl.
  - lia.
Qed.

Lemma self_route_in g A raw_s raw_e :
  names_empty_station g = false → resolves_empty_name g = false →
  dom (graph g) = stations g →
  A ∈ stations g →
  resolves g raw_s A →
  resolves g raw_e A →
  find_shortest_path g raw_s raw_e = Returns ([A], Finite 0, [])
  ∧ find_route_least_changes g raw_s raw_e = Returns ([A], Finite 0, []).
Proof.
  intros Hn Hr Hdom HA Rs Re.
  destruct (resolves_nonempty _ _ _ Hn Hr Rs) as [Hs HAne].
  destruct (resolves_nonempty _ _ _ Hn Hr Re) as [He _].
  split.
  - apply shortest_path_self; try done. by rewrite Hdom.
  - by apply least_changes_self.
Qed.

Lemma metro_dom_stations : dom (graph metro) = stations metro.
Proof. exact (initialize_dom_stations line_tables). Qed.

(** C2: for every station A of the network, a query whose source and
    destination both resolve to A returns the path [A], distance 0 and no
    line change, from the shortest-path search and from the least-changes
    search (there by the goal test on the first pop). *)
Theorem self_route A raw_s raw_e :
  A ∈ stations metro →
  resolves metro raw_s A →
  resolves metro raw_e A →
  find_shortest_path metro raw_s raw_e = Returns ([A], Finite 0, [])
  ∧ find_route_least_changes metro raw_s raw_e = Returns ([A], Finite 0, []).
Proof.
  exact (self_route_in metro A raw_s raw_e metro_no_empty_station
           metro_resolves_no_empty metro_dom_stations).
Qed.

Lemma self_route_witness :
  find_shortest_path metro "Rajiv Chowk" "  rajiv chowk " = Returns (["Rajiv Chowk"], Finite 0, [])
  ∧ find_route_least_changes metro "Rajiv Chowk" "  rajiv chowk "
    = Returns (["Rajiv Chowk"], Finite 0, []).
Proof.
  refine (self_route "Rajiv Chowk" "Rajiv Chowk" "  rajiv chowk " _ _ _);
    vm_compute; reflexivity.
Defined.

(** ** Reasoning about loops *)

Section LoopInvariants.
Context {S R : Type} (body : S → outcome (ctl S R)).
Context (I : S → Prop).
Hypothesis step : ∀ s s', I s → body s = Returns (Continue s') → I s'.

(** Whatever ends the loop is produced by one pass from a state that
    satisfies the invariant. *)
Lemma passes_invariant n s c :
  I s → passes body n (Returns (Continue s)) = c →
  match c with
  | Returns (Continue s') => I s'
  | _ => ∃ s', I s' ∧ body s' = c
  end.
Proof.
  revert s. induction n as [|n IH]; intros s Hs; cbn [passes].
  - by intros <-.
  - destruct (body s) as [[s'|r]| |] eqn:E.
    + apply IH. by apply (step s).
    + rewrite passes_stop by congruence. intros <-. eauto.
    + rewrite passes_stop by congruence. intros <-. eauto.
    + rewrite passes_stop by congruence. intros <-. eauto.
Qed.

Lemma while_invariant fuel s r :
  I s → while body fuel s = Returns r →
  ∃ s', I s' ∧ body s' = Returns (Break r).
Proof.
  intros Hs. unfold while. rewrite iterate_passes.
  destruct (passes body _ _) as [[s'|r']| |] eqn:E; try done.
  intros [= ->]. by apply (passes_invariant _ _ _ Hs E).
Qed.

Context (μ : S → nat).
Hypothesis decrease : ∀ s s', I s → body s = Returns (Continue s') → μ s' < μ s.
Hypothesis no_diverge : ∀ s, I s → body s ≠ Diverges.

Lemma passes_terminate n s :
  I s → μ s < n →
  (∃ r, passes body n (Returns (Continue s)) = Returns (Break r))
  ∨ (∃ e, passes body n (Returns (Continue s)) = Raises e).
Proof.
  revert s. induction n as [|n IH]; intros s Hs Hμ; [lia|]. cbn [passes].
  destruct (body s) as [[s'|r]| |] eqn:E.
  - apply IH; [by apply (step s)|]. specialize (decrease s s' Hs E). lia.
  - left. exists r. by apply passes_stop.
  - right. exists e. by apply passes_stop.
  - by destruct (no_diverge s Hs).
Qed.

Lemma while_terminate fuel s :
  I s → μ s < Pos.to_nat fuel →
  (∃ r, while body fuel s = Returns r) ∨ (∃ e, while body fuel s = Raises e).
Proof.
  intros Hs Hμ. unfold while. rewrite iterate_passes.
  destruct (passes_terminate _ _ Hs Hμ) as [[r ->]|[e ->]]; eauto.
Qed.
End LoopInvariants.

Section ForIn.
Context {A S : Type} (body : S → A → outcome S).

Lemma for_in_invariant (I : S → Prop) l s s' :
  (∀ s x s', x ∈ l → I s → body s x = Returns s' → I s') →
  I s → for_in l body s = Returns s' → I s'.
Proof.
  revert s. induction l as [|x l IH]; intros s Hstep Hs; cbn [for_in].
  - by intros [= <-].
  - destruct (body s x) as [s1| |] eqn:E; try done. cbn.
    apply IH.
    + intros ? ? ? ?. apply Hstep. by right.
    + apply (Hstep s x); [left|done..].
Qed.

Lemma for_in_no_diverge l s :
  (∀ s x, body s x ≠ Diverges) → for_in l body s ≠ Diverges.
Proof.
  intros Hb. revert s. induction l as [|x l IH]; intros s; cbn [for_in]; [done|].
  destruct (body s x) as [s1| |] eqn:E; cbn; [apply IH|done|by destruct (Hb s x)].
Qed.
End ForIn.

(** ** [heappop] *)

Section HeapFacts.
Context {A : Type} (ltb : A → A → bool).

Lemma heappop_None h : heappop ltb h = None ↔ h = [].
Proof.
  destruct h as [|x h]; [done|]. cbn.
  destruct (heappop ltb h) as [[m r]|]; [|done].
  by destruct (ltb m x).
Qed.

Lemma heappop_Permutation h m r : heappop ltb h = Some (m, r) → h ≡ₚ m :: r.
Proof.
  revert m r. induction h as [|x h IH]; intros m r; [done|]. cbn.
  destruct (heappop ltb h) as [[m' r']|] eqn:E.
  - specialize (IH _ _ eq_refl). destruct (ltb m' x).
    + intros [= <- <-]. rewrite IH. apply Permutation_swap.
    + by intros [= <- <-].
  - apply heappop_None in E as ->. by intros [= <- <-].
Qed.

Lemma heappop_length h m r : heappop ltb h = Some (m, r) → length h = S (length r).
Proof. intros H%heappop_Permutation. by rewrite H. Qed.

End HeapFacts.

Arguments float_ltb : simpl never.
Arguments float_leb : simpl never.
Arguments float_eqb : simpl never.
Arguments fadd : simpl never.
Arguments round2 : simpl never.
Arguments set_add : simpl never.
Arguments heappop : simpl never.
Arguments while : simpl never.
Arguments backtrack_fuel : simpl never.
Arguments dijkstra_fuel : simpl never.
Arguments least_changes_fuel : simpl never.
Arguments identify_line_changes : simpl never.

(** ** Walks *)

Lemma continuous_snoc g p b c :
  continuous g p → last p = Some b → adjacent g b c → continuous g (p ++ [c]).
Proof.
  induction p as [|a p IH]; [done|]. cbn [continuous app].
  intros [Ha Hp] Hl Hbc. destruct p as [|a' p].
  - cbn in Hl. injection Hl as ->. by cbn.
  - split; [done|]. apply IH; [done| |done]. by rewrite last_cons_cons in Hl.
Qed.

Lemma continuous_cons g a p :
  continuous g p →
  match head p with Some b => adjacent g a b | None => True end →
  continuous g (a :: p).
Proof. destruct p; by cbn. Qed.

Lemma connected_refl g a : connected g a a.
Proof. exists [a]. by repeat split. Qed.

Lemma connected_step g a b c : connected g a b → adjacent g b c → connected g a c.
Proof.
  intros (p & Hh & Hl & Hc) Hbc. exists (p ++ [c]). repeat split.
  - destruct p; [done|]. by cbn in *.
  - by rewrite last_snoc.
  - by eapply continuous_snoc.
Qed.

(** ** The shortest-path loop on any network *)

Lemma chain_mono prev vis vis' n n' cur :
  chain prev vis n cur → vis ⊆ vis' → n ≤ n' → chain prev vis' n' cur.
Proof.
  intros H Hsub. revert n'. induction H as [n|n c Hc Hs|n c p Hc Hne Hp H IH];
    intros n' Hle.
  - constructor.
  - apply chain_stop; [set_solver|done].
  - destruct n' as [|n']; [lia|].
    apply (chain_step _ _ _ _ p); [set_solver|done|done|]. apply IH. lia.
Qed.

Lemma chain_insert prev vis n cur k x :
  chain prev vis n cur → k ∉ vis → chain (<[k := x]> prev) vis n cur.
Proof.
  intros H Hk. induction H as [n|n c Hc Hs|n c p Hc Hne Hp H IH].
  - constructor.
  - apply chain_stop; [done|]. destruct Hs as [->|Hs]; [by left|right].
    rewrite lookup_insert_ne; [done|]. by intros ->.
  - apply (chain_step _ _ _ _ p); try done.
    rewrite lookup_insert_ne; [done|]. by intros ->.
Qed.

Lemma relax_Returns cur d st nb w st' :
  relax cur d st (nb, w) = Returns st' →
  st' = st
  ∨ ((nb ∉ visited st)
     ∧ (∃ old, distances st !! nb = Some old
               ∧ float_ltb (Finite (fadd d w)) old = true)
     ∧ st' = {| distances := <[nb := Finite (fadd d w)]> (distances st);
                previous := <[nb := Some cur]> (previous st);
                pq := (fadd d w, nb) :: pq st;
                visited := visited st |}).
Proof.
  unfold relax. case_bool_decide as Hv; [intros [= <-]; by left|].
  unfold getitem. destruct (distances st !! nb) as [old|] eqn:Hold; [|done].
  cbn. destruct (float_ltb (Finite (fadd d w)) old) eqn:Hlt; intros [= <-]; [|by left].
  right. eauto.
Qed.

Lemma relax_no_diverge cur d st item : relax cur d st item ≠ Diverges.
Proof.
  destruct item as [nb w]. unfold relax. case_bool_decide; [done|].
  unfold getitem. destruct (distances st !! nb); [|done].
  cbn. by destruct (float_ltb _ _).
Qed.

(** The cases of one pass of the loop. *)
Lemma dijkstra_pass_cases g end_ st :
  (pq st = [] ∧ dijkstra_pass g end_ st = Returns (Break st))
  ∨ ∃ d cur rest,
      heappop lt_dist_station (pq st) = Some ((d, cur), rest)
      ∧ (cur ∈ visited st
         ∧ dijkstra_pass g end_ st
           = Returns (Continue {| distances := distances st; previous := previous st;
                                  pq := rest; visited := visited st |})
         ∨ (cur ∉ visited st)
           ∧ ∃ st1, st1 = {| distances := distances st; previous := previous st;
                             pq := rest; visited := set_add cur (visited st) |}
             ∧ (cur = end_ ∧ dijkstra_pass g end_ st = Returns (Break st1)
                ∨ cur ≠ end_
                  ∧ (distances st !! cur = None
                     ∧ dijkstra_pass g end_ st = Raises (KeyError cur)
                     ∨ ∃ best, distances st !! cur = Some best
                       ∧ (float_ltb best (Finite d) = true
                          ∧ dijkstra_pass g end_ st = Returns (Continue st1)
                          ∨ float_ltb best (Finite d) = false
                            ∧ (graph g !! cur = None
                               ∧ dijkstra_pass g end_ st = Raises (KeyError cur)
                               ∨ ∃ nbrs, graph g !! cur = Some nbrs
                                 ∧ dijkstra_pass g end_ st
                                   = (st' ← for_in nbrs (relax cur d) st1;
                                      Returns (Continue st'))))))).
Proof.
  unfold dijkstra_pass.
  destruct (heappop lt_dist_station (pq st)) as [[[d cur] rest]|] eqn:Hpop.
  2:{ left. by apply heappop_None in Hpop. }
  right. exists d, cur, rest. split; [done|]. cbn.
  case_bool_decide as Hv; [by left|]. right. split; [done|].
  eexists. split; [done|].
  destruct (String.eqb cur end_) eqn:He.
  { apply String.eqb_eq in He. by left. }
  apply String.eqb_neq in He. right. split; [done|].
  unfold getitem. destruct (distances st !! cur) as [best|]; [|by left].
  right. exists best. split; [done|]. cbn.
  destruct (float_ltb best (Finite d)); [by left|]. right. split; [done|].
  destruct (graph g !! cur) as [nbrs|]; [|by left].
  right. by exists nbrs.
Qed.

Lemma dijkstra_pass_no_diverge g end_ st : dijkstra_pass g end_ st ≠ Diverges.
Proof.
  destruct (dijkstra_pass_cases g end_ st) as
    [[_ ->]|(d&cur&rest&_&[[_ ->]|[_ (st1&_&[[_ ->]|[_ [[_ ->]|(best&_&
       [[_ ->]|[_ [[_ ->]|(nbrs&_&->)]]])]]])]])]; try done.
  pose proof (for_in_no_diverge (relax cur d) nbrs st1 (relax_no_diverge cur d)).
  by destruct (for_in nbrs (relax cur d) st1).
Qed.

Lemma dijkstra_init_safe g start : dijkstra_safe g start (dijkstra_init g start).
Proof.
  split; cbn.
  - intros v x. destruct (decide (start = v)) as [->|?].
    + rewrite lookup_insert_eq. intros [= <-]. eauto.
    + rewrite lookup_insert_ne by done. intros [_ <-]%lookup_gset_to_gmap_Some. auto.
  - intros v d. destruct (decide (start = v)) as [->|?].
    + intros _. apply connected_refl.
    + rewrite lookup_insert_ne by done. by intros [_ ?]%lookup_gset_to_gmap_Some.
  - intros d v [= -> ->]%list_elem_of_singleton. rewrite lookup_insert_eq. eauto.
  - set_solver.
  - by rewrite dom_insert_L, dom_gset_to_gmap.
  - by intros v u [_ ?]%lookup_gset_to_gmap_Some.
  - set_solver.
  - intros v Hv. exists None. by apply lookup_gset_to_gmap_Some.
Qed.

Lemma safe_drop g start st rest :
  dijkstra_safe g start st → rest ⊆ pq st →
  dijkstra_safe g start {| distances := distances st; previous := previous st;
                           pq := rest; visited := visited st |}.
Proof. intros [] Hsub. split; cbn; eauto. Qed.

Lemma safe_visit g start st d cur rest :
  dijkstra_safe g start st → (d, cur) ∈ pq st → rest ⊆ pq st → cur ∉ visited st →
  dijkstra_safe g start {| distances := distances st; previous := previous st;
                           pq := rest; visited := set_add cur (visited st) |}.
Proof.
  intros [Hval Hreach Hpq Hvis Hdom Hprev Hchain Hpd] Hin Hsub Hnew.
  split; cbn; eauto.
  - intros v [->|Hv]%elem_of_set_add; eauto.
  - intros v u [Hadj Hu]%Hprev. split; [done|]. apply elem_of_set_add. auto.
  - assert (Hsize : size (set_add cur (visited st)) = S (size (visited st))).
    { rewrite set_add_union, size_union by set_solver. by rewrite size_singleton. }
    rewrite Hsize.
    assert (Hmono : visited st ⊆ set_add cur (visited st)).
    { intros x Hx. apply elem_of_set_add. auto. }
    intros v [->|Hv]%elem_of_set_add.
    2:{ apply (chain_mono _ _ _ _ _ _ (Hchain v Hv)); [done|lia]. }
    assert (Hcur : cur ∈ set_add cur (visited st)) by (apply elem_of_set_add; auto).
    destruct (decide (cur = "")) as [He|He]; [apply chain_stop; auto|].
    destruct (previous st !! cur) as [[u|]|] eqn:Hp.
    + apply (chain_step _ _ _ _ (Some u)); try done.
      destruct (Hprev _ _ Hp) as [_ Hu].
      apply (chain_mono _ _ _ _ _ _ (Hchain u Hu)); [done|lia].
    + apply (chain_step _ _ _ _ None); try done. constructor.
    + apply chain_stop; auto.
Qed.

Lemma safe_relax g start st cur d nb w st' :
  dijkstra_safe g start st → cur ∈ visited st → connected g start cur →
  adjacent g cur nb →
  relax cur d st (nb, w) = Returns st' →
  dijkstra_safe g start st' ∧ visited st' = visited st.
Proof.
  intros Hsafe Hcur Hconn Hadj [->|(Hnb & (old & Hold & Hlt) & ->)]%relax_Returns;
    [done|].
  split; [|done]. destruct Hsafe as [Hval Hreach Hpq Hvis Hdom Hprev Hchain Hpd].
  split; cbn.
  - intros v x. destruct (decide (nb = v)) as [->|?].
    + rewrite lookup_insert_eq. intros [= <-]. eauto.
    + rewrite lookup_insert_ne by done. apply Hval.
  - intros v x. destruct (decide (nb = v)) as [->|?].
    + intros _. by eapply connected_step.
    + rewrite lookup_insert_ne by done. apply Hreach.
  - intros x v Hin. destruct (decide (nb = v)) as [->|?].
    + rewrite lookup_insert_eq. eauto.
    + rewrite lookup_insert_ne by done.
      apply elem_of_cons in Hin as [[= _ ->]|Hin]; [done|]. eauto.
  - intros v Hv. destruct (decide (nb = v)) as [->|?]; [done|].
    rewrite lookup_insert_ne by done. auto.
  - rewrite dom_insert_L, Hdom. apply (elem_of_dom_2 (distances st)) in Hold.
    rewrite Hdom in Hold. set_solver.
  - intros v u. destruct (decide (nb = v)) as [->|?].
    + rewrite lookup_insert_eq. by intros [= <-].
    + rewrite lookup_insert_ne by done. apply Hprev.
  - intros v Hv. by apply chain_insert; [apply Hchain|].
  - intros v Hv. destruct (decide (nb = v)) as [->|?].
    + rewrite lookup_insert_eq. eauto.
    + rewrite lookup_insert_ne by done. auto.
Qed.

Lemma safe_for_in g start cur d nbrs st st' :
  dijkstra_safe g start st → cur ∈ visited st → connected g start cur →
  graph g !! cur = Some nbrs →
  for_in nbrs (relax cur d) st = Returns st' →
  dijkstra_safe g start st' ∧ visited st' = visited st.
Proof.
  intros Hsafe Hcur Hconn Hg.
  apply (for_in_invariant (relax cur d)
           (λ s, dijkstra_safe g start s ∧ visited s = visited st)); [|done].
  intros s [nb w] s' Hin [Hs Hv] Hr.
  destruct (safe_relax g start s cur d nb w s') as [? ?]; try done.
  - by rewrite Hv.
  - by exists nbrs, w.
  - split; [done|congruence].
Qed.

(** The invariant holds after every pass, also after the one that leaves the
    loop. *)
Lemma dijkstra_pass_safe g start end_ st :
  dijkstra_safe g start st →
  match dijkstra_pass g end_ st with
  | Returns (Continue st') | Returns (Break st') => dijkstra_safe g start st'
  | _ => True
  end.
Proof.
  intros Hsafe.
  destruct (dijkstra_pass_cases g end_ st) as
    [[_ ->]|(d&cur&rest&Hpop&[[_ ->]|[Hnew (st1&->&[[_ ->]|[_ [[_ ->]|(best&_&
       [[_ ->]|[_ [[_ ->]|(nbrs&Hg&->)]]])]]])]])]; try done.
  all: pose proof (heappop_Permutation _ _ _ _ Hpop) as Hperm.
  all: assert (Hin : (d, cur) ∈ pq st) by (rewrite Hperm; left).
  all: assert (Hsub : rest ⊆ pq st) by (intros x Hx; rewrite Hperm; by right).
  - by apply safe_drop.
  - by eapply safe_visit.
  - by eapply safe_visit.
  - pose proof (safe_visit _ _ _ _ _ _ Hsafe Hin Hsub Hnew) as Hsafe1.
    destruct (for_in nbrs (relax cur d) _) as [st'| |] eqn:E; try done. cbn.
    eapply (safe_for_in g start cur d nbrs); [exact Hsafe1| | |done|exact E].
    + cbn. apply elem_of_set_add. auto.
    + destruct (safe_pq _ _ _ Hsafe _ _ Hin) as [d' Hd'].
      by eapply safe_reach.
Qed.

Lemma dijkstra_safe_step g start end_ st st' :
  dijkstra_safe g start st →
  dijkstra_pass g end_ st = Returns (Continue st') →
  dijkstra_safe g start st'.
Proof.
  intros Hsafe E. pose proof (dijkstra_pass_safe g start end_ st Hsafe) as H.
  by rewrite E in H.
Qed.

Lemma dijkstra_final_safe g start end_ fuel final :
  while (dijkstra_pass g end_) fuel (dijkstra_init g start) = Returns final →
  dijkstra_safe g start final.
Proof.
  intros H.
  destruct (while_invariant (dijkstra_pass g end_) (dijkstra_safe g start)
              (dijkstra_safe_step g start end_) fuel _ final
              (dijkstra_init_safe g start) H) as (s' & Hs' & E).
  pose proof (dijkstra_pass_safe g start end_ s' Hs') as Hp. by rewrite E in Hp.
Qed.

(** ** The shortest-path search always returns *)

Lemma weight_visit (l : list (string * list (string * Q))) vis k nbrs :
  NoDup l.*1 → (k, nbrs) ∈ l → k ∉ vis →
  sum_list_with (λ kv : string * list (string * Q),
                   if bool_decide (kv.1 ∈ set_add k vis) then 0 else S (length kv.2)) l
  + S (length nbrs)
  = sum_list_with (λ kv : string * list (string * Q),
                     if bool_decide (kv.1 ∈ vis) then 0 else S (length kv.2)) l.
Proof.
  intros Hnd Hin Hk. induction l as [|[k' nb'] l IH]; [by apply elem_of_nil in Hin|].
  cbn [fmap list_fmap fst] in Hnd. apply NoDup_cons in Hnd as [Hk' Hnd].
  cbn [sum_list_with fst snd].
  apply elem_of_cons in Hin as [[= <- <-]|Hin].
  - rewrite bool_decide_eq_true_2 by (apply elem_of_set_add; auto).
    rewrite (bool_decide_eq_false_2 (k ∈ vis)) by done.
    assert (Heq : sum_list_with (λ kv : string * list (string * Q),
                     if bool_decide (kv.1 ∈ set_add k vis) then 0 else S (length kv.2)) l
                  = sum_list_with (λ kv : string * list (string * Q),
                     if bool_decide (kv.1 ∈ vis) then 0 else S (length kv.2)) l).
    { clear IH Hnd. induction l as [|[k2 nb2] l IH2]; [done|].
      cbn [sum_list_with fst snd]. rewrite IH2.
      2:{ intros H. apply Hk'. cbn. by right. }
      assert (k2 ≠ k).
      { intros ->. apply Hk'. cbn. left. }
      assert (Hb : bool_decide (k2 ∈ set_add k vis) = bool_decide (k2 ∈ vis)).
      { apply bool_decide_ext. rewrite elem_of_set_add. naive_solver. }
      by rewrite Hb. }
    rewrite Heq. lia.
  - specialize (IH Hnd Hin). assert (k' ≠ k).
    { intros ->. apply Hk'. apply list_elem_of_fmap. by exists (k, nbrs). }
    assert (Hb : bool_decide (k' ∈ set_add k vis) = bool_decide (k' ∈ vis)).
    { apply bool_decide_ext. rewrite elem_of_set_add. naive_solver. }
    rewrite Hb. lia.
Qed.

Lemma weight_visit_le (l : list (string * list (string * Q))) vis k :
  sum_list_with (λ kv : string * list (string * Q),
                   if bool_decide (kv.1 ∈ set_add k vis) then 0 else S (length kv.2)) l
  ≤ sum_list_with (λ kv : string * list (string * Q),
                     if bool_decide (kv.1 ∈ vis) then 0 else S (length kv.2)) l.
Proof.
  induction l as [|[k' nb'] l IH]; [done|]. cbn [sum_list_with fst snd].
  destruct (bool_decide (k' ∈ vis)) eqn:E.
  - apply bool_decide_eq_true in E.
    rewrite bool_decide_eq_true_2 by (apply elem_of_set_add; auto). lia.
  - destruct (bool_decide (k' ∈ set_add k vis)); lia.
Qed.

Lemma unvisited_weight_visit g vis k nbrs :
  graph g !! k = Some nbrs → k ∉ vis →
  unvisited_weight g (set_add k vis) + S (length nbrs) = unvisited_weight g vis.
Proof.
  intros Hk Hv. apply weight_visit; [|by apply elem_of_map_to_list|done].
  apply NoDup_fst_map_to_list.
Qed.

Lemma unvisited_weight_le g vis k :
  unvisited_weight g (set_add k vis) ≤ unvisited_weight g vis.
Proof. apply weight_visit_le. Qed.

Lemma relax_for_in_length cur d nbrs st st' :
  for_in nbrs (relax cur d) st = Returns st' →
  length (pq st') ≤ length (pq st) + length nbrs ∧ visited st' = visited st.
Proof.
  revert st. induction nbrs as [|[nb w] nbrs IH]; intros st; cbn [for_in].
  - intros [= <-]. split; [lia|done].
  - destruct (relax cur d st (nb, w)) as [s1| |] eqn:E; try done. cbn.
    intros [Hl Hv]%IH. cbn [length].
    apply relax_Returns in E as [->|(_&_&->)]; cbn in *; split; (lia || done).
Qed.

Lemma dijkstra_measure_decrease g end_ st st' :
  dijkstra_pass g end_ st = Returns (Continue st') →
  dijkstra_measure g st' < dijkstra_measure g st.
Proof.
  unfold dijkstra_measure.
  destruct (dijkstra_pass_cases g end_ st) as
    [[_ ->]|(d&cur&rest&Hpop&[[_ ->]|[Hnew (st1&->&[[_ ->]|[_ [[_ ->]|(best&_&
       [[_ ->]|[_ [[_ ->]|(nbrs&Hg&->)]]])]]])]])]; try done.
  all: pose proof (heappop_length _ _ _ _ Hpop) as Hlen.
  - intros [= <-]. cbn. lia.
  - intros [= <-]. cbn. pose proof (unvisited_weight_le g (visited st) cur). lia.
  - destruct (for_in nbrs (relax cur d) _) as [s'| |] eqn:E; try done. cbn.
    intros [= <-]. apply relax_for_in_length in E as [Hl Hv]. cbn in Hl, Hv.
    rewrite Hv. pose proof (unvisited_weight_visit g _ _ _ Hg Hnew). lia.
Qed.

Lemma unvisited_weight_empty g :
  unvisited_weight g ∅
  = sum_list_with (λ kv : string * list (string * Q), S (length kv.2))
      (map_to_list (graph g)).
Proof.
  unfold unvisited_weight. induction (map_to_list (graph g)) as [|kv l IH]; [done|].
  cbn [sum_list_with]. rewrite IH. by rewrite bool_decide_eq_false_2 by set_solver.
Qed.

Lemma dijkstra_terminates g start end_ :
  (∃ final, while (dijkstra_pass g end_) (dijkstra_fuel g) (dijkstra_init g start)
            = Returns final)
  ∨ (∃ e, while (dijkstra_pass g end_) (dijkstra_fuel g) (dijkstra_init g start)
          = Raises e).
Proof.
  apply (while_terminate (dijkstra_pass g end_) (λ _, True)
           (λ _ _ _ _, I) (dijkstra_measure g)); [| |done|].
  - intros s s' _. apply dijkstra_measure_decrease.
  - intros s _. apply dijkstra_pass_no_diverge.
  - unfold dijkstra_measure, dijkstra_fuel. cbn [dijkstra_init pq visited length].
    rewrite unvisited_weight_empty, SuccNat2Pos.id_succ. lia.
Qed.

Lemma backtrack_passes prev vis n cur path :
  chain prev vis n cur →
  (∃ r, passes (backtrack_pass prev) (S n) (Returns (Continue (path, cur)))
        = Returns (Break r))
  ∨ (∃ e, passes (backtrack_pass prev) (S n) (Returns (Continue (path, cur)))
          = Raises e).
Proof.
  intros H. revert path.
  induction H as [n|n c Hc Hs|n c p Hc Hne Hp H IH]; intros path.
  - left. exists path. cbn [passes backtrack_pass]. by apply passes_stop.
  - cbn [passes backtrack_pass]. destruct (String.eqb c "") eqn:E.
    + left. exists path. by apply passes_stop.
    + destruct Hs as [->|Hs]; [done|]. unfold getitem. rewrite Hs. cbn.
      right. eexists. by apply passes_stop.
  - cbn [passes backtrack_pass]. rewrite (eqb_empty_false _ Hne).
    unfold getitem. rewrite Hp. cbn. apply IH.
Qed.

Lemma visited_size g start st :
  dijkstra_safe g start st → size (visited st) ≤ S (size (stations g)).
Proof.
  intros Hsafe.
  assert (Hsub : visited st ⊆ {[start]} ∪ stations g).
  { intros v [d Hd]%(safe_visited _ _ _ Hsafe).
    rewrite <- (safe_dom _ _ _ Hsafe). by eapply elem_of_dom_2. }
  apply subseteq_size in Hsub. rewrite size_union_alt, size_singleton in Hsub.
  assert (Hd : stations g ∖ {[start]} ⊆ stations g) by set_solver.
  apply subseteq_size in Hd. lia.
Qed.

Lemma backtrack_terminates g start st end_ :
  dijkstra_safe g start st →
  (∃ r, while (backtrack_pass (previous st)) (backtrack_fuel g) ([], Some end_)
        = Returns r)
  ∨ (∃ e, while (backtrack_pass (previous st)) (backtrack_fuel g) ([], Some end_)
          = Raises e).
Proof.
  intros Hsafe. pose proof (visited_size _ _ _ Hsafe) as Hsize.
  assert (Hchain : chain (previous st) (visited st ∪ {[end_]})
                     (S (size (visited st))) (Some end_)).
  { destruct (decide (end_ ∈ visited st)) as [Hv|Hv].
    { eapply chain_mono; [by apply (safe_chain _ _ _ Hsafe)|set_solver|lia]. }
    destruct (decide (end_ = "")) as [He|He]; [apply chain_stop; [set_solver|auto]|].
    destruct (previous st !! end_) as [[u|]|] eqn:Hp.
    - apply (chain_step _ _ _ _ (Some u)); [set_solver|done|done|].
      destruct (safe_prev _ _ _ Hsafe _ _ Hp) as [_ Hu].
      eapply chain_mono; [by apply (safe_chain _ _ _ Hsafe)|set_solver|lia].
    - apply (chain_step _ _ _ _ None); [set_solver|done|done|]. constructor.
    - apply chain_stop; [set_solver|auto]. }
  assert (Hfuel : S (S (size (visited st))) ≤ Pos.to_nat (backtrack_fuel g)).
  { unfold backtrack_fuel. rewrite SuccNat2Pos.id_succ. lia. }
  destruct (backtrack_passes _ _ _ _ [] Hchain) as [[r Hr]|[e He]].
  - left. exists r. by eapply while_break.
  - right. exists e. by eapply while_raise.
Qed.

(** The parts of a non-empty answer of the shortest-path search. *)
Lemma find_shortest_path_inv g raw_s raw_e r :
  find_shortest_path g raw_s raw_e = Returns r →
  r = no_route
  ∨ ∃ A B final q bpath,
      raw_s ≠ "" ∧ raw_e ≠ ""
      ∧ resolves g raw_s A ∧ resolves g raw_e B
      ∧ A ∈ dom (graph g) ∧ B ∈ dom (graph g)
      ∧ while (dijkstra_pass g B) (dijkstra_fuel g) (dijkstra_init g A) = Returns final
      ∧ distances final !! B = Some (Finite q)
      ∧ while (backtrack_pass (previous final)) (backtrack_fuel g) ([], Some B)
        = Returns bpath
      ∧ r = (rev bpath, round2 (Finite q), identify_line_changes g (rev bpath)).
Proof.
  unfold find_shortest_path, shortest_path_body.
  destruct (String.eqb raw_s "") eqn:Es; [intros [= <-]; by left|].
  destruct (String.eqb raw_e "") eqn:Ee; [intros [= <-]; by left|].
  apply String.eqb_neq in Es, Ee. cbn [orb].
  destruct (get_station_mapping g !! normalize_station_name raw_s) as [A|] eqn:HA;
    [|intros [= <-]; by left].
  destruct (get_station_mapping g !! normalize_station_name raw_e) as [B|] eqn:HB;
    [|intros [= <-]; by left].
  case_bool_decide as HdA; [|intros [= <-]; by left].
  case_bool_decide as HdB; [|intros [= <-]; by left].
  cbn [negb orb].
  destruct (while (dijkstra_pass g B) _ _) as [final| |] eqn:Hw; cbn;
    [|intros [= <-]; by left|done].
  pose proof (dijkstra_final_safe _ _ _ _ _ Hw) as Hsafe.
  unfold getitem. destruct (distances final !! B) as [reached|] eqn:Hr; cbn;
    [|intros [= <-]; by left].
  destruct (float_eqb reached PosInf) eqn:Hinf; cbn; [intros [= <-]; by left|].
  destruct (safe_values _ _ _ Hsafe _ _ Hr) as [->|[q ->]]; [done|].
  destruct (while (backtrack_pass _) _ _) as [bpath| |] eqn:Hb; cbn;
    [|intros [= <-]; by left|done].
  intros [= <-]. right. exists A, B, final, q, bpath. by repeat split.
Qed.

Lemma find_shortest_path_returns g raw_s raw_e :
  ∃ r, find_shortest_path g raw_s raw_e = Returns r.
Proof.
  unfold find_shortest_path, shortest_path_body.
  destruct (_ || _); [eauto|].
  destruct (get_station_mapping g !! normalize_station_name raw_s) as [A|];
    [|cbn; eauto].
  destruct (get_station_mapping g !! normalize_station_name raw_e) as [B|];
    [|cbn; eauto].
  destruct (_ || _); [cbn; eauto|].
  destruct (dijkstra_terminates g A B) as [[final Hw]|[e Hw]]; rewrite Hw; cbn;
    [|eauto].
  pose proof (dijkstra_final_safe _ _ _ _ _ Hw) as Hsafe.
  unfold getitem. destruct (distances final !! B) as [reached|]; cbn; [|eauto].
  destruct (float_eqb reached PosInf); cbn; [eauto|].
  destruct (backtrack_terminates g A final B Hsafe) as [[r Hr]|[e Hr]];
    rewrite Hr; cbn; eauto.
Qed.

(** ** The least-changes loop on any network *)

Lemma extend_advance g e queue item :
  extend g e queue item
  = Returns (if bool_decide (item.1 ∈ entry_path e) then queue
             else advance g e item :: queue).
Proof.
  destruct e as [[[[changes dist] current] path] current_lines], item as [nb w].
  unfold extend, advance. cbn [fst entry_path]. case_bool_decide; [done|].
  by destruct (negb (is_empty (current_lines ∩ lines_at g nb))).
Qed.

Lemma advance_station g e item : entry_station (advance g e item) = item.1.
Proof.
  destruct e as [[[[changes dist] current] path] current_lines], item as [nb w].
  unfold advance. by destruct (negb _).
Qed.

Lemma advance_path g e item :
  entry_path (advance g e item) = entry_path e ++ [item.1].
Proof.
  destruct e as [[[[changes dist] current] path] current_lines], item as [nb w].
  unfold advance. by destruct (negb _).
Qed.

(** The cases of one pass of the loop. *)
Lemma least_changes_pass_cases g end_ st :
  (lc_pq st = [] ∧ least_changes_pass g end_ st = Returns (Break no_route))
  ∨ ∃ changes dist cur path current_lines rest,
      heappop lt_entry (lc_pq st)
      = Some ((changes, dist, cur, path, current_lines), rest)
      ∧ (cur = end_
         ∧ least_changes_pass g end_ st
           = Returns (Break (path, round2 (Finite dist), identify_line_changes g path))
         ∨ cur ≠ end_
           ∧ ((∃ seen, lc_visited st !! (cur, current_lines) = Some seen ∧ seen ≤ changes
                 ∧ least_changes_pass g end_ st
                   = Returns (Continue {| lc_pq := rest; lc_visited := lc_visited st |}))
              ∨ (∀ seen, lc_visited st !! (cur, current_lines) = Some seen →
                         changes < seen)
                ∧ (graph g !! cur = None
                   ∧ least_changes_pass g end_ st = Raises (KeyError cur)
                   ∨ ∃ nbrs queue, graph g !! cur = Some nbrs
                     ∧ for_in nbrs
                         (extend g (changes, dist, cur, path, current_lines)) rest
                       = Returns queue
                     ∧ least_changes_pass g end_ st
                       = Returns (Continue
                           {| lc_pq := queue;
                              lc_visited := <[(cur, current_lines) := changes]>
                                              (lc_visited st) |})))).
Proof.
  unfold least_changes_pass.
  destruct (heappop lt_entry (lc_pq st))
    as [[[[[[changes dist] cur] path] current_lines] rest]|] eqn:Hpop.
  2:{ left. by apply heappop_None in Hpop. }
  right. exists changes, dist, cur, path, current_lines, rest. split; [done|].
  destruct (String.eqb cur end_) eqn:He.
  { apply String.eqb_eq in He. by left. }
  apply String.eqb_neq in He. right. split; [done|].
  assert (Hexp : graph g !! cur = None
            ∧ (neighbors ← getitem (graph g) cur;
               queue ← for_in neighbors
                         (extend g (changes, dist, cur, path, current_lines)) rest;
               Returns (Continue {| lc_pq := queue;
                  lc_visited := <[(cur, current_lines) := changes]> (lc_visited st) |}))
              = (Raises (KeyError cur) : outcome (ctl least_changes route))
            ∨ ∃ nbrs queue, graph g !! cur = Some nbrs
              ∧ for_in nbrs (extend g (changes, dist, cur, path, current_lines)) rest
                = Returns queue
              ∧ (neighbors ← getitem (graph g) cur;
                 queue ← for_in neighbors
                         (extend g (changes, dist, cur, path, current_lines)) rest;
                 Returns (Continue {| lc_pq := queue;
                  lc_visited := <[(cur, current_lines) := changes]> (lc_visited st) |}))
                = (Returns (Continue {| lc_pq := queue;
                  lc_visited := <[(cur, current_lines) := changes]> (lc_visited st) |})
                   : outcome (ctl least_changes route))).
  { unfold getitem. destruct (graph g !! cur) as [nbrs|]; [|by left].
    right. cbn.
    assert (Hq : ∃ queue, for_in nbrs
               (extend g (changes, dist, cur, path, current_lines)) rest
               = Returns queue).
    { generalize rest. induction nbrs as [|x nbrs IH]; intros q; cbn [for_in]; [eauto|].
      rewrite extend_advance. cbn. apply IH. }
    destruct Hq as [queue Hq]. exists nbrs, queue. by rewrite Hq. }
  destruct (lc_visited st !! (cur, current_lines)) as [seen|] eqn:Hv.
  - destruct (seen <=? changes) eqn:Hle.
    + apply Nat.leb_le in Hle. left. by exists seen.
    + apply Nat.leb_gt in Hle. right. split; [by intros ? [= <-]|].
      destruct Hexp as [[? ->]|(nbrs&queue&?&?&->)]; [by left|right; eauto].
  - right. split; [done|].
    destruct Hexp as [[? ->]|(nbrs&queue&?&?&->)]; [by left|right; eauto].
Qed.

Lemma least_changes_pass_no_diverge g end_ st : least_changes_pass g end_ st ≠ Diverges.
Proof.
  destruct (least_changes_pass_cases g end_ st) as
    [[_ ->]|(c&d&cur&p&ls&rest&_&[[_ ->]|[_ [(seen&_&_&->)|[_ [[_ ->]|
       (nbrs&queue&_&_&->)]]]]])]; done.
Qed.

(** *** The queued paths are simple walks from the source *)

Lemma extend_for_in_elem g e nbrs queue queue' x :
  for_in nbrs (extend g e) queue = Returns queue' →
  x ∈ queue' →
  x ∈ queue ∨ ∃ item, item ∈ nbrs ∧ (item.1 ∉ entry_path e) ∧ x = advance g e item.
Proof.
  revert queue. induction nbrs as [|item nbrs IH]; intros queue; cbn [for_in].
  - intros [= <-]. auto.
  - rewrite extend_advance. cbn. intros H Hx.
    destruct (IH _ H Hx) as [Hq|(it&Hit&Hnp&->)].
    + case_bool_decide as Hp; [by left|].
      apply elem_of_cons in Hq as [->|Hq]; [|by left].
      right. exists item. split; [left|done].
    + right. exists it. split; [by right|done].
Qed.

Lemma advance_ok g start e nbrs item :
  entry_ok g start e → graph g !! entry_station e = Some nbrs → item ∈ nbrs →
  item.1 ∉ entry_path e →
  entry_ok g start (advance g e item).
Proof.
  intros [(Hh & Hl & Hc) Hnd] Hg Hin Hnp. unfold entry_ok.
  rewrite advance_station, advance_path. split; [repeat split|].
  - destruct (entry_path e); [done|]. by cbn in *.
  - by rewrite last_snoc.
  - eapply continuous_snoc; [done..|]. destruct item as [nb w]. by exists nbrs, w.
  - apply NoDup_app. split; [done|]. split; [|apply NoDup_singleton].
    intros x Hx ->%list_elem_of_singleton. done.
Qed.

Lemma least_changes_pass_ok g start end_ st st' :
  (∀ e, e ∈ lc_pq st → entry_ok g start e) →
  least_changes_pass g end_ st = Returns (Continue st') →
  ∀ e, e ∈ lc_pq st' → entry_ok g start e.
Proof.
  intros Hok.
  destruct (least_changes_pass_cases g end_ st) as
    [[_ ->]|(c&d&cur&p&ls&rest&Hpop&[[_ ->]|[_ [(seen&_&_&->)|[_ [[_ ->]|
       (nbrs&queue&Hg&Hfor&->)]]]]])]; try done.
  all: pose proof (heappop_Permutation _ _ _ _ Hpop) as Hperm.
  - intros [= <-] e He. apply Hok. rewrite Hperm. by right.
  - intros [= <-] e He. cbn in He.
    destruct (extend_for_in_elem _ _ _ _ _ _ Hfor He) as [Hr|(item&Hit&Hnp&->)].
    + apply Hok. rewrite Hperm. by right.
    + eapply advance_ok; [|exact Hg|done..]. apply Hok. rewrite Hperm. left.
Qed.

(** *** The loop ends *)

Lemma max_degree_bound g k nbrs : graph g !! k = Some nbrs → length nbrs ≤ max_degree g.
Proof.
  intros H%elem_of_map_to_list. unfold max_degree.
  induction (map_to_list (graph g)) as [|kv l IH]; [by apply elem_of_nil in H|].
  cbn [max_list_with]. apply elem_of_cons in H as [<-|H]; [cbn; lia|].
  specialize (IH H). lia.
Qed.

Lemma elem_of_foldr_set_add (l : list string) x : x ∈ foldr set_add ∅ l ↔ x ∈ l.
Proof.
  induction l as [|y l IH]; cbn [foldr]; [set_solver|].
  rewrite elem_of_set_add, IH, elem_of_cons. tauto.
Qed.

Lemma nodes_key g k nbrs : graph g !! k = Some nbrs → k ∈ nodes g.
Proof.
  intros H%elem_of_map_to_list. unfold nodes.
  apply elem_of_foldr_set_add, list_elem_of_In, in_flat_map.
  exists (k, nbrs). split; [by apply list_elem_of_In|]. by left.
Qed.

Lemma nodes_neighbor g k nbrs nb w :
  graph g !! k = Some nbrs → (nb, w) ∈ nbrs → nb ∈ nodes g.
Proof.
  intros H%elem_of_map_to_list Hin. unfold nodes.
  apply elem_of_foldr_set_add, list_elem_of_In, in_flat_map.
  exists (k, nbrs). split; [by apply list_elem_of_In|]. right.
  apply list_elem_of_In, list_elem_of_fmap. by exists (nb, w).
Qed.

Lemma bounded_length g e x :
  entry_bounded g e → x ∈ nodes g → x ∉ entry_path e →
  length (entry_path e) < size (nodes g).
Proof.
  intros [Hnd Hsub] Hx Hnp.
  assert (Hnd' : NoDup (x :: entry_path e)) by by apply NoDup_cons.
  assert (Hle : x :: entry_path e ⊆+ elements (nodes g)).
  { apply NoDup_submseteq; [done|]. intros y [->|Hy]%elem_of_cons.
    - by apply elem_of_elements.
    - by apply elem_of_elements, Hsub. }
  apply submseteq_length in Hle. cbn in Hle. unfold size, set_size. cbn. lia.
Qed.

Lemma advance_bounded g e nbrs item :
  entry_bounded g e → graph g !! entry_station e = Some nbrs → item ∈ nbrs →
  item.1 ∉ entry_path e →
  entry_bounded g (advance g e item).
Proof.
  intros [Hnd Hsub] Hg Hin Hnp. unfold entry_bounded. rewrite advance_path. split.
  - apply NoDup_app. split; [done|]. split; [|apply NoDup_singleton].
    intros x Hx ->%list_elem_of_singleton. done.
  - intros x [Hx| ->%list_elem_of_singleton]%elem_of_app; [auto|].
    destruct item as [nb w]. by eapply nodes_neighbor.
Qed.

(** Expanding an entry adds at most one path per neighbour, each one station
    longer than the path of the entry. *)
Lemma extend_for_in_measure g e nbrs queue queue' :
  entry_bounded g e → (∀ item, item ∈ nbrs → item.1 ∈ nodes g) →
  for_in nbrs (extend g e) queue = Returns queue' →
  ∃ m, m ≤ length nbrs
       ∧ (0 < m → length (entry_path e) < size (nodes g))
       ∧ least_changes_measure g queue'
         = least_changes_measure g queue
           + m * S (S (max_degree g)) ^ (size (nodes g) - S (length (entry_path e))).
Proof.
  intros Hb. revert queue. induction nbrs as [|item nbrs IH]; intros queue Hn;
    cbn [for_in].
  - intros [= <-]. exists 0. split; [done|]. split; [lia|]. lia.
  - rewrite extend_advance. cbn. intros H.
    destruct (IH _ (λ it Hit, Hn it (list_elem_of_further _ _ _ Hit)) H)
      as (m & Hm & Hpos & Heq).
    case_bool_decide as Hp.
    + exists m. cbn [length]. split; [lia|]. by split.
    + exists (S m). cbn [length]. split; [lia|].
      assert (Hlen : length (entry_path e) < size (nodes g)).
      { eapply bounded_length; [done| |done]. apply Hn. left. }
      split; [done|]. rewrite Heq. unfold least_changes_measure at 1.
      cbn [sum_list_with]. rewrite advance_path, length_app. cbn [length].
      fold (least_changes_measure g queue).
      replace (length (entry_path e) + 1) with (S (length (entry_path e))) by lia.
      lia.
Qed.

Lemma least_changes_pass_bounded g end_ st st' :
  (∀ e, e ∈ lc_pq st → entry_bounded g e) →
  least_changes_pass g end_ st = Returns (Continue st') →
  (∀ e, e ∈ lc_pq st' → entry_bounded g e)
  ∧ least_changes_measure g (lc_pq st') < least_changes_measure g (lc_pq st).
Proof.
  intros Hok.
  destruct (least_changes_pass_cases g end_ st) as
    [[_ ->]|(c&d&cur&p&ls&rest&Hpop&[[_ ->]|[_ [(seen&_&_&->)|[_ [[_ ->]|
       (nbrs&queue&Hg&Hfor&->)]]]]])]; try done.
  all: pose proof (heappop_Permutation _ _ _ _ Hpop) as Hperm.
  all: assert (Hmeasure : least_changes_measure g (lc_pq st)
         = S (S (max_degree g)) ^ (size (nodes g) - length p)
           + least_changes_measure g rest)
         by (unfold least_changes_measure; by rewrite Hperm).
  all: assert (Hpow : 0 < S (S (max_degree g)) ^ (size (nodes g) - length p))
         by (apply Nat.neq_0_lt_0, Nat.pow_nonzero; lia).
  - intros [= <-]. cbn [lc_pq]. split; [|lia].
    intros e He. apply Hok. rewrite Hperm. by right.
  - intros [= <-]. cbn [lc_pq].
    assert (Hbe : entry_bounded g (c, d, cur, p, ls)).
    { apply Hok. rewrite Hperm. left. }
    split.
    + intros e He.
      destruct (extend_for_in_elem _ _ _ _ _ _ Hfor He) as [Hr|(item&Hit&Hnp&->)].
      * apply Hok. rewrite Hperm. by right.
      * by eapply advance_bounded.
    + destruct (extend_for_in_measure g _ nbrs rest queue Hbe) as (m & Hm & Hposm & Heq);
        [|done|].
      { intros [nb w] Hit. by eapply nodes_neighbor. }
      rewrite Heq, Hmeasure. cbn [entry_path] in *.
      pose proof (max_degree_bound _ _ _ Hg) as Hdeg.
      destruct m as [|m]; [lia|].
      assert (Hlt : length p < size (nodes g)) by (apply Hposm; lia).
      replace (size (nodes g) - length p)
        with (S (size (nodes g) - S (length p))) by lia.
      rewrite Nat.pow_succ_r'.
      assert (0 < S (S (max_degree g)) ^ (size (nodes g) - S (length p)))
        by (apply Nat.neq_0_lt_0, Nat.pow_nonzero; lia).
      nia.
Qed.

Lemma least_changes_terminates g start end_ lines :
  (∃ r, while (least_changes_pass g end_) (least_changes_fuel g)
          {| lc_pq := [(0, 0%Q, start, [start], lines)]; lc_visited := ∅ |}
        = Returns r)
  ∨ (∃ e, while (least_changes_pass g end_) (least_changes_fuel g)
            {| lc_pq := [(0, 0%Q, start, [start], lines)]; lc_visited := ∅ |}
          = Raises e).
Proof.
  destruct (graph g !! start) as [nbrs|] eqn:Hstart.
  - apply (while_terminate (least_changes_pass g end_)
             (λ st, ∀ e, e ∈ lc_pq st → entry_bounded g e)
             (λ s s' Hs E, proj1 (least_changes_pass_bounded g end_ s s' Hs E))
             (λ st, least_changes_measure g (lc_pq st))).
    + intros s s' Hs E. by apply (least_changes_pass_bounded g end_ s s').
    + intros s _. apply least_changes_pass_no_diverge.
    + cbn. intros e ->%list_elem_of_singleton. split; cbn.
      * apply NoDup_singleton.
      * intros x ->%list_elem_of_singleton. by eapply nodes_key.
    + unfold least_changes_measure, least_changes_fuel. cbn [lc_pq sum_list_with entry_path length].
      rewrite Pos2Nat.inj_pow, !SuccNat2Pos.id_succ.
      assert (Hn : 0 < size (nodes g)).
      { apply nodes_key in Hstart. apply Nat.neq_0_lt_0. intros H0.
        apply size_empty_inv in H0. set_solver. }
      replace (S (size (nodes g))) with (S (S (size (nodes g) - 1))) by lia.
      rewrite !Nat.pow_succ_r'. 
      assert (0 < S (S (max_degree g)) ^ (size (nodes g) - 1))
        by (apply Nat.neq_0_lt_0, Nat.pow_nonzero; lia).
      nia.
  - assert (Hpass : ∃ c, least_changes_pass g end_
              {| lc_pq := [(0, 0%Q, start, [start], lines)]; lc_visited := ∅ |} = c
              ∧ ((∃ r, c = Returns (Break r)) ∨ ∃ e, c = Raises e)).
    { eexists. split; [done|]. unfold least_changes_pass. cbn [lc_pq lc_visited].
      unfold heappop. destruct (String.eqb start end_); [eauto|].
      rewrite lookup_empty. unfold getitem. rewrite Hstart. cbn. eauto. }
    destruct Hpass as (c & Hc & [[r ->]|[e ->]]).
    + left. exists r. apply (while_break _ _ 1); [by cbn|lia].
    + right. exists e. apply (while_raise _ _ 1); [by cbn|lia].
Qed.

Lemma find_route_least_changes_returns g raw_s raw_e :
  ∃ r, find_route_least_changes g raw_s raw_e = Returns r.
Proof.
  unfold find_route_least_changes, least_changes_body.
  destruct (_ || _); [eauto|].
  destruct (get_station_mapping g !! normalize_station_name raw_s) as [A|];
    [|cbn; eauto].
  destruct (get_station_mapping g !! normalize_station_name raw_e) as [B|];
    [|cbn; eauto].
  destruct (least_changes_terminates g A B (lines_at g A)) as [[r Hr]|[e Hr]];
    rewrite Hr; cbn; eauto.
Qed.

(** ** What the searches return *)

Lemma find_route_least_changes_inv g raw_s raw_e r :
  find_route_least_changes g raw_s raw_e = Returns r →
  r = no_route
  ∨ ∃ A B,
      raw_s ≠ "" ∧ raw_e ≠ "" ∧ resolves g raw_s A ∧ resolves g raw_e B
      ∧ while (least_changes_pass g B) (least_changes_fuel g)
          {| lc_pq := [(0, 0%Q, A, [A], lines_at g A)]; lc_visited := ∅ |}
        = Returns r.
Proof.
  unfold find_route_least_changes, least_changes_body.
  destruct (String.eqb raw_s "") eqn:Es; [intros [= <-]; by left|].
  destruct (String.eqb raw_e "") eqn:Ee; [intros [= <-]; by left|].
  apply String.eqb_neq in Es, Ee. cbn [orb].
  destruct (get_station_mapping g !! normalize_station_name raw_s) as [A|] eqn:HA;
    [|intros [= <-]; by left].
  destruct (get_station_mapping g !! normalize_station_name raw_e) as [B|] eqn:HB;
    [|intros [= <-]; by left].
  destruct (while _ _ _) as [r'| |] eqn:Hw; cbn; [|intros [= <-]; by left|done].
  intros [= <-]. right. by exists A, B.
Qed.

(** The entry popped at the goal carries a simple walk from the source. *)
Lemma least_changes_result_walk g A B r :
  while (least_changes_pass g B) (least_changes_fuel g)
    {| lc_pq := [(0, 0%Q, A, [A], lines_at g A)]; lc_visited := ∅ |}
  = Returns r →
  r = no_route ∨ (walk g A B r.1.1 ∧ NoDup r.1.1).
Proof.
  intros Hw.
  assert (Hinit : ∀ e, e ∈ [(0, 0%Q, A, [A], lines_at g A)] → entry_ok g A e).
  { intros e ->%list_elem_of_singleton. split; [|apply NoDup_singleton].
    by repeat split. }
  destruct (while_invariant (least_changes_pass g B)
              (λ st, ∀ e, e ∈ lc_pq st → entry_ok g A e)
              (least_changes_pass_ok g A B) _
              {| lc_pq := [(0, 0%Q, A, [A], lines_at g A)]; lc_visited := ∅ |}
              _ Hinit Hw)
    as (s' & Hs' & E).
  destruct (least_changes_pass_cases g B s') as
    [[_ Hp]|(c&d&cur&p&ls&rest&Hpop&[[-> Hp]|[_ [(seen&_&_&Hp)|[_ [[_ Hp]|
       (nbrs&queue&_&_&Hp)]]]]])]; rewrite Hp in E; try done.
  - injection E as <-. by left.
  - injection E as <-. right. cbn.
    apply heappop_Permutation in Hpop.
    apply (Hs' (c, d, B, p, ls)). rewrite Hpop. left.
Qed.

Lemma continuous_lookup g p i a b :
  continuous g p → p !! i = Some a → p !! S i = Some b → adjacent g a b.
Proof.
  revert i. induction p as [|x p IH]; intros i; [done|].
  cbn [continuous]. intros [Hx Hp]. destruct i as [|i]; cbn.
  - intros [= ->]. destruct p; [done|]. cbn. by intros [= ->].
  - by apply IH.
Qed.

Lemma head_rev (l : list string) : head (rev l) = last l.
Proof.
  destruct l as [|x l] using rev_ind; [done|].
  by rewrite rev_app_distr, last_snoc.
Qed.

Lemma backtrack_continuous g start final end_ bpath :
  dijkstra_safe g start final →
  while (backtrack_pass (previous final)) (backtrack_fuel g) ([], Some end_)
  = Returns bpath →
  continuous g (rev bpath).
Proof.
  intros Hsafe Hw.
  set (J := λ st : list string * option string,
         continuous g (rev st.1)
         ∧ ∀ c l, st.2 = Some c → last st.1 = Some l → adjacent g c l).
  assert (Hstep : ∀ s s', J s → backtrack_pass (previous final) s
                                = Returns (Continue s') → J s').
  { intros [path cur] s' [Hc Hadj]. unfold backtrack_pass.
    destruct cur as [c|]; [|done]. destruct (String.eqb c ""); [done|].
    unfold getitem. destruct (previous final !! c) as [prev|] eqn:Hp; [|done].
    cbn. intros [= <-]. split; cbn.
    - rewrite rev_app_distr. cbn. apply continuous_cons; [done|].
      rewrite head_rev. destruct (last path) as [l|] eqn:Hl; [|done].
      by apply Hadj.
    - intros p l -> Hl. rewrite last_snoc in Hl. injection Hl as <-.
      by apply (safe_prev _ _ _ Hsafe). }
  assert (Hinit : J ([], Some end_)) by by split.
  destruct (while_invariant _ J Hstep _ ([], Some end_) _ Hinit Hw)
    as ([path cur] & [Hc _] & E).
  unfold backtrack_pass in E. destruct cur as [c|].
  - destruct (String.eqb c ""); [by injection E as <-|].
    unfold getitem in E. by destruct (previous final !! c).
  - by injection E as <-.
Qed.

(** C7: two consecutive stations of a path returned by either search are
    always joined by an edge of the adjacency mapping. *)
Theorem returned_path_continuous g start end_ path d changes i a b :
  find_shortest_path g start end_ = Returns (path, d, changes)
  ∨ find_route_least_changes g start end_ = Returns (path, d, changes) →
  path !! i = Some a → path !! S i = Some b →
  adjacent g a b.
Proof.
  intros H. apply continuous_lookup. destruct H as [H|H].
  - apply find_shortest_path_inv in H
      as [[= -> _ _]|(A&B&final&q&bpath&_&_&_&_&_&_&Hw&_&Hb&[= -> _ _])]; [done|].
    eapply backtrack_continuous; [|done]. by eapply dijkstra_final_safe.
  - apply find_route_least_changes_inv in H as [[= -> _ _]|(A&B&_&_&_&_&Hw)]; [done|].
    by apply least_changes_result_walk in Hw as [[= -> _ _]|[(_&_&?) _]].
Qed.

Lemma returned_path_continuous_witness :
  adjacent metro "Rajiv Chowk" "New Delhi".
Proof.
  apply (returned_path_continuous metro "Rajiv Chowk" "Kashmere Gate"
           ["Rajiv Chowk"; "New Delhi"; "Chawri Bazar"; "Chandni Chowk"; "Kashmere Gate"]
           (Finite 4) [] 0 "Rajiv Chowk" "New Delhi").
  - left. vm_compute. reflexivity.
  - reflexivity.
  - reflexivity.
Defined.

(** ** No route *)

Lemma closed_under_connected g X a b :
  closed_under g X = true → a ∈ X → connected g a b → b ∈ X.
Proof.
  intros Hcl Ha (p & Hh & Hl & Hc).
  assert (Hall : ∀ x, x ∈ p → x ∈ X).
  { clear Hl. revert a Ha Hh. induction p as [|x p IH]; intros a Ha Hh y Hy;
      [by apply elem_of_nil in Hy|].
    cbn in Hh. injection Hh as ->. apply elem_of_cons in Hy as [->|Hy]; [done|].
    cbn [continuous] in Hc. destruct Hc as [Hadj Hc].
    destruct p as [|x' p]; [by apply elem_of_nil in Hy|].
    apply (IH Hc x'); [|done..].
    change (x' ∈ X).
    destruct Hadj as (nb & w & Hg & Hin).
    unfold closed_under in Hcl. rewrite forallb_forall in Hcl.
    specialize (Hcl (a, nb)). cbn in Hcl.
    rewrite (bool_decide_eq_true_2 _ Ha) in Hcl. cbn in Hcl.
    assert (Hf : forallb (λ item : string * Q, bool_decide (item.1 ∈ X)) nb = true).
    { apply Hcl. by apply list_elem_of_In, elem_of_map_to_list. }
    rewrite forallb_forall in Hf. specialize (Hf (x', w)).
    apply (bool_decide_eq_true_1 (x' ∈ X)), Hf. by apply list_elem_of_In. }
  apply Hall. destruct p as [|x p] using rev_ind; [done|].
  rewrite last_snoc in Hl. injection Hl as ->. apply elem_of_app. right. left.
Qed.

Lemma resolves_functional g raw s s' : resolves g raw s → resolves g raw s' → s = s'.
Proof. unfold resolves. congruence. Qed.

(** C5: when the two names resolve to distinct stations that no walk of the
    network joins, both searches return the empty result as a normal value. *)
Theorem unconnected_no_route g raw_s raw_e A B :
  resolves g raw_s A → resolves g raw_e B → A ≠ B → ¬ connected g A B →
  find_shortest_path g raw_s raw_e = Returns no_route
  ∧ find_route_least_changes g raw_s raw_e = Returns no_route.
Proof.
  intros Rs Re _ Hnc. split.
  - destruct (find_shortest_path_returns g raw_s raw_e) as [r Hr]. rewrite Hr.
    apply find_shortest_path_inv in Hr
      as [->|(A'&B'&final&q&bpath&_&_&Rs'&Re'&_&_&Hw&Hq&_)]; [done|].
    rewrite <- (resolves_functional _ _ _ _ Rs Rs') in Hw.
    rewrite <- (resolves_functional _ _ _ _ Re Re') in Hw, Hq.
    destruct Hnc. eapply safe_reach; [|done]. by eapply dijkstra_final_safe.
  - destruct (find_route_least_changes_returns g raw_s raw_e) as [r Hr]. rewrite Hr.
    apply find_route_least_changes_inv in Hr as [->|(A'&B'&_&_&Rs'&Re'&Hw)]; [done|].
    rewrite <- (resolves_functional _ _ _ _ Rs Rs') in Hw.
    rewrite <- (resolves_functional _ _ _ _ Re Re') in Hw.
    apply least_changes_result_walk in Hw as [->|[Hwalk _]]; [done|].
    destruct Hnc. by exists r.1.1.
Qed.

Lemma unconnected_no_route_witness :
  find_shortest_path two_islands "A" "C" = Returns no_route
  ∧ find_route_least_changes two_islands "A" "C" = Returns no_route.
Proof.
  apply (unconnected_no_route two_islands "A" "C" "A" "C").
  - vm_compute. reflexivity.
  - vm_compute. reflexivity.
  - discriminate.
  - intros Hc.
    assert (H : "C" ∈ ({["A"; "B"]} : gset string)).
    { apply (closed_under_connected two_islands _ "A" "C"); [|set_solver|done].
      vm_compute. reflexivity. }
    set_solver.
Defined.

(** ** Totality *)

Lemma unresolved_no_route g start end_ :
  get_station_mapping g !! normalize_station_name start = None
  ∨ get_station_mapping g !! normalize_station_name end_ = None →
  find_shortest_path g start end_ = Returns no_route
  ∧ find_route_least_changes g start end_ = Returns no_route.
Proof.
  intros H. unfold find_shortest_path, find_route_least_changes,
    shortest_path_body, least_changes_body.
  destruct (String.eqb start "" || String.eqb end_ ""); [done|].
  destruct H as [-> | H]; [done|].
  rewrite H. by destruct (get_station_mapping g !! normalize_station_name start).
Qed.

(** C9: on every network and for every pair of strings, both searches return
    a triple; nothing is raised and no loop runs on.  Empty or unresolved
    names give the empty result, and so does a [KeyError] inside the [try]
    block. *)
Theorem searches_always_return g start end_ :
  (∃ r, find_shortest_path g start end_ = Returns r)
  ∧ (∃ r, find_route_least_changes g start end_ = Returns r)
  ∧ (start = "" ∨ end_ = ""
     ∨ get_station_mapping g !! normalize_station_name start = None
     ∨ get_station_mapping g !! normalize_station_name end_ = None →
     find_shortest_path g start end_ = Returns no_route
     ∧ find_route_least_changes g start end_ = Returns no_route)
  ∧ (∀ e, shortest_path_body g start end_ = Raises e →
          find_shortest_path g start end_ = Returns no_route)
  ∧ (∀ e, least_changes_body g start end_ = Raises e →
          find_route_least_changes g start end_ = Returns no_route).
Proof.
  split; [apply find_shortest_path_returns|].
  split; [apply find_route_least_changes_returns|].
  split; [|split].
  - intros [->|[->|H]].
    + done.
    + unfold find_shortest_path, find_route_least_changes.
      by rewrite !orb_true_r.
    + by apply unresolved_no_route.
  - intros e He. unfold find_shortest_path. rewrite He.
    by destruct (_ || _).
  - intros e He. unfold find_route_least_changes. rewrite He.
    by destruct (_ || _).
Qed.

(** ** All routes *)


(** ** The shortest-path loop on a well-formed network *)





Lemma weighted_walk_eq g a b w w' :
  weighted_walk g a b w → (w == w')%Q → weighted_walk g a b w'.
Proof.
  intros H E. destruct H as [w H|b c w0 w1 w2 H1 H2 H3].
  - apply ww_refl. by rewrite <- E.
  - apply (ww_step g a b c w0 w1 w'); [done|done|]. by rewrite <- E.
Qed.

Lemma weighted_walk_nonneg g a b w :
  well_formed g → weighted_walk g a b w → (0 <= w)%Q.
Proof.
  intros Hwf H. induction H as [w H|b c w0 w1 w2 H1 IH H2 H3].
  - rewrite H. apply Qle_refl.
  - pose proof (wf_nonneg g Hwf _ _ _ H2). lra.
Qed.


Lemma weighted_walk_app g a b c w w' :
  weighted_walk g a b w → weighted_walk g b c w' → weighted_walk g a c (w + w').
Proof.
  intros H1 H2. induction H2 as [w' H|x c w0 w1 w2 H2 IH H3 H4].
  - eapply weighted_walk_eq; [done|lra].
  - apply (ww_step g a x c (w + w0) w1); [by apply IH|done|lra].
Qed.



















(** ** The network of the constructor is well formed *)

Section DictKeys.
Context {V : Type}.
Implicit Types d : list (string * V).

Lemma dict_set_keys k v d x : x ∈ (dict_set k v d).*1 → x = k ∨ x ∈ d.*1.
Proof.
  induction d as [|[k0 v0] d IH]; cbn.
  - intros ->%list_elem_of_singleton. by left.
  - destruct (String.eqb k k0) eqn:E; cbn.
    + apply String.eqb_eq in E as ->. intros [->|H]%elem_of_cons; [by left|].
      right. by right.
    + intros [->|H]%elem_of_cons; [right; left|].
      destruct (IH H) as [->|H']; [by left|right; by right].
Qed.

Lemma dict_set_NoDup k v d : NoDup d.*1 → NoDup (dict_set k v d).*1.
Proof.
  induction d as [|[k0 v0] d IH]; cbn.
  - intros _. apply NoDup_singleton.
  - intros [Hk0 Hd]%NoDup_cons. destruct (String.eqb k k0) eqn:E; cbn.
    + apply String.eqb_eq in E as ->. by apply NoDup_cons.
    + apply String.eqb_neq in E. apply NoDup_cons. split; [|by apply IH].
      intros [->|H]%dict_set_keys; done.
Qed.

Lemma dict_get_elem_NoDup k v d : NoDup d.*1 → (k, v) ∈ d → dict_get k d = Some v.
Proof.
  induction d as [|[k0 v0] d IH]; cbn.
  - by intros _ ?%elem_of_nil.
  - intros [Hk0 Hd]%NoDup_cons [[= -> ->]|Hin]%elem_of_cons.
    + by rewrite String.eqb_refl.
    + destruct (String.eqb k k0) eqn:E; [|by apply IH].
      apply String.eqb_eq in E as ->. destruct Hk0.
      apply list_elem_of_fmap. by exists (k0, v).
Qed.
End DictKeys.

Lemma add_connection_NoDup st e :
  (∀ k nb, st.2 !! k = Some nb → NoDup nb.*1) →
  ∀ k nb, (add_connection st e).2 !! k = Some nb → NoDup nb.*1.
Proof.
  destruct st as [sts gr], e as [[s1 s2] d]. cbn [snd]. intros Hnd.
  unfold add_connection. cbn [snd].
  set (g1 := match gr !! s1 with None => _ | Some _ => gr end).
  set (g2 := match g1 !! s2 with None => _ | Some _ => g1 end).
  assert (H1 : ∀ k nb, g1 !! k = Some nb → NoDup nb.*1).
  { subst g1. destruct (gr !! s1); [done|]. intros k nb.
    destruct (decide (s1 = k)) as [->|?].
    - rewrite lookup_insert_eq. intros [= <-]. constructor.
    - rewrite lookup_insert_ne by done. apply Hnd. }
  assert (H2 : ∀ k nb, g2 !! k = Some nb → NoDup nb.*1).
  { subst g2. destruct (g1 !! s2); [done|]. intros k nb.
    destruct (decide (s2 = k)) as [->|?].
    - rewrite lookup_insert_eq. intros [= <-]. constructor.
    - rewrite lookup_insert_ne by done. apply H1. }
  assert (H3 : ∀ k nb, alter (dict_set s2 d) s1 g2 !! k = Some nb → NoDup nb.*1).
  { intros k nb. destruct (decide (s1 = k)) as [->|?].
    - rewrite lookup_alter_eq. destruct (g2 !! k) as [nb0|] eqn:E; [|done].
      cbn. intros [= <-]. apply dict_set_NoDup. by eapply H2.
    - rewrite lookup_alter_ne by done. apply H2. }
  intros k nb. destruct (decide (s2 = k)) as [<-|?].
  - rewrite lookup_alter_eq.
    destruct (alter (dict_set s2 d) s1 g2 !! s2) as [nb0|] eqn:E; [|done].
    cbn. intros [= <-]. apply dict_set_NoDup. by eapply H3.
  - rewrite lookup_alter_ne by done. apply H3.
Qed.

Lemma build_NoDup table st :
  (∀ k nb, st.2 !! k = Some nb → NoDup nb.*1) →
  ∀ k nb, (foldl add_connection st table).2 !! k = Some nb → NoDup nb.*1.
Proof.
  revert st. induction table as [|e table IH]; intros st Hnd; [done|].
  cbn [foldl]. apply IH. by apply add_connection_NoDup.
Qed.

Lemma initialize_edge tables a b w :
  edge_of (initialize_metro_network tables) a b w
  ↔ weight (graph (initialize_metro_network tables)) a b = Some w.
Proof.
  unfold edge_of, weight. split.
  - intros (nb & Hnb & Hin). rewrite Hnb. cbn.
    apply dict_get_elem_NoDup; [|done].
    rewrite initialize_graph in Hnb.
    eapply (build_NoDup _ (∅, ∅)); [|done]. cbn. intros k nb'.
    by rewrite lookup_empty.
  - destruct (graph _ !! a) as [nb|]; [|done]. cbn.
    intros H%dict_get_Some_elem. eauto.
Qed.


(** ** Shortest distances *)









(** ** The cost of riding along a path *)

Lemma path_cost_snoc g p nb :
  p ≠ [] → path_cost g (p ++ [nb]) = cost_step g (path_cost g p) nb.
Proof.
  destruct p as [|a p]; [done|]. intros _. cbn [path_cost app].
  by rewrite foldl_app.
Qed.

Lemma path_cost_station g p : p ≠ [] → last p = Some (path_cost g p).1.2.
Proof.
  destruct p as [|x p] using rev_ind; [done|]. intros _. rewrite last_snoc.
  destruct p as [|a p]; [done|].
  rewrite path_cost_snoc by done.
  destruct (path_cost g (a :: p)) as [[[c d] cur] L]. cbn.
  by destruct (ride g c L x).
Qed.

Lemma hop_weight_item g cur nbrs nb w :
  keys_distinct g → graph g !! cur = Some nbrs → (nb, w) ∈ nbrs →
  hop_weight g cur nb = w.
Proof.
  intros Hk Hg Hin. unfold hop_weight, weight. rewrite Hg. cbn.
  by rewrite (dict_get_elem_NoDup nb w nbrs (Hk _ _ Hg) Hin).
Qed.

Lemma advance_consistent g e nbrs item :
  keys_distinct g → entry_consistent g e →
  graph g !! entry_station e = Some nbrs → item ∈ nbrs →
  entry_path e ≠ [] →
  entry_consistent g (advance g e item).
Proof.
  destruct e as [[[[c d] cur] p] L], item as [nb w].
  unfold entry_consistent. cbn [entry_path entry_changes entry_dist entry_station
                                 entry_lines].
  intros Hk Hc Hg Hin Hp.
  unfold advance. fold (ride g c L nb).
  assert (Hpc : path_cost g (p ++ [nb]) = cost_step g (c, d, cur, L) nb).
  { by rewrite path_cost_snoc, Hc. }
  unfold cost_step in Hpc. rewrite (hop_weight_item g cur nbrs nb w) in Hpc by done.
  unfold ride in *. by destruct (negb (is_empty (L ∩ lines_at g nb))).
Qed.

Lemma least_changes_pass_good g start end_ st st' :
  keys_distinct g →
  (∀ e, e ∈ lc_pq st → entry_ok g start e ∧ entry_consistent g e) →
  least_changes_pass g end_ st = Returns (Continue st') →
  ∀ e, e ∈ lc_pq st' → entry_ok g start e ∧ entry_consistent g e.
Proof.
  intros Hk Hok.
  destruct (least_changes_pass_cases g end_ st) as
    [[_ ->]|(c&d&cur&p&ls&rest&Hpop&[[_ ->]|[_ [(seen&_&_&->)|[_ [[_ ->]|
       (nbrs&queue&Hg&Hfor&->)]]]]])]; try done.
  all: pose proof (heappop_Permutation _ _ _ _ Hpop) as Hperm.
  - intros [= <-] e He. apply Hok. rewrite Hperm. by right.
  - intros [= <-] e He. cbn in He.
    destruct (extend_for_in_elem _ _ _ _ _ _ Hfor He) as [Hr|(item&Hit&Hnp&->)].
    + apply Hok. rewrite Hperm. by right.
    + destruct (Hok (c, d, cur, p, ls)) as [Hwalk Hcons]; [rewrite Hperm; left|].
      split.
      * by eapply advance_ok.
      * eapply advance_consistent; try done.
        destruct Hwalk as [(Hh & _) _]. cbn in Hh. by destruct p.
Qed.


Lemma continuous_app_inv g p q : continuous g (p ++ q) → continuous g p.
Proof.
  induction p as [|a p IH]; [done|]. cbn [app continuous].
  intros [Ha Hc]. split; [|by apply IH]. destruct p as [|b p]; [done|]. done.
Qed.

Lemma continuous_last g p b :
  continuous g (p ++ [b]) →
  match last p with Some a => adjacent g a b | None => True end.
Proof.
  induction p as [|a p IH]; [done|]. cbn [app continuous].
  intros [Ha Hc]. destruct p as [|a' p]; [done|].
  rewrite last_cons_cons. by apply IH.
Qed.

(** ** The cost of a path in terms of its line changes and edge weights *)

Lemma is_empty_true X : is_empty X = true ↔ X = ∅.
Proof. unfold is_empty. apply bool_decide_eq_true. Qed.

Lemma is_empty_false X : is_empty X = false ↔ X ≠ ∅.
Proof. unfold is_empty. apply bool_decide_eq_false. Qed.





















(** ** The least-changes search is optimal *)



















(** ** The Delhi network *)






(** ** More on fares *)

Lemma float_le_trans a b c : float_le a b → float_le b c → float_le a c.
Proof.
  destruct a as [x| | |], b as [y| | |], c as [z| | |]; cbn; try tauto.
  apply Qle_trans.
Qed.

Lemma token_fare_cases d b :
  token_fare (calculate_fare d b)
  = (if float_leb d (Finite 2) then 10
     else if float_leb d (Finite 5) then 20
     else if float_leb d (Finite 12) then 30
     else if float_leb d (Finite 21) then 40
     else if float_leb d (Finite 32) then 50
     else 60)%Z.
Proof. done. Qed.

(** The smart-card discount loses nothing to rounding: for every distance
    the smart-card fare is exactly nine tenths of the token fare, the
    savings are exactly one tenth, and a ride is never free. *)
Theorem fare_discount_exact (d : float) (use_smart_card : bool) :
  let f := calculate_fare d use_smart_card in
  (10 * smart_card_fare f = 9 * token_fare f
   ∧ 10 * savings f = token_fare f
   ∧ 0 < smart_card_fare f <= recommended_fare f
   ∧ recommended_fare f <= token_fare f)%Z.
Proof.
  unfold calculate_fare.
  destruct (float_leb d (Finite 2)); [by destruct use_smart_card; vm_compute|].
  destruct (float_leb d (Finite 5)); [by destruct use_smart_card; vm_compute|].
  destruct (float_leb d (Finite 12)); [by destruct use_smart_card; vm_compute|].
  destruct (float_leb d (Finite 21)); [by destruct use_smart_card; vm_compute|].
  destruct (float_leb d (Finite 32)); by destruct use_smart_card; vm_compute.
Qed.

(** A longer ride never costs less: the token fare is monotone in the
    distance. *)
Theorem fare_monotone (d1 d2 : float) (use_smart_card : bool) :
  float_le d1 d2 →
  (token_fare (calculate_fare d1 use_smart_card)
   <= token_fare (calculate_fare d2 use_smart_card))%Z.
Proof.
  intros Hle. rewrite !token_fare_cases.
  assert (Hk : ∀ k, float_leb d2 (Finite k) = true → float_leb d1 (Finite k) = true).
  { intros k H%float_leb_le. apply float_leb_le. by eapply float_le_trans. }
  destruct (float_leb d2 (Finite 2)) eqn:E2; [by rewrite (Hk _ E2)|].
  destruct (float_leb d2 (Finite 5)) eqn:E5;
    [rewrite (Hk _ E5); by destruct (float_leb d1 _)|].
  destruct (float_leb d2 (Finite 12)) eqn:E12;
    [rewrite (Hk _ E12); by repeat destruct (float_leb d1 _)|].
  destruct (float_leb d2 (Finite 21)) eqn:E21;
    [rewrite (Hk _ E21); by repeat destruct (float_leb d1 _)|].
  destruct (float_leb d2 (Finite 32)) eqn:E32;
    [rewrite (Hk _ E32); by repeat destruct (float_leb d1 _)|].
  by repeat destruct (float_leb d1 _).
Qed.

Lemma fare_monotone_witness :
  (token_fare (calculate_fare (Finite 4.9) true)
   <= token_fare (calculate_fare (Finite 12.5) true))%Z.
Proof.
  apply (fare_monotone (Finite 4.9) (Finite 12.5) true). vm_compute. discriminate.
Defined.

(** The fall-back fare of [dmrc_api.py] is the token fare of
    [MetroGraph.calculate_fare], for every distance. *)
Theorem local_fare_agrees (d : float) (use_smart_card : bool) :
  calculate_fare_locally d = token_fare (calculate_fare d use_smart_card).
Proof. by rewrite token_fare_cases. Qed.

(** ** The line-change analyser *)

Lemma line_change_step_cases g lcs L i s :
  line_change_step g (lcs, L, i) s
  = (lcs ++ [ {| lc_station := s; from_lines := L; to_lines := lines_at g s;
                 position := i |} ], lines_at g s, S i)
    ∧ L ∩ lines_at g s = ∅ ∧ L ≠ ∅ ∧ lines_at g s ≠ ∅
  ∨ line_change_step g (lcs, L, i) s = (lcs, L ∩ lines_at g s, S i)
    ∧ L ∩ lines_at g s ≠ ∅
  ∨ line_change_step g (lcs, L, i) s = (lcs, L, S i)
    ∧ L ∩ lines_at g s = ∅ ∧ (L = ∅ ∨ lines_at g s = ∅).
Proof.
  unfold line_change_step.
  destruct (is_empty (L ∩ lines_at g s)) eqn:Ec;
    [apply is_empty_true in Ec|apply is_empty_false in Ec]; cbn [andb negb].
  - destruct (is_empty L) eqn:EL;
      [apply is_empty_true in EL|apply is_empty_false in EL]; cbn [andb negb].
    { right. right. auto. }
    destruct (is_empty (lines_at g s)) eqn:Es;
      [apply is_empty_true in Es|apply is_empty_false in Es]; cbn [andb negb].
    { right. right. auto. }
    left. auto.
  - right. left. auto.
Qed.

(** What the loop over [rest] keeps true, [path] being the whole path. *)
Lemma line_changes_fold g first rest :
  ∀ lcs L i, foldl (line_change_step g) ([], lines_at g first, 1) rest = (lcs, L, i) →
    i = S (length rest)
    ∧ (∀ ch, ch ∈ lcs →
         0 < position ch < i
         ∧ (first :: rest) !! position ch = Some (lc_station ch)
         ∧ to_lines ch = lines_at g (lc_station ch)
         ∧ from_lines ch ≠ ∅ ∧ to_lines ch ≠ ∅
         ∧ from_lines ch ∩ to_lines ch = ∅)
    ∧ (∀ j k ch1 ch2, lcs !! j = Some ch1 → lcs !! k = Some ch2 → j < k →
         position ch1 < position ch2).
Proof.
  induction rest as [|s rest IH] using rev_ind; intros lcs L i.
  - cbn. intros [= <- <- <-]. split; [done|]. split.
    + intros ch Hch. by apply elem_of_nil in Hch.
    + intros j k ch1 ch2 H. by rewrite lookup_nil in H.
  - rewrite foldl_app. cbn [foldl].
    destruct (foldl (line_change_step g) ([], lines_at g first, 1) rest)
      as [[lcs0 L0] i0] eqn:E.
    destruct (IH lcs0 L0 i0 eq_refl) as (Hi & Hall & Hinc).
    assert (Hold : ∀ ch, ch ∈ lcs0 →
              0 < position ch < S i0
              ∧ (first :: rest ++ [s]) !! position ch = Some (lc_station ch)
              ∧ to_lines ch = lines_at g (lc_station ch)
              ∧ from_lines ch ≠ ∅ ∧ to_lines ch ≠ ∅
              ∧ from_lines ch ∩ to_lines ch = ∅).
    { intros ch Hch. destruct (Hall ch Hch) as (Hp & Hl & Hrest).
      split; [lia|]. split; [|done].
      change (first :: rest ++ [s]) with ((first :: rest) ++ [s]).
      rewrite lookup_app_l; [done|]. cbn [length]. lia. }
    destruct (line_change_step_cases g lcs0 L0 i0 s)
      as [(-> & Hc & HL & Hs)|[(-> & Hc)|(-> & Hc & Hor)]]; intros [= <- <- <-].
    + split; [rewrite length_app; cbn; lia|]. split.
      * intros ch [Hch| ->%list_elem_of_singleton]%elem_of_app; [by apply Hold|].
        cbn. split; [lia|]. split; [|done].
        change (first :: rest ++ [s]) with ((first :: rest) ++ [s]).
        rewrite lookup_app_r; cbn [length]; [|lia].
        by replace (i0 - S (length rest)) with 0 by lia.
      * intros j k ch1 ch2 H1 H2 Hjk.
        assert (Hj : j < length lcs0).
        { apply lookup_lt_Some in H2. rewrite length_app in H2. cbn in H2. lia. }
        rewrite lookup_app_l in H1 by done.
        destruct (decide (k < length lcs0)) as [Hk|Hk].
        -- rewrite lookup_app_l in H2 by done. by eapply Hinc.
        -- rewrite lookup_app_r in H2 by lia.
           apply list_lookup_singleton_Some in H2 as [_ <-]. cbn.
           apply list_elem_of_lookup_2, Hall in H1. lia.
    + split; [rewrite length_app; cbn; lia|]. split; [exact Hold|exact Hinc].
    + split; [rewrite length_app; cbn; lia|]. split; [exact Hold|exact Hinc].
Qed.

(** Every reported change sits at a position of the path after the first,
    names the station at that position, leads to the lines of that station,
    and joins two non-empty sets of lines that have nothing in common. *)
Theorem line_changes_placed g path ch :
  ch ∈ identify_line_changes g path →
  0 < position ch < length path
  ∧ path !! position ch = Some (lc_station ch)
  ∧ to_lines ch = lines_at g (lc_station ch)
  ∧ from_lines ch ≠ ∅ ∧ to_lines ch ≠ ∅
  ∧ from_lines ch ∩ to_lines ch = ∅.
Proof.
  destruct path as [|first rest]; [by intros ?%elem_of_nil|].
  unfold identify_line_changes.
  destruct (foldl (line_change_step g) ([], lines_at g first, 1) rest)
    as [[lcs L] i] eqn:E.
  destruct (line_changes_fold g first rest lcs L i E) as (-> & Hall & _).
  cbn [fst]. intros Hch. by apply Hall.
Qed.

Lemma line_changes_placed_witness :
  let ch := {| lc_station := "Mandi House";
               from_lines := {["Yellow"]}; to_lines := {["Blue"; "Violet"]};
               position := 1 |} in
  0 < position ch < 2
  ∧ ["Patel Chowk"; "Mandi House"] !! position ch = Some (lc_station ch)
  ∧ to_lines ch = lines_at metro (lc_station ch)
  ∧ from_lines ch ≠ ∅ ∧ to_lines ch ≠ ∅
  ∧ from_lines ch ∩ to_lines ch = ∅.
Proof.
  apply (line_changes_placed metro ["Patel Chowk"; "Mandi House"]).
  vm_compute. left.
Defined.

(** The reported changes come in the order of the path: their positions
    increase strictly, so a path has fewer changes than stations. *)
Theorem line_changes_increasing g path :
  (∀ j k ch1 ch2,
     identify_line_changes g path !! j = Some ch1 →
     identify_line_changes g path !! k = Some ch2 →
     j < k → position ch1 < position ch2)
  ∧ (path ≠ [] → length (identify_line_changes g path) < length path).
Proof.
  destruct path as [|first rest].
  { split; [|done]. intros j k ch1 ch2 H. unfold identify_line_changes in H.
    by rewrite lookup_nil in H. }
  unfold identify_line_changes.
  destruct (foldl (line_change_step g) ([], lines_at g first, 1) rest)
    as [[lcs L] i] eqn:E.
  destruct (line_changes_fold g first rest lcs L i E) as (-> & Hall & Hinc).
  cbn [fst]. split; [exact Hinc|]. intros _.
  assert (Hlen : ∀ n, n < length lcs → ∃ ch, lcs !! n = Some ch ∧ n < position ch).
  { induction n as [|n IHn]; intros Hn.
    - destruct (lookup_lt_is_Some_2 lcs 0 Hn) as [ch Hch]. exists ch. split; [done|].
      apply list_elem_of_lookup_2, Hall in Hch. lia.
    - destruct IHn as (ch0 & Hch0 & Hp0); [lia|].
      destruct (lookup_lt_is_Some_2 lcs (S n) Hn) as [ch Hch]. exists ch.
      split; [done|]. specialize (Hinc n (S n) ch0 ch Hch0 Hch). lia. }
  destruct (decide (length lcs = 0)) as [->|Hne]; [cbn; lia|].
  destruct (Hlen (length lcs - 1)) as (ch & Hch & Hp); [lia|].
  apply list_elem_of_lookup_2, Hall in Hch. cbn [length]. lia.
Qed.

(** A path whose stations are all on one line has no change. *)
Theorem one_line_no_change g path line :
  (∀ s, s ∈ path → line ∈ lines_at g s) → identify_line_changes g path = [].
Proof.
  destruct path as [|first rest]; [done|]. intros Hline.
  unfold identify_line_changes.
  assert (H : ∀ L i, line ∈ L →
            ∃ L' i', foldl (line_change_step g) ([], L, i) rest = ([], L', i')).
  { assert (Hrest : ∀ s, s ∈ rest → line ∈ lines_at g s).
    { intros s Hs. apply Hline. by right. }
    clear Hline. induction rest as [|s rest IH]; intros L i HL; [by eexists _, _|].
    cbn [foldl].
    destruct (line_change_step_cases g [] L i s)
      as [(-> & Hc & _)|[(-> & Hc)|(-> & Hc & _)]].
    - exfalso. assert (line ∈ L ∩ lines_at g s); [|set_solver].
      apply elem_of_intersection. split; [done|]. apply Hrest. left.
    - apply IH.
      + intros s' Hs'. apply Hrest. by right.
      + apply elem_of_intersection. split; [done|]. apply Hrest. left.
    - exfalso. assert (line ∈ L ∩ lines_at g s); [|set_solver].
      apply elem_of_intersection. split; [done|]. apply Hrest. left. }
  destruct (H (lines_at g first) 1) as (L' & i' & ->); [|done].
  apply Hline. left.
Qed.

Lemma one_line_no_change_witness :
  identify_line_changes metro ["Rajiv Chowk"; "New Delhi"; "Chawri Bazar"] = [].
Proof.
  apply (one_line_no_change metro ["Rajiv Chowk"; "New Delhi"; "Chawri Bazar"] "Yellow").
  intros s Hs. repeat (apply elem_of_cons in Hs as [->|Hs]; [by vm_compute|]).
  by apply elem_of_nil in Hs.
Defined.

(** ** More on the network *)

(** The adjacency mapping is symmetric for any two names, and it joins two
    names only when some table entry does, with the distance of that
    entry. *)
Theorem adjacency_symmetric tables a b :
  weight (graph (initialize_metro_network tables)) a b
  = weight (graph (initialize_metro_network tables)) b a
  ∧ ∀ d, weight (graph (initialize_metro_network tables)) a b = Some d →
         ∃ s1 s2, (s1, s2, d) ∈ all_lines tables
                  ∧ (s1 = a ∧ s2 = b ∨ s1 = b ∧ s2 = a).
Proof.
  rewrite !initialize_weight. split; [apply last_distance_sym|].
  intros d (s1 & s2 & Hin & Hj)%last_distance_Some. exists s1, s2.
  split; [done|]. cbn in Hj.
  apply orb_true_iff in Hj as [[H1 H2]%andb_true_iff|[H1 H2]%andb_true_iff];
    apply String.eqb_eq in H1, H2; auto.
Qed.

(** The stations are exactly the names with at least one neighbour: no
    station is isolated, and no name outside the station set has an edge. *)
Theorem stations_have_neighbours tables s :
  s ∈ stations (initialize_metro_network tables)
  ↔ ∃ nb w, edge_of (initialize_metro_network tables) s nb w
            ∧ nb ∈ stations (initialize_metro_network tables).
Proof.
  split.
  - intros Hs. pose proof Hs as Hs'.
    rewrite initialize_stations, build_stations in Hs. cbn [fst] in Hs.
    destruct Hs as [Hs|(s1 & s2 & d & Hin & Hor)]; [set_solver|].
    destruct (last_distance_joined _ _ _ _ Hin) as [d' Hd'].
    assert (H12 : s1 ∈ stations (initialize_metro_network tables)
                  ∧ s2 ∈ stations (initialize_metro_network tables)).
    { rewrite initialize_stations, !build_stations. naive_solver. }
    destruct Hor as [->| ->].
    + exists s2, d'. split; [|apply H12]. by rewrite initialize_edge, initialize_weight.
    + exists s1, d'. split; [|apply H12].
      by rewrite initialize_edge, initialize_weight, last_distance_sym.
  - intros (nb & w & (nbrs & Hg & _) & _).
    rewrite <- initialize_dom_stations. apply elem_of_dom. eauto.
Qed.

(** *** The lines of a station *)

Lemma elem_of_line_stations table s : s ∈ line_stations table ↔ on_table table s.
Proof.
  unfold line_stations, on_table. rewrite list_elem_of_In, in_flat_map. split.
  - intros ([[a b] d] & Hin & Hs). exists a, b, d.
    split; [by apply list_elem_of_In|]. cbn in Hs. naive_solver.
  - intros (a & b & d & Hin & Hs). exists (a, b, d).
    split; [by apply list_elem_of_In|]. cbn. destruct Hs as [->| ->]; auto.
Qed.

Lemma dict_set_fresh {V} k (v : V) d : k ∉ d.*1 → dict_set k v d = d ++ [(k, v)].
Proof.
  induction d as [|[k' v'] d IH]; [done|]. cbn. intros Hk.
  destruct (String.eqb k k') eqn:E.
  - apply String.eqb_eq in E as ->. set_solver.
  - rewrite IH; [done|]. set_solver.
Qed.

Lemma initialize_lines tables :
  lines (initialize_metro_network tables)
  = foldl (λ d t, dict_set t.1 (line_stations t.2) d) [] tables.
Proof.
  unfold initialize_metro_network.
  by destruct (foldl add_connection (∅, ∅) (flat_map snd tables)).
Qed.

Lemma initialize_station_lines tables :
  station_lines (initialize_metro_network tables)
  = foldl (λ sl l, foldl (add_station_line l.1) sl l.2) ∅
      (lines (initialize_metro_network tables)).
Proof.
  unfold initialize_metro_network.
  by destruct (foldl add_connection (∅, ∅) (flat_map snd tables)).
Qed.

(** With distinct names, [self.lines] lists the tables in their order. *)
Lemma lines_distinct tables :
  NoDup tables.*1 →
  lines (initialize_metro_network tables)
  = (λ t : string * list edge, (t.1, line_stations t.2)) <$> tables.
Proof.
  rewrite initialize_lines. intros Hnd.
  assert (H : ∀ d : list (string * list string),
            (∀ k, k ∈ tables.*1 → k ∉ d.*1) →
            foldl (λ d t, dict_set t.1 (line_stations t.2) d) d tables
            = d ++ ((λ t : string * list edge, (t.1, line_stations t.2)) <$> tables)).
  { induction tables as [|[n t] tables IH]; intros d Hd.
    - by rewrite app_nil_r.
    - cbn [foldl fmap list_fmap fst snd]. apply NoDup_cons in Hnd as [Hn Hnd].
      rewrite dict_set_fresh by (apply Hd; left).
      rewrite IH; [by rewrite <- app_assoc|done|].
      intros k Hk. rewrite fmap_app. cbn. intros [Hin| ->%list_elem_of_singleton]%elem_of_app.
      + apply (Hd k); [by right|done].
      + done. }
  apply (H []). intros k _. apply not_elem_of_nil.
Qed.

Lemma add_station_line_elem name sl s s' x :
  x ∈ default [] (add_station_line name sl s !! s')
  ↔ x ∈ default [] (sl !! s') ∨ (x = name ∧ s' = s).
Proof.
  unfold add_station_line.
  set (sl1 := match sl !! s with None => <[s := []]> sl | Some _ => sl end).
  assert (H1 : default [] (sl1 !! s') = default [] (sl !! s')).
  { subst sl1. destruct (sl !! s) eqn:E; [done|].
    destruct (decide (s = s')) as [<-|Hne].
    - by rewrite lookup_insert_eq, E.
    - by rewrite lookup_insert_ne. }
  assert (H2 : is_Some (sl1 !! s)).
  { subst sl1. destruct (sl !! s) eqn:E; [by rewrite E|].
    by rewrite lookup_insert_eq. }
  destruct (decide (s = s')) as [<-|Hne].
  - rewrite lookup_alter_eq. destruct H2 as [ls Hls]. rewrite Hls in *. cbn in *.
    rewrite <- H1. case_bool_decide as Hin.
    + split; [auto|]. intros [?|[-> _]]; done.
    + rewrite elem_of_app, list_elem_of_singleton. naive_solver.
  - rewrite lookup_alter_ne by done. rewrite H1. naive_solver.
Qed.

Lemma add_station_line_NoDup name sl s s' :
  NoDup (default [] (sl !! s')) →
  NoDup (default [] (add_station_line name sl s !! s')).
Proof.
  unfold add_station_line.
  set (sl1 := match sl !! s with None => <[s := []]> sl | Some _ => sl end).
  assert (H1 : default [] (sl1 !! s') = default [] (sl !! s')).
  { subst sl1. destruct (sl !! s) eqn:E; [done|].
    destruct (decide (s = s')) as [<-|Hne].
    - by rewrite lookup_insert_eq, E.
    - by rewrite lookup_insert_ne. }
  rewrite <- H1. destruct (decide (s = s')) as [<-|Hne].
  - rewrite lookup_alter_eq. destruct (sl1 !! s) as [ls|]; cbn; [|done].
    case_bool_decide as Hin; [done|]. intros Hnd.
    apply NoDup_app. split; [done|]. split; [|apply NoDup_singleton].
    intros x Hx ->%list_elem_of_singleton. done.
  - by rewrite lookup_alter_ne.
Qed.

Lemma station_lines_inner name sts sl s' x :
  x ∈ default [] (foldl (add_station_line name) sl sts !! s')
  ↔ x ∈ default [] (sl !! s') ∨ (x = name ∧ s' ∈ sts).
Proof.
  revert sl. induction sts as [|s sts IH]; intros sl; cbn [foldl].
  - split; [auto|]. intros [?|[_ ?%elem_of_nil]]; done.
  - rewrite IH, add_station_line_elem, elem_of_cons. naive_solver.
Qed.

Lemma station_lines_outer (ls : list (string * list string)) sl s' x :
  x ∈ default [] (foldl (λ sl l, foldl (add_station_line l.1) sl l.2) sl ls !! s')
  ↔ x ∈ default [] (sl !! s') ∨ ∃ sts, (x, sts) ∈ ls ∧ s' ∈ sts.
Proof.
  revert sl. induction ls as [|[n sts] ls IH]; intros sl; cbn [foldl fst snd].
  - split; [auto|]. intros [?|(? & ?%elem_of_nil & _)]; done.
  - rewrite IH, station_lines_inner. split.
    + intros [[?|[-> ?]]|(sts' & Hin & Hs)]; [by left| |].
      * right. exists sts. split; [left|done].
      * right. exists sts'. split; [by right|done].
    + intros [?|(sts' & [[= -> ->]|Hin]%elem_of_cons & Hs)]; [by left; left| |].
      * left. by right.
      * right. eauto.
Qed.

Lemma station_lines_NoDup_fold (ls : list (string * list string)) sl s' :
  NoDup (default [] (sl !! s')) →
  NoDup (default [] (foldl (λ sl l, foldl (add_station_line l.1) sl l.2) sl ls !! s')).
Proof.
  revert sl. induction ls as [|[n sts] ls IH]; intros sl Hnd; [done|].
  cbn [foldl fst snd]. apply IH. clear IH. revert sl Hnd.
  induction sts as [|s sts IH]; intros sl Hnd; [done|]. cbn [foldl].
  by apply IH, add_station_line_NoDup.
Qed.

Lemma lines_at_tables tables line s :
  NoDup tables.*1 →
  line ∈ lines_at (initialize_metro_network tables) s
  ↔ ∃ table, (line, table) ∈ tables ∧ on_table table s.
Proof.
  intros Hnd. unfold lines_at.
  rewrite elem_of_list_to_set, initialize_station_lines, station_lines_outer.
  rewrite lookup_empty, (lines_distinct tables Hnd). cbn [default]. split.
  - intros [[]%elem_of_nil|(sts & Hin & Hs)].
    apply list_elem_of_fmap in Hin as ([n t] & [= -> ->] & Hin).
    exists t. split; [done|]. by apply elem_of_line_stations.
  - intros (t & Hin & Hs). right. exists (line_stations t). split.
    + apply list_elem_of_fmap. by exists (line, t).
    + by apply elem_of_line_stations.
Qed.

(** With distinct table names, a station is on a line exactly when it is an
    end of an entry of the table of that line. *)
Theorem station_on_line tables line s :
  distinct_names tables = true →
  line ∈ lines_at (initialize_metro_network tables) s
  ↔ ∃ table, (line, table) ∈ tables ∧ on_table table s.
Proof. intros Hnd%bool_decide_eq_true. by apply lines_at_tables. Qed.

Lemma station_on_line_witness :
  "Violet" ∈ lines_at (initialize_metro_network line_tables) "Mandi House"
  ↔ ∃ table, ("Violet", table) ∈ line_tables ∧ on_table table "Mandi House".
Proof.
  apply (station_on_line line_tables "Violet" "Mandi House"). vm_compute. reflexivity.
Defined.

(** With distinct table names, the stations are exactly the names that are
    on some line. *)
Theorem stations_are_served tables s :
  distinct_names tables = true →
  s ∈ stations (initialize_metro_network tables)
  ↔ lines_at (initialize_metro_network tables) s ≠ ∅.
Proof.
  intros Hnd%bool_decide_eq_true.
  pose proof (λ line, lines_at_tables tables line s Hnd) as Hline.
  rewrite initialize_stations, build_stations. cbn [fst]. split.
  - intros [?|(a & b & d & Hin & Hor)]; [set_solver|].
    unfold all_lines in Hin. apply list_elem_of_In, in_flat_map in Hin
      as ([n t] & Ht & Hin). cbn in Hin.
    assert (n ∈ lines_at (initialize_metro_network tables) s); [|set_solver].
    apply Hline. exists t. split; [by apply list_elem_of_In|].
    exists a, b, d. split; [by apply list_elem_of_In|done].
  - intros Hne. apply set_choose_L in Hne as [line Hl].
    apply Hline in Hl as (t & Ht & a & b & d & Hin & Hor).
    right. exists a, b, d. split; [|done].
    unfold all_lines. apply list_elem_of_In, in_flat_map. exists (line, t).
    split; by apply list_elem_of_In.
Qed.

Lemma stations_are_served_witness :
  "Rajiv Chowk" ∈ stations (initialize_metro_network line_tables)
  ↔ lines_at (initialize_metro_network line_tables) "Rajiv Chowk" ≠ ∅.
Proof.
  apply (stations_are_served line_tables "Rajiv Chowk"). vm_compute. reflexivity.
Defined.

Lemma station_lines_NoDup tables s :
  NoDup (default [] (station_lines (initialize_metro_network tables) !! s)).
Proof.
  rewrite initialize_station_lines. apply station_lines_NoDup_fold.
  rewrite lookup_empty. constructor.
Qed.

(** The list of lines recorded for a station never names a line twice, so
    its length is the number of lines of the station. *)
Theorem station_lines_no_repeat tables s :
  NoDup (default [] (station_lines (initialize_metro_network tables) !! s))
  ∧ length (default [] (station_lines (initialize_metro_network tables) !! s))
    = size (lines_at (initialize_metro_network tables) s).
Proof.
  split; [apply station_lines_NoDup|].
  unfold lines_at. by rewrite size_list_to_set by apply station_lines_NoDup.
Qed.

(** ** Sorting *)

Lemma ascii_compare_lt_trans a b c :
  (a ?= b)%char = Lt → (b ?= c)%char = Lt → (a ?= c)%char = Lt.
Proof. unfold Ascii.compare. rewrite !N.compare_lt_iff. apply N.lt_trans. Qed.

Lemma ascii_compare_refl a : (a ?= a)%char = Eq.
Proof. unfold Ascii.compare. apply N.compare_refl. Qed.

Lemma string_compare_refl s : (s ?= s)%string = Eq.
Proof. induction s as [|c s IH]; [done|]. cbn. by rewrite ascii_compare_refl. Qed.

Lemma string_compare_lt_trans a b c :
  (a ?= b)%string = Lt → (b ?= c)%string = Lt → (a ?= c)%string = Lt.
Proof.
  revert b c. induction a as [|x a IH]; intros [|y b] [|z c]; cbn; try done.
  destruct (x ?= y)%char eqn:Exy; try done.
  - apply Ascii.compare_eq_iff in Exy as ->.
    destruct (y ?= z)%char; try done. apply IH.
  - intros _. destruct (y ?= z)%char eqn:Eyz; try done.
    + apply Ascii.compare_eq_iff in Eyz as <-. by rewrite Exy.
    + by rewrite (ascii_compare_lt_trans _ _ _ Exy Eyz).
Qed.

Lemma string_ltb_irrefl s : String.ltb s s = false.
Proof. unfold String.ltb. by rewrite string_compare_refl. Qed.

Lemma string_ltb_trans a b c :
  String.ltb a b = true → String.ltb b c = true → String.ltb a c = true.
Proof.
  unfold String.ltb.
  destruct (a ?= b)%string eqn:E1; try done.
  destruct (b ?= c)%string eqn:E2; try done.
  by rewrite (string_compare_lt_trans _ _ _ E1 E2).
Qed.

Lemma string_ltb_total a b :
  String.ltb a b = false → String.ltb b a = false → a = b.
Proof.
  unfold String.ltb. rewrite (String.compare_antisym b a).
  destruct (a ?= b)%string eqn:E; try done.
  intros _ _. by apply String.compare_eq_iff.
Qed.

Lemma string_ltb_asym a b : String.ltb a b = true → String.ltb b a = false.
Proof.
  intros H. destruct (String.ltb b a) eqn:E; [|done].
  pose proof (string_ltb_trans _ _ _ H E) as H'. by rewrite string_ltb_irrefl in H'.
Qed.

Lemma string_ltb_order : strict_order String.ltb.
Proof.
  split; [apply string_ltb_irrefl|apply string_ltb_trans|apply string_ltb_total].
Qed.

Section SortFacts.
Context {A : Type} (ltb : A → A → bool).

Lemma insert_sorted_Permutation x l : insert_sorted ltb x l ≡ₚ x :: l.
Proof.
  induction l as [|y l IH]; [done|]. cbn. destruct (ltb y x); [|done].
  rewrite IH. apply Permutation_swap.
Qed.

Lemma sorted_Permutation l : sorted ltb l ≡ₚ l.
Proof.
  induction l as [|x l IH]; [done|].
  change (sorted ltb (x :: l)) with (insert_sorted ltb x (sorted ltb l)).
  by rewrite insert_sorted_Permutation, IH.
Qed.

Hypothesis order : strict_order ltb.

Lemma so_asym a b : ltb a b = true → ltb b a = false.
Proof.
  intros H. destruct (ltb b a) eqn:E; [|done].
  pose proof (so_trans ltb order _ _ _ H E) as H'.
  by rewrite (so_irrefl ltb order) in H'.
Qed.

Lemma so_le_lt_trans a b c : ltb b a = false → ltb b c = true → ltb a c = true.
Proof.
  intros Hab Hbc. destruct (ltb a b) eqn:E.
  - by apply (so_trans ltb order a b c).
  - by rewrite (so_total ltb order a b E Hab).
Qed.

Lemma insert_sorted_ascending x l :
  x ∉ l → ascending ltb l → ascending ltb (insert_sorted ltb x l).
Proof.
  induction l as [|y l IH]; intros Hx Hl; cbn.
  - split; [|done]. intros y Hy. by apply elem_of_nil in Hy.
  - destruct Hl as [Hy Hl]. destruct (ltb y x) eqn:E.
    + split; [|apply IH; [set_solver|done]].
      intros z Hz. rewrite insert_sorted_Permutation in Hz.
      apply elem_of_cons in Hz as [->|Hz]; auto.
    + assert (Hxy : ltb x y = true).
      { destruct (ltb x y) eqn:E'; [done|].
        pose proof (so_total ltb order _ _ E' E). set_solver. }
      split; [|by split].
      intros z [->|Hz]%elem_of_cons; [done|].
      apply (so_trans ltb order x y z); auto.
Qed.

Lemma sorted_ascending l : NoDup l → ascending ltb (sorted ltb l).
Proof.
  induction l as [|x l IH]; [done|]. intros [Hx Hl]%NoDup_cons.
  change (sorted ltb (x :: l)) with (insert_sorted ltb x (sorted ltb l)).
  apply insert_sorted_ascending; [|by apply IH]. by rewrite sorted_Permutation.
Qed.

Lemma ascending_lookup l i j x y :
  ascending ltb l → l !! i = Some x → l !! j = Some y → i < j → ltb x y = true.
Proof.
  revert i j. induction l as [|z l IH]; intros i j Hl Hi Hj Hij; [done|].
  destruct Hl as [Hz Hl]. destruct j as [|j]; [lia|]. cbn in Hj.
  destruct i as [|i].
  - injection Hi as <-. apply Hz. by eapply list_elem_of_lookup_2.
  - cbn in Hi. apply (IH i j); [done..|lia].
Qed.

Lemma ascending_take n l : ascending ltb l → ascending ltb (take n l).
Proof.
  revert n. induction l as [|x l IH]; intros [|n] Hl; try done.
  destruct Hl as [Hx Hl]. cbn. split; [|by apply IH].
  intros y (i & Hi & _)%elem_of_take. apply Hx. by eapply list_elem_of_lookup_2.
Qed.

(** An ascending list is determined by its members. *)
Lemma ascending_unique l k : ascending ltb l → ascending ltb k → l ≡ₚ k → l = k.
Proof.
  revert k. induction l as [|x l IH]; intros k Hl Hk Hp.
  - by apply Permutation_nil_l in Hp.
  - destruct k as [|y k]; [by apply Permutation_nil_r in Hp|].
    destruct Hl as [Hx Hl], Hk as [Hy Hk].
    assert (Hxy : x = y).
    { assert (Hxin : x ∈ y :: k) by (rewrite <- Hp; left).
      assert (Hyin : y ∈ x :: l) by (rewrite Hp; left).
      apply elem_of_cons in Hxin as [?|Hxin]; [done|].
      apply elem_of_cons in Hyin as [?|Hyin]; [done|].
      pose proof (so_asym _ _ (Hx y Hyin)) as H1.
      by rewrite (Hy x Hxin) in H1. }
    subst y. f_equal. apply IH; [done..|]. by eapply Permutation_cons_inv.
Qed.

(** Sorting a duplicate-free list gives the same list for every order of
    its members. *)
Lemma sorted_order_independent l k :
  NoDup l → l ≡ₚ k → sorted ltb l = sorted ltb k.
Proof.
  intros Hl Hp. apply ascending_unique.
  - by apply sorted_ascending.
  - apply sorted_ascending. by rewrite <- Hp.
  - by rewrite !sorted_Permutation.
Qed.
End SortFacts.

(** ** The station lists *)

Lemma elem_of_filter_bool {A} (f : A → bool) l x :
  x ∈ List.filter f l ↔ x ∈ l ∧ f x = true.
Proof. by rewrite !list_elem_of_In, filter_In. Qed.

Lemma NoDup_filter_bool {A} (f : A → bool) l : NoDup l → NoDup (List.filter f l).
Proof. rewrite !NoDup_ListNoDup. apply List.NoDup_filter. Qed.

Lemma filter_bool_Permutation {A} (f : A → bool) l k :
  l ≡ₚ k → List.filter f l ≡ₚ List.filter f k.
Proof.
  induction 1 as [|x l k _ IH|x y l|l k m _ IH1 _ IH2]; cbn.
  - done.
  - destruct (f x); by rewrite IH.
  - destruct (f x), (f y); try done. apply Permutation_swap.
  - by rewrite IH1.
Qed.

(** [get_all_stations] lists every station once, in strictly increasing
    order of the names. *)
Theorem all_stations_sorted g :
  (∀ x, x ∈ get_all_stations g ↔ x ∈ stations g)
  ∧ length (get_all_stations g) = size (stations g)
  ∧ ∀ i j x y, get_all_stations g !! i = Some x → get_all_stations g !! j = Some y →
      i < j → String.ltb x y = true.
Proof.
  unfold get_all_stations. split; [|split].
  - intros x. by rewrite sorted_Permutation, elem_of_elements.
  - by rewrite sorted_Permutation.
  - intros i j x y. apply ascending_lookup.
    apply sorted_ascending; [apply string_ltb_order|apply NoDup_elements].
Qed.

(** [get_popular_stations] keeps the popular stations in their order and
    drops those that are not in the network; on the Delhi network none is
    dropped. *)
Theorem popular_stations_kept g :
  sublist (get_popular_stations g) POPULAR_STATIONS
  ∧ (∀ x, x ∈ get_popular_stations g ↔ x ∈ POPULAR_STATIONS ∧ x ∈ stations g)
  ∧ get_popular_stations metro = POPULAR_STATIONS.
Proof.
  split; [|split].
  - unfold get_popular_stations. induction POPULAR_STATIONS as [|x l IH]; cbn; [done|].
    case_bool_decide; by constructor.
  - intros x. unfold get_popular_stations.
    by rewrite elem_of_filter_bool, bool_decide_eq_true.
  - by vm_compute.
Qed.

(** *** [search_stations] *)

Lemma search_key_order ql :
  strict_order (λ a b : string, lt_bool_str (search_key ql a) (search_key ql b)).
Proof.
  unfold lt_bool_str, search_key. cbn [fst snd]. split.
  - intros a. rewrite Bool.eqb_reflx. apply string_ltb_irrefl.
  - intros a b c.
    destruct (negb (startswith (lower a) ql)), (negb (startswith (lower b) ql)),
      (negb (startswith (lower c) ql)); cbn; try done.
    all: apply string_ltb_trans.
  - intros a b.
    destruct (negb (startswith (lower a) ql)), (negb (startswith (lower b) ql));
      cbn; try done.
    all: apply string_ltb_total.
Qed.

Lemma search_stations_in_cases order query :
  (String.length query < 2 ∧ search_stations_in order query = [])
  ∨ (2 ≤ String.length query
     ∧ search_stations_in order query
       = take 10
           (sorted (λ a b : string,
                      lt_bool_str (search_key (lower query) a)
                                  (search_key (lower query) b))
              (List.filter (λ s : string, str_contains (lower query) (lower s))
                 order))).
Proof.
  unfold search_stations_in.
  destruct (String.length query <? 2) eqn:E.
  - left. apply Nat.ltb_lt in E. by rewrite orb_true_r.
  - right. apply Nat.ltb_ge in E. split; [done|].
    destruct query; [cbn in E; lia|]. done.
Qed.

(** A query of fewer than two characters finds nothing. *)
Theorem search_short_query g query :
  String.length query < 2 → search_stations g query = [].
Proof.
  intros H. unfold search_stations.
  destruct (search_stations_in_cases (elements (stations g)) query) as [[_ ->]|[? _]];
    [done|lia].
Qed.

Lemma search_short_query_witness : search_stations metro "R" = [].
Proof. apply (search_short_query metro "R"). cbn. lia. Defined.

(** [search_stations] returns at most ten stations, none twice, and each of
    them is a station whose lower-cased name contains the lower-cased
    query. *)
Theorem search_results_match g query :
  length (search_stations g query) ≤ 10
  ∧ NoDup (search_stations g query)
  ∧ ∀ x, x ∈ search_stations g query →
      x ∈ stations g ∧ str_contains (lower query) (lower x) = true
      ∧ 2 ≤ String.length query.
Proof.
  unfold search_stations.
  destruct (search_stations_in_cases (elements (stations g)) query)
    as [[_ ->]|[Hlen ->]].
  { split; [cbn; lia|]. split; [constructor|]. by intros x ?%elem_of_nil. }
  split; [rewrite length_take; lia|]. split.
  - eapply sublist_NoDup; [|apply sublist_take]. rewrite sorted_Permutation.
    apply NoDup_filter_bool, NoDup_elements.
  - intros x (i & Hi & _)%elem_of_take. apply list_elem_of_lookup_2 in Hi.
    rewrite sorted_Permutation, elem_of_filter_bool, elem_of_elements in Hi.
    tauto.
Qed.

(** In the result of [search_stations] the stations whose name starts with
    the query come first, and within each group the names increase. *)
Theorem search_results_ranked g query i j x y :
  search_stations g query !! i = Some x →
  search_stations g query !! j = Some y →
  i < j →
  (startswith (lower x) (lower query) = true
   ∧ startswith (lower y) (lower query) = false)
  ∨ (startswith (lower x) (lower query) = startswith (lower y) (lower query)
     ∧ String.ltb x y = true).
Proof.
  unfold search_stations.
  destruct (search_stations_in_cases (elements (stations g)) query)
    as [[_ ->]|[Hlen ->]]; [by rewrite lookup_nil|].
  intros Hi Hj Hij.
  assert (H : lt_bool_str (search_key (lower query) x) (search_key (lower query) y)
              = true).
  { refine (ascending_lookup
              (λ a b : string,
                 lt_bool_str (search_key (lower query) a) (search_key (lower query) b))
              _ i j x y _ Hi Hj Hij).
    apply ascending_take.
    apply sorted_ascending; [apply search_key_order|].
    apply NoDup_filter_bool, NoDup_elements. }
  unfold lt_bool_str, search_key in H. cbn [fst snd] in H.
  destruct (startswith (lower x) (lower query)),
    (startswith (lower y) (lower query)); cbn in H; auto; done.
Qed.

Lemma search_results_ranked_witness :
  (startswith (lower "Ramesh Nagar") (lower "ra") = true
   ∧ startswith (lower "Ashram") (lower "ra") = false)
  ∨ (startswith (lower "Ramesh Nagar") (lower "ra")
     = startswith (lower "Ashram") (lower "ra")
     ∧ String.ltb "Ramesh Nagar" "Ashram" = true).
Proof.
  apply (search_results_ranked metro "ra" 8 9 "Ramesh Nagar" "Ashram").
  - by vm_compute.
  - by vm_compute.
  - lia.
Defined.

Lemma ascending_drop_above {A} (ltb : A → A → bool) n l x y :
  ascending ltb l → x ∈ take n l → y ∈ drop n l → ltb x y = true.
Proof.
  intros Hl (i & Hi & Hin)%elem_of_take (j & Hj)%list_elem_of_lookup.
  rewrite lookup_drop in Hj.
  revert i n j Hi Hin Hj. induction l as [|z l IH]; intros i n j Hi Hin Hj; [done|].
  destruct Hl as [Hz Hl]. destruct n as [|n]; [lia|]. cbn in Hj.
  destruct i as [|i].
  - injection Hi as <-. apply Hz. by eapply list_elem_of_lookup_2.
  - cbn in Hi. apply (IH Hl i n j); [done|lia|done].
Qed.

(** The cut to ten results keeps the best: a matching station that is not
    returned ranks after all ten returned ones. *)
Theorem search_keeps_best g query s :
  2 ≤ String.length query → s ∈ stations g →
  str_contains (lower query) (lower s) = true →
  s ∈ search_stations g query
  ∨ (length (search_stations g query) = 10
     ∧ ∀ x, x ∈ search_stations g query →
         lt_bool_str (search_key (lower query) x) (search_key (lower query) s)
         = true).
Proof.
  intros Hq Hs Hm. unfold search_stations.
  destruct (search_stations_in_cases (elements (stations g)) query)
    as [[? _]|[_ ->]]; [lia|].
  set (cmp := λ a b : string,
         lt_bool_str (search_key (lower query) a) (search_key (lower query) b)).
  set (matches := List.filter _ _).
  assert (Hin : s ∈ sorted cmp matches).
  { rewrite sorted_Permutation. subst matches.
    by rewrite elem_of_filter_bool, elem_of_elements. }
  rewrite <- (take_drop 10 (sorted cmp matches)) in Hin.
  apply elem_of_app in Hin as [Hin|Hin]; [by left|]. right.
  assert (Hasc : ascending cmp (sorted cmp matches)).
  { apply sorted_ascending; [apply search_key_order|].
    subst matches. apply NoDup_filter_bool, NoDup_elements. }
  split.
  - rewrite length_take. apply list_elem_of_lookup in Hin as [j Hj].
    apply lookup_lt_Some in Hj. rewrite length_drop in Hj. lia.
  - intros x Hx. by apply (ascending_drop_above cmp 10 (sorted cmp matches)).
Qed.

Lemma search_keeps_best_witness :
  "Ashram" ∈ search_stations metro "ra"
  ∨ (length (search_stations metro "ra") = 10
     ∧ ∀ x, x ∈ search_stations metro "ra" →
         lt_bool_str (search_key (lower "ra") x) (search_key (lower "ra") "Ashram")
         = true).
Proof.
  apply (search_keeps_best metro "ra" "Ashram").
  - cbn. lia.
  - by vm_compute.
  - by vm_compute.
Defined.

(** The result of [search_stations] does not depend on the order in which
    the station set yields its members. *)
Theorem search_order_independent g order query :
  order ≡ₚ elements (stations g) →
  search_stations_in order query = search_stations g query.
Proof.
  intros Hp. unfold search_stations.
  destruct (search_stations_in_cases order query) as [[Hlen ->]|[Hlen ->]];
    destruct (search_stations_in_cases (elements (stations g)) query)
      as [[Hlen' ->]|[Hlen' ->]]; try done; try lia.
  f_equal. apply sorted_order_independent; [apply search_key_order| |].
  - apply NoDup_filter_bool. rewrite Hp. apply NoDup_elements.
  - by apply filter_bool_Permutation.
Qed.

Lemma search_order_independent_witness :
  search_stations_in (rev (elements (stations metro))) "nagar"
  = search_stations metro "nagar".
Proof.
  apply (search_order_independent metro (rev (elements (stations metro))) "nagar").
  symmetry. apply Permutation_rev.
Defined.

Lemma lower_char_idempotent c : lower_char (lower_char c) = lower_char c.
Proof. destruct c as [[] [] [] [] [] [] [] []]; reflexivity. Qed.

Lemma lower_idempotent s : lower (lower s) = lower s.
Proof.
  induction s as [|c s IH]; [done|]. cbn. by rewrite lower_char_idempotent, IH.
Qed.

Lemma lower_length s : String.length (lower s) = String.length s.
Proof. induction s as [|c s IH]; [done|]. cbn. by rewrite IH. Qed.

(** [search_stations] ignores the case of the query. *)
Theorem search_ignores_case g query :
  search_stations g (lower query) = search_stations g query.
Proof.
  unfold search_stations, search_stations_in.
  rewrite lower_length, lower_idempotent. by destruct query.
Qed.

(** *** [get_interchange_stations] *)

(** On a network built from line tables, [get_interchange_stations] lists,
    in strictly increasing order, exactly the stations that are on more than one
    line. *)
Theorem interchange_stations_listed tables :
  (∀ x, x ∈ get_interchange_stations (initialize_metro_network tables)
        ↔ 1 < size (lines_at (initialize_metro_network tables) x))
  ∧ ∀ i j x y,
      get_interchange_stations (initialize_metro_network tables) !! i = Some x →
      get_interchange_stations (initialize_metro_network tables) !! j = Some y →
      i < j → String.ltb x y = true.
Proof.
  set (g := initialize_metro_network tables). unfold get_interchange_stations.
  split.
  - intros x. rewrite sorted_Permutation, list_elem_of_In, in_map_iff.
    assert (Hsize : size (lines_at g x)
                    = length (default [] (station_lines g !! x))).
    { unfold lines_at. by rewrite size_list_to_set by apply station_lines_NoDup. }
    rewrite Hsize. split.
    + intros ([k ls] & <- & Hin). apply list_elem_of_In, elem_of_filter_bool in Hin
        as [Hin Hlen]. apply elem_of_map_to_list in Hin. cbn in *.
      rewrite Hin. cbn. by apply Nat.ltb_lt.
    + intros Hlen. destruct (station_lines g !! x) as [ls|] eqn:E; [|cbn in Hlen; lia].
      exists (x, ls). split; [done|].
      apply list_elem_of_In, elem_of_filter_bool. split.
      * by apply elem_of_map_to_list.
      * by apply Nat.ltb_lt.
  - intros i j x y. apply ascending_lookup.
    apply sorted_ascending; [apply string_ltb_order|].
    assert (H : ∀ l : list (string * list string),
              NoDup l.*1 →
              NoDup (List.map fst
                       (List.filter (λ kv : string * list string,
                                       1 <? length kv.2) l))).
    { induction l as [|kv l IH]; [constructor|]. rewrite fmap_cons.
      intros [Hk Hl]%NoDup_cons. cbn [List.filter].
      destruct (1 <? length kv.2); [|by apply IH]. cbn [List.map].
      apply NoDup_cons. split; [|by apply IH].
      intros Hin. apply Hk. apply list_elem_of_In, in_map_iff in Hin
        as (kv' & <- & Hin'). apply list_elem_of_In, elem_of_filter_bool in Hin'
        as [Hin' _]. apply list_elem_of_fmap. by exists kv'. }
    apply H, NoDup_fst_map_to_list.
Qed.

(** ** More on name resolution *)

Lemma isspace_lower_char c : isspace (lower_char c) = isspace c.
Proof. destruct c as [[] [] [] [] [] [] [] []]; reflexivity. Qed.

Lemma string_of_list_ascii_app l k :
  string_of_list_ascii (l ++ k)
  = (string_of_list_ascii l ++ string_of_list_ascii k)%string.
Proof. induction l as [|c l IH]; [done|]. simpl. by rewrite IH. Qed.

Lemma list_ascii_of_string_app s t :
  list_ascii_of_string (s ++ t)%string
  = list_ascii_of_string s ++ list_ascii_of_string t.
Proof. induction s as [|c s IH]; [done|]. simpl. by rewrite IH. Qed.

Lemma lower_of_list l :
  lower (string_of_list_ascii l) = string_of_list_ascii (List.map lower_char l).
Proof. induction l as [|c l IH]; [done|]. cbn. by rewrite IH. Qed.

Lemma list_of_lower s :
  list_ascii_of_string (lower s) = List.map lower_char (list_ascii_of_string s).
Proof. induction s as [|c s IH]; [done|]. cbn. by rewrite IH. Qed.

Lemma lower_reverse s : lower (reverse s) = reverse (lower s).
Proof. unfold reverse. by rewrite lower_of_list, list_of_lower, map_rev. Qed.

Lemma lower_lstrip s : lower (lstrip s) = lstrip (lower s).
Proof.
  induction s as [|c s IH]; [done|]. cbn. rewrite isspace_lower_char.
  by destruct (isspace c).
Qed.

Lemma lower_strip s : lower (strip s) = strip (lower s).
Proof.
  unfold strip, rstrip. by rewrite lower_reverse, lower_lstrip, lower_reverse, lower_lstrip.
Qed.

Lemma lstrip_idempotent s : lstrip (lstrip s) = lstrip s.
Proof.
  induction s as [|c s IH]; [done|]. cbn. destruct (isspace c) eqn:E; [done|].
  cbn. by rewrite E.
Qed.

Lemma reverse_involutive s : reverse (reverse s) = s.
Proof.
  unfold reverse.
  by rewrite list_ascii_of_string_of_list_ascii, rev_involutive,
    string_of_list_ascii_of_string.
Qed.

Lemma rstrip_idempotent s : rstrip (rstrip s) = rstrip s.
Proof. unfold rstrip. by rewrite reverse_involutive, lstrip_idempotent. Qed.

Lemma lstrip_head s :
  lstrip s = "" ∨ ∃ c t, lstrip s = String c t ∧ isspace c = false.
Proof.
  induction s as [|c s IH]; [by left|]. cbn. destruct (isspace c) eqn:E; [done|].
  right. by exists c, s.
Qed.

Lemma lstrip_snoc s c :
  isspace c = false → lstrip (s ++ String c "") = (lstrip s ++ String c "")%string.
Proof.
  intros Hc. induction s as [|x s IH]; simpl; [by rewrite Hc|].
  by destruct (isspace x).
Qed.

Lemma reverse_cons c s : reverse (String c s) = (reverse s ++ String c "")%string.
Proof. unfold reverse. simpl. by rewrite string_of_list_ascii_app. Qed.

Lemma reverse_snoc c s : reverse (s ++ String c "") = String c (reverse s).
Proof.
  unfold reverse. rewrite list_ascii_of_string_app, rev_app_distr. done.
Qed.

Lemma lstrip_rstrip_lstrip s : lstrip (rstrip (lstrip s)) = rstrip (lstrip s).
Proof.
  destruct (lstrip_head s) as [->|(c & t & -> & Hc)]; [done|].
  unfold rstrip. rewrite reverse_cons, lstrip_snoc, reverse_snoc by done.
  cbn. by rewrite Hc.
Qed.

Lemma strip_idempotent s : strip (strip s) = strip s.
Proof. unfold strip. by rewrite lstrip_rstrip_lstrip, rstrip_idempotent. Qed.

Lemma normalize_idempotent raw :
  normalize_station_name (normalize_station_name raw) = normalize_station_name raw.
Proof.
  unfold normalize_station_name.
  by rewrite <- lower_strip, strip_idempotent, lower_idempotent.
Qed.

(** Normalising a name once is enough: the result is already normal, and
    lower-casing or stripping the name beforehand changes nothing.  So a raw
    name, its lower-cased form, its stripped form and its normal form all
    resolve to the same station, or all to none. *)
Theorem resolution_ignores_case_and_space g raw :
  normalize_station_name (normalize_station_name raw) = normalize_station_name raw
  ∧ normalize_station_name (lower raw) = normalize_station_name raw
  ∧ normalize_station_name (strip raw) = normalize_station_name raw
  ∧ ∀ s, (resolves g (normalize_station_name raw) s ↔ resolves g raw s)
         ∧ (resolves g (lower raw) s ↔ resolves g raw s)
         ∧ (resolves g (strip raw) s ↔ resolves g raw s).
Proof.
  assert (H1 : normalize_station_name (lower raw) = normalize_station_name raw).
  { unfold normalize_station_name. by rewrite <- lower_strip, lower_idempotent. }
  assert (H2 : normalize_station_name (strip raw) = normalize_station_name raw).
  { unfold normalize_station_name. by rewrite strip_idempotent. }
  split; [apply normalize_idempotent|]. split; [done|]. split; [done|].
  intros s. unfold resolves. by rewrite normalize_idempotent, H1, H2.
Qed.

Lemma station_mapping_last (l : list string) (m : gmap string string) s :
  NoDup (normalize_station_name <$> l) → s ∈ l →
  foldl (λ m s, <[normalize_station_name s := s]> m) m l
    !! normalize_station_name s = Some s.
Proof.
  revert m. induction l as [|x l IH]; intros m Hnd Hs; [by apply elem_of_nil in Hs|].
  rewrite fmap_cons in Hnd. apply NoDup_cons in Hnd as [Hx Hnd]. cbn [foldl].
  apply elem_of_cons in Hs as [->|Hs]; [|by apply IH].
  destruct (foldl (λ m s, <[normalize_station_name s := s]> m)
              (<[normalize_station_name x := x]> m) l !! normalize_station_name x)
    as [s'|] eqn:E.
  - apply station_mapping_fold in E as [[Hin Hk]|Hm].
    + exfalso. apply Hx. apply list_elem_of_fmap. by exists s'.
    + by rewrite lookup_insert_eq in Hm.
  - exfalso.
    assert (H : ∀ (l : list string) (m : gmap string string) k,
              is_Some (m !! k) →
              is_Some (foldl (λ m s, <[normalize_station_name s := s]> m) m l !! k)).
    { clear. induction l as [|y l IH]; intros m k Hk; [done|]. cbn [foldl].
      apply IH. destruct (decide (normalize_station_name y = k)) as [<-|Hne].
      - rewrite lookup_insert_eq. eauto.
      - by rewrite lookup_insert_ne. }
    destruct (H l (<[normalize_station_name x := x]> m) (normalize_station_name x))
      as [? ?]; [rewrite lookup_insert_eq; eauto|congruence].
Qed.

(** When no two stations share a normalised name, the names that resolve to
    themselves are exactly the stations, whatever the order in which the
    station set is read. *)
Theorem every_station_resolves g s :
  distinct_normalized g = true →
  s ∈ stations g ↔ resolves g s s.
Proof.
  intros Hnd%bool_decide_eq_true. split.
  - intros Hs. unfold resolves, get_station_mapping.
    apply station_mapping_last; [done|]. by apply elem_of_elements.
  - by intros [H _]%resolves_station.
Qed.

Lemma every_station_resolves_witness :
  "Kashmere Gate" ∈ stations metro ↔ resolves metro "Kashmere Gate" "Kashmere Gate".
Proof. apply (every_station_resolves metro "Kashmere Gate"). by vm_compute. Defined.

(** ** More on the searches *)

(** Whatever non-empty path the least-changes search returns, on any
    network, it is a walk from the station the first name resolves to, to
    the station the second name resolves to, it passes no station twice, and
    the changes returned with it are those of [_identify_line_changes]. *)
Theorem least_changes_path_simple g raw_a raw_b path d changes :
  find_route_least_changes g raw_a raw_b = Returns (path, d, changes) →
  path ≠ [] →
  ∃ A B, resolves g raw_a A ∧ resolves g raw_b B
         ∧ walk g A B path ∧ NoDup path
         ∧ changes = identify_line_changes g path.
Proof.
  intros H Hne.
  apply find_route_least_changes_inv in H as [[= -> _ _]|(A&B&_&_&Ra&Rb&Hw)]; [done|].
  exists A, B. split; [done|]. split; [done|].
  pose proof (least_changes_result_walk g A B _ Hw) as [[= -> _ _]|[Hwalk Hnd]];
    [done|].
  split; [done|]. split; [done|].
  destruct (while_invariant (least_changes_pass g B) (λ _, True)
              (λ _ _ _ _, I) _ _ _ I Hw) as (s' & _ & E).
  destruct (least_changes_pass_cases g B s') as
    [[_ Hp]|(c&d'&cur&p&ls&rest&Hpop&[[-> Hp]|[_ [(seen&_&_&Hp)|[_ [[_ Hp]|
       (nbrs&queue&_&_&Hp)]]]]])]; rewrite Hp in E; try done.
  - by injection E as <- _ _.
  - by injection E as <- _ <-.
Qed.

Lemma least_changes_path_simple_witness :
  ∃ A B, resolves metro "new delhi" A ∧ resolves metro "Chawri Bazar " B
         ∧ walk metro A B ["New Delhi"; "Chawri Bazar"]
         ∧ NoDup ["New Delhi"; "Chawri Bazar"]
         ∧ [] = identify_line_changes metro ["New Delhi"; "Chawri Bazar"].
Proof.
  apply (least_changes_path_simple metro "new delhi" "Chawri Bazar "
           ["New Delhi"; "Chawri Bazar"] (Finite (4 # 5)) []).
  - by vm_compute.
  - done.
Defined.

Lemma all_routes_self_in g A raw_s raw_e :
  find_shortest_path g raw_s raw_e = Returns ([A], Finite 0, []) →
  find_route_least_changes g raw_s raw_e = Returns ([A], Finite 0, []) →
  find_all_routes g raw_s raw_e
  = Returns [ {| path := [A]; distance := Finite 0; line_changes := [];
                 rtype := shortest |} ].
Proof.
  intros H1 H2. unfold find_all_routes. rewrite H1, H2. cbn.
  rewrite (bool_decide_eq_false_2 ([A] ≠ [A])); [done|]. intros H. by apply H.
Qed.

(** Asked for the routes from a station of the Delhi network to itself,
    [find_all_routes] returns one route: the station alone, of length 0, no
    change, tagged [shortest]; the least-changes answer is the same path and
    is left out. *)
Theorem all_routes_self raw_s raw_e A :
  resolves metro raw_s A → resolves metro raw_e A →
  find_all_routes metro raw_s raw_e
  = Returns [ {| path := [A]; distance := Finite 0; line_changes := [];
                 rtype := shortest |} ].
Proof.
  intros Rs Re.
  destruct (resolves_station _ _ _ Rs) as [HA _].
  destruct (self_route_in metro A raw_s raw_e metro_no_empty_station
              metro_resolves_no_empty metro_dom_stations HA Rs Re) as [H1 H2].
  exact (all_routes_self_in metro A raw_s raw_e H1 H2).
Qed.

Lemma all_routes_self_witness :
  find_all_routes metro " hauz khas" "Hauz Khas"
  = Returns [ {| path := ["Hauz Khas"]; distance := Finite 0; line_changes := [];
                 rtype := shortest |} ].
Proof.
  apply (all_routes_self " hauz khas" "Hauz Khas" "Hauz Khas"); by vm_compute.
Defined.

(** ** The route summary *)

(** Rounding a number of halves to even: an even count of halves is
    halved, an odd count goes to the even neighbour. *)
Lemma round_half_even_halves (x : Q) (t : Z) :
  (x == inject_Z t / 2)%Q →
  (Z.even t = true → 2 * round_half_even x = t)%Z
  ∧ (Z.even t = false →
     Z.even (round_half_even x) = true
     ∧ (2 * round_half_even x = t - 1 ∨ 2 * round_half_even x = t + 1))%Z.
Proof.
  intros Hx. unfold round_half_even.
  assert (Hf : Qfloor x = (t / 2)%Z).
  { rewrite (Qfloor_comp _ _ Hx). symmetry. apply (Zdiv_Qdiv t 2). }
  rewrite Hf. set (f := (t / 2)%Z).
  pose proof (Z.div_mod t 2 ltac:(lia)) as Ht. fold f in Ht.
  pose proof (Z.mod_pos_bound t 2 ltac:(lia)) as Hm.
  assert (Hq : (inject_Z t == 2 * inject_Z f + inject_Z (t mod 2))%Q).
  { rewrite Ht at 1. rewrite inject_Z_plus, inject_Z_mult. reflexivity. }
  clearbody f.
  assert (Hx2 : (x == inject_Z f + inject_Z (t mod 2) * (1 # 2))%Q).
  { rewrite Hx, Hq. field. }
  destruct (Z.eq_dec (t mod 2)%Z 0%Z) as [H0|H0].
  - assert (He : Z.even t = true).
    { rewrite Ht, H0, Z.add_0_r, Z.even_mul. done. }
    rewrite He.
    assert (Hc : (x - inject_Z f ?= 1 # 2)%Q = Lt).
    { apply (proj1 (Qlt_alt _ _)). rewrite Hx2, H0. change (inject_Z 0) with 0%Q. lra. }
    rewrite Hc. split; [lia|done].
  - assert (H1 : (t mod 2 = 1)%Z) by lia.
    assert (He : Z.even t = false).
    { rewrite Ht, H1, Z.even_add, Z.even_mul. done. }
    rewrite He.
    assert (Hc : (x - inject_Z f ?= 1 # 2)%Q = Eq).
    { apply (proj1 (Qeq_alt _ _)). rewrite Hx2, H1. change (inject_Z 1) with 1%Q. lra. }
    rewrite Hc. split; [done|]. intros _.
    destruct (Z.even f) eqn:Ef.
    + split; [done|lia].
    + split; [|lia]. rewrite Z.even_add, Ef. done.
Qed.

Lemma last_default {A} (l : list A) (d : A) :
  l ≠ [] → last l = Some (List.last l d).
Proof.
  induction l as [|x l IH]; [done|]. intros _. destruct l as [|y l]; [done|].
  rewrite last_cons_cons. by apply IH.
Qed.

(** [get_route_summary] gives the error dictionary exactly for the empty
    path.  Otherwise it reports the first and the last station, the counts,
    the fare of [calculate_fare] without smart card, and a travel time that
    is [2.5 * stations + 3 * changes] when the number of stations is even,
    and the even one of the two nearest integers when it is odd. *)
Theorem route_summary_estimate path d changes :
  match get_route_summary path d changes with
  | SummaryError message => path = [] ∧ message = "No route available"
  | Summary s =>
      head path = Some (rs_start s) ∧ last path = Some (rs_end s)
      ∧ stations_count s = length path
      ∧ line_changes_count s = length changes
      ∧ rs_fare s = calculate_fare d false
      ∧ recommended_fare (rs_fare s) = token_fare (rs_fare s)
      ∧ let t := (5 * Z.of_nat (length path) + 6 * Z.of_nat (length changes))%Z in
        (Nat.even (length path) = true → 2 * estimated_time_min s = t)%Z
        ∧ (Nat.even (length path) = false →
           Z.even (estimated_time_min s) = true
           ∧ (2 * estimated_time_min s = t - 1
              ∨ 2 * estimated_time_min s = t + 1))%Z
  end.
Proof.
  destruct path as [|first rest]; [done|].
  unfold get_route_summary. cbn [rs_start rs_end stations_count line_changes_count
                                  rs_fare estimated_time_min].
  split; [done|]. split.
  { by apply last_default. }
  split; [done|]. split; [done|]. split; [done|]. split; [done|].
  set (n := length (first :: rest)). set (c := length changes).
  set (t := (5 * Z.of_nat n + 6 * Z.of_nat c)%Z). cbv zeta.
  assert (Hx : (inject_Z (Z.of_nat n) * 2.5 + inject_Z (Z.of_nat c) * 3
                == inject_Z t / 2)%Q).
  { subst t. rewrite inject_Z_plus, !inject_Z_mult. field. }
  destruct (round_half_even_halves _ t Hx) as [He Ho].
  assert (Hpar : Z.even t = Nat.even n).
  { subst t. rewrite Z.even_add, !Z.even_mul. cbn [Z.even]. rewrite orb_true_l.
    rewrite orb_false_l.
    destruct (Z.even (Z.of_nat n)) eqn:E1, (Nat.even n) eqn:E2; try done.
    - apply Z.even_spec in E1 as [k Hk].
      assert (Nat.even n = true); [|congruence].
      apply Nat.even_spec. exists (Z.to_nat k). lia.
    - apply Nat.even_spec in E2 as [k Hk].
      assert (Z.even (Z.of_nat n) = true); [|congruence].
      apply Z.even_spec. exists (Z.of_nat k). lia. }
  rewrite <- Hpar. split; [exact He|exact Ho].
Qed.

(** ** The path returned by the shortest-path search *)














(** ** The two searches compared *)





